(** * GHL Workflow Mastery: the lesson shell, the node inspector and the
      progress store

    A shallow embedding of
    - [src/components/NodeInspector.tsx]  ([isFieldMissing]),
    - [src/components/ModuleShell.tsx]    ([formatRequirementSummary],
      [buildScenarioSummary], [buildExpectedFieldHints],
      [buildMicroLessonCards], [singleTriggerMode]),
    - [src/contexts/ProgressContext.tsx]  ([buildDefaultProgress],
      [mergeProgress], [updateModule], [unlockModule], [markCompleted],
      [markValidateAttempt], [markSimulateAttempt], [updateTeachBack]),
    together with the properties the specification states about them,
    and of the code around them:
    - [src/components/NodeInspector.tsx]  ([renderField] and the change
      handlers of its controls),
    - [src/components/ModuleShell.tsx]    ([getAllowedNodeTypes],
      [MultiWorkflowBuilder], [wordCount], [handleTeachBackSubmit], the
      lesson tabs with their buttons and effects, [handleFixNode]),
    - [src/components/Sidebar.tsx]        ([completedCount],
      [displayStatus]),
    - [CourseHome]                        ([nextModule]),
    - [src/contexts/ProgressContext.tsx]  (what the provider stores and
      reads back),
    with further properties at the end.

    [ProgressContext.tsx] is embedded twice: with [progress.modules] as a
    finite map of module objects, which is what its types say, and in
    [Plain], as the plain object it is, with what that object inherits
    and with numbers that round. [typed_embedding_agrees] has where the
    two agree.

    The builders of [ModuleShell.tsx] are embedded twice: as functions on
    values, for what they compute, and in [Store], over a store of objects
    with references, for what they write and share. The outcome comparator
    of the specification, whose code is not among the sources, is modelled
    in [OutcomeComparator]. *)

From Stdlib Require Import Ascii.
From stdpp Require Import gmap strings list fin_maps pretty.

Set Warnings "-register-all".

(** ** JavaScript strings

    A string is a sequence of code units; [string] holds the code units
    below 256, which covers every literal of the sources. *)

Module JsString.

(** [WhiteSpace] and [LineTerminator] code units below 256: TAB, LF, VT,
    FF, CR, SP and NBSP. These are what [String.prototype.trim] strips. *)
Definition is_whitespace (c : ascii) : bool :=
  match N_of_ascii c with
  | 9%N | 10%N | 11%N | 12%N | 13%N | 32%N | 160%N => true
  | _ => false
  end.

(** [trimStart]: drop the leading whitespace. *)
Fixpoint trim_start (s : string) : string :=
  match s with
  | EmptyString => EmptyString
  | String c s' => if is_whitespace c then trim_start s' else s
  end.

(** [trimEnd]: drop the trailing whitespace. *)
Fixpoint trim_end (s : string) : string :=
  match s with
  | EmptyString => EmptyString
  | String c s' =>
      match trim_end s' with
      | EmptyString => if is_whitespace c then EmptyString else String c EmptyString
      | t => String c t
      end
  end.

(** [s.trim()] *)
Definition trim (s : string) : string := trim_end (trim_start s).

(** Every code unit of [s] is whitespace (true of the empty string). *)
Fixpoint all_whitespace (s : string) : bool :=
  match s with
  | EmptyString => true
  | String c s' => is_whitespace c && all_whitespace s'
  end.

(** [parts.join(sep)] on an array of strings. *)
Fixpoint join (sep : string) (parts : list string) : string :=
  match parts with
  | [] => ""
  | [p] => p
  | p :: rest => p +:+ sep +:+ join sep rest
  end.

End JsString.

(** ** JavaScript values

    The data the components receive is plain JSON-like data: primitives,
    arrays and objects with string keys. Numbers are modelled on the
    integers, whose [ToString] is the decimal numeral as long as they are
    below 10^21 in magnitude. An object is kept as
    the list of its own properties, one entry per key. *)

Inductive JsValue : Type :=
| JUndefined
| JNull
| JBool (b : bool)
| JNum (n : Z)
| JStr (s : string)
| JArr (items : list JsValue)
| JObj (props : list (string * JsValue)).

(** Outcome of evaluating JavaScript code that may throw. *)
Inductive Completion (A : Type) : Type :=
| Return (a : A)
| Throw (error : string).
Arguments Return {A} a.
Arguments Throw {A} error.

Module Js.

Definition bind {A B} (m : Completion A) (k : A -> Completion B) : Completion B :=
  match m with
  | Return a => k a
  | Throw e => Throw e
  end.

(** Own-property lookup in a property list. *)
Fixpoint lookup_prop (key : string) (props : list (string * JsValue)) : option JsValue :=
  match props with
  | [] => None
  | (k, v) :: rest => if decide (k = key) then Some v else lookup_prop key rest
  end.

(** [v.key] / [v[key]]: reading a property of [undefined] or [null]
    throws a TypeError; a primitive or an array has none of the data
    properties read by the components, an object answers with its own
    property or [undefined]. *)
Definition get (v : JsValue) (key : string) : Completion JsValue :=
  match v with
  | JUndefined | JNull => Throw "TypeError: cannot read properties of undefined or null"
  | JObj props => Return (default JUndefined (lookup_prop key props))
  | _ => Return JUndefined
  end.

(** [ToString], as used by [String(v)] and by template literals. *)
Fixpoint to_string (v : JsValue) : string :=
  match v with
  | JUndefined => "undefined"
  | JNull => "null"
  | JBool true => "true"
  | JBool false => "false"
  | JNum n => pretty n
  | JStr s => s
  | JArr items =>
      JsString.join ","
        ((fix elems (l : list JsValue) : list string :=
            match l with
            | [] => []
            | JUndefined :: rest => "" :: elems rest
            | JNull :: rest => "" :: elems rest
            | x :: rest => to_string x :: elems rest
            end) items)
  | JObj _ => "[object Object]"
  end.

(** The string an array element contributes to [Array.prototype.join]:
    [undefined] and [null] contribute the empty string. *)
Definition join_element (v : JsValue) : string :=
  match v with
  | JUndefined | JNull => ""
  | _ => to_string v
  end.

(** [v.join(sep)]: only arrays carry [join]; on [undefined]/[null] the
    property read throws, on anything else the call of a non-function
    throws. *)
Definition join (v : JsValue) (sep : string) : Completion string :=
  match v with
  | JArr items => Return (JsString.join sep (join_element <$> items))
  | _ => Throw "TypeError: join is not a function"
  end.

(** [v.map(f)] for a total callback returning strings. *)
Definition map (v : JsValue) (f : JsValue -> string) : Completion JsValue :=
  match v with
  | JArr items => Return (JArr ((fun x => JStr (f x)) <$> items))
  | _ => Throw "TypeError: map is not a function"
  end.

(** [a ?? b] *)
Definition nullish (a b : JsValue) : JsValue :=
  match a with
  | JUndefined | JNull => b
  | _ => a
  end.

(** [a === s] for a string literal [s]. *)
Definition strict_eq_str (a : JsValue) (s : string) : bool :=
  match a with
  | JStr t => bool_decide (t = s)
  | _ => false
  end.

End Js.

Notation "x <- m ;; k" := (Js.bind m (fun x => k))
  (at level 100, m at next level, right associativity, only parsing).

(** ** NodeInspector.tsx *)

(** [isFieldMissing]: the required-field presence test. *)
Definition isFieldMissing (value : JsValue) : bool :=
  match value with
  | JUndefined | JNull => true
  | JStr s => bool_decide (String.length (JsString.trim s) = 0%nat)
  | _ => false
  end.

(** ** ModuleShell.tsx: data

    Modelled from the spec: the type declarations of [@/lib/scenarioTypes]
    (scenario, requirement, test case, expected outcomes) are not among the
    sources. The records below follow the data model of the specification
    and carry the fields the components read, with the optionality the
    reads allow for ([?.] and [??]). Array elements that reach [collectHint]
    have its parameter type [string | number | boolean | null | undefined]
    and are kept as [JsValue]. *)

Definition NodeType := string.

(** A requirement is an object; [formatRequirementSummary] takes it as
    [any] and reads its properties dynamically. *)
Definition Requirement := list (string * JsValue).

Record ExpectedMessage := mkExpectedMessage {
  channel : string;
  message_contains : list JsValue
}.

Record FieldEqual := mkFieldEqual {
  fieldKey : JsValue;
  value : JsValue
}.

(** [{ contains }]: an expected task or notification. *)
Record ContainsAssertion := mkContainsAssertion {
  contains : list JsValue
}.

Record WebhookAssertion := mkWebhookAssertion {
  urlContains : list JsValue
}.

Record ExpectedOutcome := mkExpectedOutcome {
  messages : option (list ExpectedMessage);
  tagsAdded : option (list JsValue);
  tagsRemoved : option (list JsValue);
  fieldsEqual : option (list FieldEqual);
  tasksCreated : option (list ContainsAssertion);
  systemTasksCreated : option (list ContainsAssertion);
  notifications : option (list ContainsAssertion);
  systemNotifications : option (list ContainsAssertion);
  webhooksFired : option (list WebhookAssertion)
}.

Record TestCase := mkTestCase {
  testCaseId : string;
  expect : ExpectedOutcome
}.

Record AllowedNodes := mkAllowedNodes {
  triggers : list NodeType;
  actions : list NodeType;
  logic : list NodeType
}.

(** A single-workflow scenario. *)
Record Scenario := mkScenario {
  moduleId : string;
  title : string;
  objectives : option (list string);
  allowedNodes : AllowedNodes;
  requirements : list Requirement;
  testCases : list TestCase
}.

Record Workflow := mkWorkflow {
  workflowId : string;
  workflow_scenario : Scenario
}.

(** [ScenarioDefinition]: a single-workflow scenario, or a bundle, which is
    the variant that has a [workflows] property. *)
Inductive ScenarioDefinition : Type :=
| SingleWorkflow (scenario : Scenario)
| Bundle (bundleModuleId bundleTitle : string) (workflows : list Workflow).

Record ExpectedFieldHint := mkExpectedFieldHint {
  label : string;
  values : list string;
  note : option string
}.

(** [Partial<Record<NodeType, Record<string, ExpectedFieldHint>>>] *)
Abbreviation ExpectedFieldHintsByNode := (gmap NodeType (gmap string ExpectedFieldHint)).

(** ** ModuleShell.tsx: operations *)

(** [Array.from(new Set(xs))]: the distinct elements of [xs], each at the
    place of its first occurrence. *)
Definition set_insert (acc : list string) (x : string) : list string :=
  if bool_decide (x ∈ acc) then acc else acc ++ [x].

Definition array_from_set (xs : list string) : list string :=
  fold_left set_insert xs [].

Definition is_nullish (v : JsValue) : bool :=
  match v with
  | JUndefined | JNull => true
  | _ => false
  end.

Definition is_blank (s : string) : bool :=
  bool_decide (String.length (JsString.trim s) = 0%nat).

(** The [cleaned] array of [collectHint]. *)
Definition cleaned (values : list JsValue) : list string :=
  List.filter (fun s => negb (is_blank s))
    (Js.to_string <$> List.filter (fun v => negb (is_nullish v)) values).

(** [hints[nodeType]?.[fieldKey]] *)
Definition lookup_hint (hints : ExpectedFieldHintsByNode)
    (nodeType : NodeType) (fieldKey : string) : option ExpectedFieldHint :=
  hints !! nodeType ≫= fun byField => byField !! fieldKey.

(** [collectHint], the closure of [buildExpectedFieldHints] that updates
    the local [hints]; the map is threaded through. *)
Definition collectHint (hints : ExpectedFieldHintsByNode)
    (nodeType : NodeType) (fieldKey label : string)
    (rawValues : list JsValue) (newNote : option string) : ExpectedFieldHintsByNode :=
  match cleaned rawValues with
  | [] => hints
  | _ =>
      let existing := lookup_hint hints nodeType fieldKey in
      let merged := array_from_set (from_option values [] existing ++ cleaned rawValues) in
      <[nodeType :=
          <[fieldKey :=
              {| label := label;
                 values := merged;
                 note := match existing ≫= note with
                         | Some n => Some n
                         | None => newNote
                         end |}]>
            (default ∅ (hints !! nodeType))]> hints
  end.

(** [xs?.length] as a condition: the array is there and is not empty. *)
Definition has_length {A} (xs : option (list A)) : bool :=
  match xs with
  | Some (_ :: _) => true
  | _ => false
  end.

(** The body of [expect.messages?.forEach]. *)
Definition collectMessage (hints : ExpectedFieldHintsByNode)
    (message : ExpectedMessage) : ExpectedFieldHintsByNode :=
  let hints :=
    if bool_decide (channel message = "sms") then
      collectHint hints "sms.send" "body" "Expected text to include"
        (message_contains message) (Some "Use these words somewhere in the SMS.")
    else hints in
  if bool_decide (channel message = "email") then
    let hints :=
      collectHint hints "email.send" "body" "Expected text to include"
        (message_contains message) (Some "Use these words somewhere in the email.") in
    collectHint hints "email.send" "subject" "Suggested keyword"
      (message_contains message) (Some "Short is ok. Use a key word from the body.")
  else hints.

(** The body of [scenario.testCases.forEach]. *)
Definition collectTestCase (hints : ExpectedFieldHintsByNode)
    (testCase : TestCase) : ExpectedFieldHintsByNode :=
  let expect := expect testCase in
  let hints := fold_left collectMessage (default [] (messages expect)) hints in
  let hints :=
    if has_length (tagsAdded expect) then
      collectHint hints "tag.add" "tag" "Expected tag"
        (default [] (tagsAdded expect)) None
    else hints in
  let hints :=
    if has_length (tagsRemoved expect) then
      collectHint hints "tag.remove" "tag" "Expected tag to remove"
        (default [] (tagsRemoved expect)) None
    else hints in
  let hints :=
    if has_length (fieldsEqual expect) then
      let hints :=
        collectHint hints "field.update" "fieldKey" "Expected field name"
          (fieldKey <$> default [] (fieldsEqual expect)) None in
      collectHint hints "field.update" "value" "Expected value"
        (value <$> default [] (fieldsEqual expect)) None
    else hints in
  let hints :=
    if has_length (tasksCreated expect) then
      fold_left (fun hints task =>
          collectHint hints "task.create" "title" "Expected words" (contains task) None)
        (default [] (tasksCreated expect)) hints
    else hints in
  let hints :=
    if has_length (systemTasksCreated expect) then
      fold_left (fun hints task =>
          collectHint hints "task.create" "title" "Expected words" (contains task) None)
        (default [] (systemTasksCreated expect)) hints
    else hints in
  let hints :=
    if has_length (notifications expect) then
      fold_left (fun hints notification =>
          collectHint hints "user.notify" "message" "Expected words"
            (contains notification) None)
        (default [] (notifications expect)) hints
    else hints in
  let hints :=
    if has_length (systemNotifications expect) then
      fold_left (fun hints notification =>
          collectHint hints "user.notify" "message" "Expected words"
            (contains notification) None)
        (default [] (systemNotifications expect)) hints
    else hints in
  if has_length (webhooksFired expect) then
    fold_left (fun hints webhook =>
        collectHint hints "webhook.send" "url" "Expected URL contains"
          (urlContains webhook) None)
      (default [] (webhooksFired expect)) hints
  else hints.

(** [buildExpectedFieldHints]; [None] stands for a [null] or [undefined]
    scenario. *)
Definition buildExpectedFieldHints
    (scenario : option ScenarioDefinition) : ExpectedFieldHintsByNode :=
  match scenario with
  | None => ∅
  | Some (Bundle _ _ _) => ∅
  | Some (SingleWorkflow scenario) =>
      fold_left collectTestCase (testCases scenario) ∅
  end.

(** [requirement.type] *)
Definition requirement_type (requirement : Requirement) : JsValue :=
  default JUndefined (Js.lookup_prop "type" requirement).

(** The [singleTriggerMode] memo of [ModuleShell]. *)
Definition singleTriggerMode (scenario : option ScenarioDefinition) : bool :=
  match scenario with
  | None => false
  | Some (Bundle _ _ _) => false
  | Some (SingleWorkflow scenario) =>
      existsb (fun requirement =>
          Js.strict_eq_str (requirement_type requirement) "triggerIs")
        (requirements scenario)
  end.

Section RequirementSummary.

(** [getNodeDisplayName] of [@/lib/ghlTerms], which is not part of the
    sources at hand: a function from a node type to its display name. *)
Variable getNodeDisplayName : JsValue -> string.

(** [formatRequirementSummary(requirement: any)]; the [switch] compares
    [requirement.type] to each label with [===]. *)
Definition formatRequirementSummary (requirement : JsValue) : Completion string :=
  type <- Js.get requirement "type";;
  if Js.strict_eq_str type "triggerIs" then
    value <- Js.get requirement "value";;
    Return ("Trigger is " +:+ getNodeDisplayName value)
  else if Js.strict_eq_str type "triggerConfigEquals" then
    field <- Js.get requirement "field";;
    value <- Js.get requirement "value";;
    Return ("Trigger field " +:+ Js.to_string field +:+ " equals " +:+ Js.to_string value)
  else if Js.strict_eq_str type "mustHaveNode" then
    value <- Js.get requirement "value";;
    Return ("Includes " +:+ getNodeDisplayName value)
  else if Js.strict_eq_str type "forbidNodeType" then
    value <- Js.get requirement "value";;
    Return ("Does not include " +:+ getNodeDisplayName value)
  else if Js.strict_eq_str type "nodeConfigRequired" then
    nodeType <- Js.get requirement "nodeType";;
    fields <- Js.get requirement "fields";;
    joined <- Js.join fields ", ";;
    Return (getNodeDisplayName nodeType +:+ " has " +:+ joined)
  else if Js.strict_eq_str type "nodeOrder" then
    sequence <- Js.get requirement "sequence";;
    names <- Js.map sequence getNodeDisplayName;;
    joined <- Js.join names " -> ";;
    Return ("Order: " +:+ joined)
  else if Js.strict_eq_str type "mustContainIfElse" then
    minCount <- Js.get requirement "minCount";;
    Return ("Has at least " +:+ Js.to_string (Js.nullish minCount (JNum 1)) +:+ " If/Else step")
  else if Js.strict_eq_str type "branchCountAtLeast" then
    count <- Js.get requirement "count";;
    Return ("If/Else has at least " +:+ Js.to_string count +:+ " paths")
  else if Js.strict_eq_str type "pathMustInclude" then
    nodeTypes <- Js.get requirement "nodeTypes";;
    names <- Js.map nodeTypes getNodeDisplayName;;
    joined <- Js.join names ", ";;
    Return ("Includes " +:+ joined)
  else if Js.strict_eq_str type "requireStopPath" then
    Return "Each path ends when there are no more steps"
  else
    Return "Requirement".

End RequirementSummary.





(** ** ProgressContext.tsx

    [progress.modules] as its type [Record<string, ModuleProgress>] reads:
    a finite map from module ids to module objects, with the attempt
    counters as counts. This is the code on module ids that are no names
    of [Object.prototype] and on counters below 2^53 (see
    [typed_embedding_agrees]); [Plain] below is the code on every module
    id and every counter. *)

Inductive ModuleStatus : Type := locked | available | completed.

Global Instance ModuleStatus_eq_dec : EqDecision ModuleStatus.
Proof. solve_decision. Defined.

(** The attempt counters as counts, with an exact [+ 1]: what the numbers
    of the source do below 2^53. *)
Record Attempts := mkAttempts {
  validate : nat;
  simulate : nat
}.

Record ModuleProgress := mkModuleProgress {
  status : ModuleStatus;
  attempts : Attempts;
  teachBack : string
}.

Record ProgressState := mkProgressState {
  modules : gmap string ModuleProgress
}.

(** What [JSON.parse] hands to [mergeProgress] as a saved module: the
    source guards each field with [??], so each may be missing. *)
Record SavedModule := mkSavedModule {
  saved_status : option ModuleStatus;
  saved_attempts : option Attempts;
  saved_teachBack : option string
}.

(** The saved state; [saved.modules?.[id]] allows for a missing [modules]. *)
Record SavedState := mkSavedState {
  saved_modules : option (gmap string SavedModule)
}.

(** [ModuleManifestEntry] of [@/data/moduleManifest], whose declaration is
    not among the sources: the fields are those the components read. *)
Record ModuleManifestEntry := mkModuleManifestEntry {
  entry_moduleId : string;
  entry_title : string;
  entry_phase : string
}.

Definition defaultModuleProgress : ModuleProgress :=
  {| status := available;
     attempts := {| validate := 0; simulate := 0 |};
     teachBack := "" |}.

(** [buildDefaultProgress] *)
Definition buildDefaultProgress (manifest : list ModuleManifestEntry) : ProgressState :=
  {| modules :=
       fold_left (fun modules entry => <[entry_moduleId entry := defaultModuleProgress]> modules)
         manifest ∅ |}.

(** The body of the [for] loop of [mergeProgress]. *)
Definition mergeEntry (baseline : ProgressState) (saved : SavedState)
    (merged : gmap string ModuleProgress) (entry : ModuleManifestEntry)
    : gmap string ModuleProgress :=
  match saved_modules saved ≫= fun m => m !! entry_moduleId entry with
  | Some savedModule =>
      let savedStatus :=
        match saved_status savedModule with
        | Some locked => Some available
        | other => other
        end in
      let base := default defaultModuleProgress (modules baseline !! entry_moduleId entry) in
      <[entry_moduleId entry :=
          {| status := default (status base) savedStatus;
             attempts := default (attempts base) (saved_attempts savedModule);
             teachBack := default "" (saved_teachBack savedModule) |}]> merged
  | None => merged
  end.

(** [mergeProgress] *)
Definition mergeProgress (manifest : list ModuleManifestEntry)
    (saved : option SavedState) : ProgressState :=
  let baseline := buildDefaultProgress manifest in
  match saved with
  | None => baseline
  | Some saved =>
      {| modules := fold_left (mergeEntry baseline saved) manifest (modules baseline) |}
  end.

(** [moduleOrder.indexOf(moduleId)]: the first position, if any. *)
Fixpoint indexOf (moduleOrder : list string) (moduleId : string) : option nat :=
  match moduleOrder with
  | [] => None
  | m :: rest =>
      if bool_decide (m = moduleId) then Some 0%nat
      else S <$> indexOf rest moduleId
  end.

Section Provider.

(** The [manifest] prop of [ProgressProvider]. *)
Variable manifest : list ModuleManifestEntry.

Definition moduleOrder : list string := entry_moduleId <$> manifest.

(** [updateModule]: the state update it hands to [setProgress], for a
    [moduleId] that [modules] has or reads as [undefined]. *)
Definition updateModule (moduleId : string)
    (updater : ModuleProgress -> ModuleProgress) (current : ProgressState)
    : ProgressState :=
  match modules current !! moduleId with
  | None => current
  | Some existing =>
      {| modules := <[moduleId := updater existing]> (modules current) |}
  end.

Definition unlockModule (moduleId : string) : ProgressState -> ProgressState :=
  updateModule moduleId (fun current =>
    if bool_decide (status current <> locked) then current
    else {| status := available;
            attempts := attempts current;
            teachBack := teachBack current |}).

(** [markCompleted]: the two queued updates run in order. *)
Definition markCompleted (moduleId : string) (current : ProgressState) : ProgressState :=
  let current :=
    updateModule moduleId (fun current =>
      {| status := completed;
         attempts := attempts current;
         teachBack := teachBack current |}) current in
  match indexOf moduleOrder moduleId with
  | Some index =>
      if bool_decide (index < length moduleOrder - 1)%nat then
        match moduleOrder !! (index + 1)%nat with
        | Some next => unlockModule next current
        | None => current
        end
      else current
  | None => current
  end.

Definition markValidateAttempt (moduleId : string) : ProgressState -> ProgressState :=
  updateModule moduleId (fun current =>
    {| status := status current;
       attempts := {| validate := validate (attempts current) + 1;
                      simulate := simulate (attempts current) |};
       teachBack := teachBack current |}).

Definition markSimulateAttempt (moduleId : string) : ProgressState -> ProgressState :=
  updateModule moduleId (fun current =>
    {| status := status current;
       attempts := {| validate := validate (attempts current);
                      simulate := simulate (attempts current) + 1 |};
       teachBack := teachBack current |}).

Definition updateTeachBack (moduleId text : string) : ProgressState -> ProgressState :=
  updateModule moduleId (fun current =>
    {| status := status current;
       attempts := attempts current;
       teachBack := text |}).

End Provider.


(** ** ProgressContext.tsx over plain objects

    [progress.modules] is a plain object that the code uses as a map, with
    [modules[moduleId]] to read and to write. Such a read also finds what
    the object inherits from its prototype, and such a write to
    ["__proto__"] sets the prototype instead of a property. The embedding
    of [ProgressContext.tsx] above takes module ids to be keys that no
    object inherits; this one keeps the own properties and the prototype of
    [modules] apart, holds the values that an inherited read brings into
    the state, lets an updater throw, and has the rounding of [+ 1]. *)

(** The properties of [Object.prototype]: eleven functions and the
    accessor [__proto__]. *)
Definition object_prototype_names : list string :=
  [ "constructor"; "__defineGetter__"; "__defineSetter__"; "hasOwnProperty";
    "__lookupGetter__"; "__lookupSetter__"; "isPrototypeOf";
    "propertyIsEnumerable"; "toString"; "valueOf"; "__proto__";
    "toLocaleString" ].

Module Plain.

(** [n + 1] on a number that holds the natural number [n]. The sum is
    exact below 2^53; from there on it is rounded to the nearest double,
    a tie going to the double with the even significand: between 2^53 and
    2^54 the doubles are the even numbers, and above them [n + 1] is
    nearest to [n]. A counter is a double, so from 2^53 on an [n] that
    no double holds does not come up. *)
Definition succ (n : N) : N :=
  if (n <? 2 ^ 53)%N then (n + 1)%N
  else if (n <? 2 ^ 54)%N then
    if N.even (n / 2) then n else (n + 2)%N
  else n.

Record Attempts := mkAttempts {
  validate : N;
  simulate : N
}.

(** [ModuleProgress] *)
Record ModuleProgress := mkModuleProgress {
  status : ModuleStatus;
  attempts : Attempts;
  teachBack : string
}.

(** The own properties that [{ ...value }] copies besides [status],
    [attempts] and [teachBack]: none, the code units of a string under
    their indices, or the counters of an [attempts] object. *)
Inductive Spread : Type :=
| NoSpread
| Chars (text : string)
| Counters (counters : Attempts).

(** An object held as a module: each property of [ModuleProgress] may be
    missing. *)
Record Entry := mkEntry {
  entry_status : option ModuleStatus;
  entry_attempts : option Attempts;
  entry_teachBack : option string;
  entry_spread : Spread
}.

(** What [modules[moduleId]] may be when it is not [undefined]: a value
    of [Object.prototype] (one of its functions, or for ["__proto__"]
    that object itself), a string, or an object. *)
Inductive Value : Type :=
| Builtin (name : string)
| Text (text : string)
| Obj (entry : Entry).

(** [progress.modules]: its own properties and its prototype, [None] for
    [Object.prototype]. The state [{ modules }] has this one property. *)
Record Modules := mkModules {
  own : gmap string Value;
  proto : option ModuleProgress
}.

#[global] Instance Attempts_eq_dec : EqDecision Attempts.
Proof. solve_decision. Defined.

#[global] Instance ModuleProgress_eq_dec : EqDecision ModuleProgress.
Proof. solve_decision. Defined.

#[global] Instance Spread_eq_dec : EqDecision Spread.
Proof. solve_decision. Defined.

#[global] Instance Entry_eq_dec : EqDecision Entry.
Proof. solve_decision. Defined.

#[global] Instance Value_eq_dec : EqDecision Value.
Proof. solve_decision. Defined.

#[global] Instance Modules_eq_dec : EqDecision Modules.
Proof. solve_decision. Defined.

(** A module object as a value; an assignment or an object literal of the
    source makes such objects. *)
Definition of_module (module : ModuleProgress) : Entry :=
  {| entry_status := Some (status module);
     entry_attempts := Some (attempts module);
     entry_teachBack := Some (teachBack module);
     entry_spread := NoSpread |}.

Definition status_text (status : ModuleStatus) : string :=
  match status with
  | locked => "locked"
  | available => "available"
  | completed => "completed"
  end.

(** [Object.prototype[key]] *)
Definition inherited (key : string) : option Value :=
  if bool_decide (key ∈ object_prototype_names) then Some (Builtin key) else None.

(** [modules[key]], with [None] for [undefined]: an own property, or else
    what the prototype has. Under a prototype that is a module object,
    ["__proto__"] reads that object and its three properties are
    inherited. *)
Definition get (modules : Modules) (key : string) : option Value :=
  match own modules !! key with
  | Some value => Some value
  | None =>
      match proto modules with
      | None => inherited key
      | Some prototype =>
          if bool_decide (key = "__proto__") then Some (Obj (of_module prototype))
          else if bool_decide (key = "status") then
            Some (Text (status_text (status prototype)))
          else if bool_decide (key = "attempts") then
            Some (Obj {| entry_status := None;
                         entry_attempts := None;
                         entry_teachBack := None;
                         entry_spread := Counters (attempts prototype) |})
          else if bool_decide (key = "teachBack") then
            Some (Text (teachBack prototype))
          else inherited key
      end
  end.

(** [ToBoolean] *)
Definition truthy (value : Value) : bool :=
  match value with
  | Text text => negb (bool_decide (text = ""))
  | Builtin _ | Obj _ => true
  end.

(** [{ ...value }]: the own enumerable properties of the value. A
    function and [Object.prototype] have none. *)
Definition spread (value : Value) : Entry :=
  match value with
  | Obj entry => entry
  | Text text =>
      {| entry_status := None;
         entry_attempts := None;
         entry_teachBack := None;
         entry_spread := if bool_decide (text = "") then NoSpread else Chars text |}
  | Builtin _ =>
      {| entry_status := None;
         entry_attempts := None;
         entry_teachBack := None;
         entry_spread := NoSpread |}
  end.

(** [value.status] and [value.attempts]: a string and a function have no
    such property. *)
Definition status_of (value : Value) : option ModuleStatus :=
  match value with
  | Obj entry => entry_status entry
  | _ => None
  end.

Definition attempts_of (value : Value) : option Attempts :=
  match value with
  | Obj entry => entry_attempts entry
  | _ => None
  end.

Definition with_status (status : ModuleStatus) (entry : Entry) : Entry :=
  {| entry_status := Some status;
     entry_attempts := entry_attempts entry;
     entry_teachBack := entry_teachBack entry;
     entry_spread := entry_spread entry |}.

Definition with_attempts (attempts : Attempts) (entry : Entry) : Entry :=
  {| entry_status := entry_status entry;
     entry_attempts := Some attempts;
     entry_teachBack := entry_teachBack entry;
     entry_spread := entry_spread entry |}.

Definition with_teachBack (text : string) (entry : Entry) : Entry :=
  {| entry_status := entry_status entry;
     entry_attempts := entry_attempts entry;
     entry_teachBack := Some text;
     entry_spread := entry_spread entry |}.

Definition defaultModuleProgress : ModuleProgress :=
  {| status := available;
     attempts := {| validate := 0; simulate := 0 |};
     teachBack := "" |}.

(** [modules[key] = module] for a module object: under ["__proto__"],
    unless that is an own property, the assignment sets the prototype. *)
Definition assign (modules : Modules) (key : string) (module : ModuleProgress)
    : Modules :=
  if bool_decide (key = "__proto__")
     && bool_decide (own modules !! "__proto__" = None)
  then {| own := own modules; proto := Some module |}
  else {| own := <[key := Obj (of_module module)]> (own modules);
          proto := proto modules |}.

(** [buildDefaultProgress] *)
Definition buildDefaultProgress (manifest : list ModuleManifestEntry) : Modules :=
  fold_left
    (fun modules entry => assign modules (entry_moduleId entry) defaultModuleProgress)
    manifest {| own := ∅; proto := None |}.

(** What [JSON.parse] hands to [mergeProgress] as a saved module. *)
Record SavedModule := mkSavedModule {
  saved_status : option ModuleStatus;
  saved_attempts : option Attempts;
  saved_teachBack : option string
}.

(** The saved state: the own properties of [saved.modules], if there is
    such an object. *)
Record SavedState := mkSavedState {
  saved_modules : option (gmap string SavedModule)
}.

(** [saved.modules?.[key]]: a saved module, or what the parsed object
    inherits, which has none of the three properties. *)
Definition saved_get (saved : SavedState) (key : string) : option SavedModule :=
  match saved_modules saved with
  | None => None
  | Some savedModules =>
      match savedModules !! key with
      | Some savedModule => Some savedModule
      | None =>
          if bool_decide (key ∈ object_prototype_names) then
            Some {| saved_status := None;
                    saved_attempts := None;
                    saved_teachBack := None |}
          else None
      end
  end.

(** [baseline.modules[key]] as the module object that
    [buildDefaultProgress] put there; reading a property of [undefined]
    throws. *)
Definition baseline_module (baseline : Modules) (key : string)
    : Completion ModuleProgress :=
  match get baseline key with
  | Some (Obj {| entry_status := Some status;
                 entry_attempts := Some attempts;
                 entry_teachBack := Some teachBack |}) =>
      Return {| status := status; attempts := attempts; teachBack := teachBack |}
  | _ => Throw "TypeError: cannot read properties of undefined"
  end.

(** The body of the [for] loop of [mergeProgress]. *)
Definition mergeEntry (baseline : Modules) (saved : SavedState)
    (merged : Modules) (entry : ModuleManifestEntry) : Completion Modules :=
  match saved_get saved (entry_moduleId entry) with
  | None => Return merged
  | Some savedModule =>
      let savedStatus :=
        match saved_status savedModule with
        | Some locked => Some available
        | other => other
        end in
      status <- match savedStatus with
                | Some status => Return status
                | None =>
                    base <- baseline_module baseline (entry_moduleId entry);;
                    Return (status base)
                end;;
      attempts <- match saved_attempts savedModule with
                  | Some attempts => Return attempts
                  | None =>
                      base <- baseline_module baseline (entry_moduleId entry);;
                      Return (attempts base)
                  end;;
      Return (assign merged (entry_moduleId entry)
                {| status := status;
                   attempts := attempts;
                   teachBack := default "" (saved_teachBack savedModule) |})
  end.

(** [mergeProgress]; [merged.modules] is [{ ...baseline.modules }], a new
    object with the own properties of the baseline. *)
Definition mergeProgress (manifest : list ModuleManifestEntry)
    (saved : option SavedState) : Completion Modules :=
  let baseline := buildDefaultProgress manifest in
  match saved with
  | None => Return baseline
  | Some saved =>
      fold_left
        (fun merged entry =>
           merged <- merged;; mergeEntry baseline saved merged entry)
        manifest (Return {| own := own baseline; proto := None |})
  end.

(** The module [mergeProgress] makes of a saved module. *)
Definition merged_module (savedModule : SavedModule) : ModuleProgress :=
  {| status := match saved_status savedModule with
               | Some locked | None => available
               | Some other => other
               end;
     attempts := default {| validate := 0; simulate := 0 |} (saved_attempts savedModule);
     teachBack := default "" (saved_teachBack savedModule) |}.

(** The module [mergeProgress] has for an id of the manifest. *)
Definition merged_for (saved : option SavedState) (id : string) : ModuleProgress :=
  from_option merged_module defaultModuleProgress
    (saved ≫= fun saved => saved_get saved id).

Section Updates.

Variable manifest : list ModuleManifestEntry.

(** [updateModule]: the state update it hands to [setProgress]. A state
    that is returned as it is keeps its prototype; a new [modules] object
    has [Object.prototype]. *)
Definition updateModule (moduleId : string)
    (updater : Value -> Completion Value) (current : Modules)
    : Completion Modules :=
  match get current moduleId with
  | None => Return current
  | Some existing =>
      if negb (truthy existing) then Return current
      else
        updated <- updater existing;;
        Return {| own := <[moduleId := updated]> (own current); proto := None |}
  end.

Definition unlockModule (moduleId : string) : Modules -> Completion Modules :=
  updateModule moduleId (fun current =>
    if bool_decide (status_of current <> Some locked) then Return current
    else Return (Obj (with_status available (spread current)))).

(** [markCompleted]: the two queued updates run in order. *)
Definition markCompleted (moduleId : string) (current : Modules)
    : Completion Modules :=
  current <- updateModule moduleId (fun current =>
               Return (Obj (with_status completed (spread current)))) current;;
  match indexOf (moduleOrder manifest) moduleId with
  | Some index =>
      if bool_decide (index < length (moduleOrder manifest) - 1)%nat then
        match moduleOrder manifest !! (index + 1)%nat with
        | Some next => unlockModule next current
        | None => Return current
        end
      else Return current
  | None => Return current
  end.

Definition markValidateAttempt (moduleId : string) : Modules -> Completion Modules :=
  updateModule moduleId (fun current =>
    match attempts_of current with
    | None => Throw "TypeError: cannot read properties of undefined"
    | Some attempts =>
        Return (Obj (with_attempts
                       {| validate := succ (validate attempts);
                          simulate := simulate attempts |}
                       (spread current)))
    end).

Definition markSimulateAttempt (moduleId : string) : Modules -> Completion Modules :=
  updateModule moduleId (fun current =>
    match attempts_of current with
    | None => Throw "TypeError: cannot read properties of undefined"
    | Some attempts =>
        Return (Obj (with_attempts
                       {| validate := validate attempts;
                          simulate := succ (simulate attempts) |}
                       (spread current)))
    end).

Definition updateTeachBack (moduleId text : string) : Modules -> Completion Modules :=
  updateModule moduleId (fun current =>
    Return (Obj (with_teachBack text (spread current)))).

End Updates.

(** What [unlockModule] makes of a module object. *)
Definition unlocked (entry : Entry) : Entry :=
  match entry_status entry with
  | Some locked => with_status available entry
  | _ => entry
  end.

(** A state as [ProgressState] types it: module objects as own
    properties, under [Object.prototype]. *)
Definition typed (modules : gmap string ModuleProgress) : Modules :=
  {| own := (fun module => Obj (of_module module)) <$> modules; proto := None |}.

(** What [JSON.parse] gives back for the [JSON.stringify] of such a state. *)
Definition saved_of (modules : gmap string ModuleProgress) : SavedState :=
  {| saved_modules :=
       Some ((fun module =>
                {| saved_status := Some (status module);
                   saved_attempts := Some (attempts module);
                   saved_teachBack := Some (teachBack module) |})
               <$> modules) |}.

(** The states [ProgressProvider] goes through: the default progress, what
    the load effect merges, and then the updates it exports, as long as
    none throws. *)
Inductive provider_state (manifest : list ModuleManifestEntry) : Modules -> Prop :=
| provider_initial :
    provider_state manifest (buildDefaultProgress manifest)
| provider_loaded saved loaded :
    mergeProgress manifest saved = Return loaded ->
    provider_state manifest loaded
| provider_markValidateAttempt moduleId current next :
    provider_state manifest current ->
    markValidateAttempt moduleId current = Return next ->
    provider_state manifest next
| provider_markSimulateAttempt moduleId current next :
    provider_state manifest current ->
    markSimulateAttempt moduleId current = Return next ->
    provider_state manifest next
| provider_updateTeachBack moduleId text current next :
    provider_state manifest current ->
    updateTeachBack moduleId text current = Return next ->
    provider_state manifest next
| provider_markCompleted moduleId current next :
    provider_state manifest current ->
    markCompleted manifest moduleId current = Return next ->
    provider_state manifest next
| provider_unlockModule moduleId current next :
    provider_state manifest current ->
    unlockModule moduleId current = Return next ->
    provider_state manifest next.

(** The module objects of a state, by module id. *)
Definition module_of (value : Value) : option ModuleProgress :=
  match value with
  | Obj {| entry_status := Some status;
           entry_attempts := Some attempts;
           entry_teachBack := Some teachBack;
           entry_spread := NoSpread |} =>
      Some {| status := status; attempts := attempts; teachBack := teachBack |}
  | _ => None
  end.

Definition modules_of (current : Modules) : gmap string ModuleProgress :=
  omap module_of (own current).

(** The states [ProgressProvider] goes through while its updates are
    called for modules of the manifest. *)
Inductive manifest_state (manifest : list ModuleManifestEntry) : Modules -> Prop :=
| manifest_initial :
    manifest_state manifest (buildDefaultProgress manifest)
| manifest_loaded saved loaded :
    mergeProgress manifest saved = Return loaded ->
    manifest_state manifest loaded
| manifest_markValidateAttempt moduleId current next :
    manifest_state manifest current ->
    moduleId ∈ moduleOrder manifest ->
    markValidateAttempt moduleId current = Return next ->
    manifest_state manifest next
| manifest_markSimulateAttempt moduleId current next :
    manifest_state manifest current ->
    moduleId ∈ moduleOrder manifest ->
    markSimulateAttempt moduleId current = Return next ->
    manifest_state manifest next
| manifest_updateTeachBack moduleId text current next :
    manifest_state manifest current ->
    moduleId ∈ moduleOrder manifest ->
    updateTeachBack moduleId text current = Return next ->
    manifest_state manifest next
| manifest_markCompleted moduleId current next :
    manifest_state manifest current ->
    moduleId ∈ moduleOrder manifest ->
    markCompleted manifest moduleId current = Return next ->
    manifest_state manifest next
| manifest_unlockModule moduleId current next :
    manifest_state manifest current ->
    moduleId ∈ moduleOrder manifest ->
    unlockModule moduleId current = Return next ->
    manifest_state manifest next.

(** *** Sample data *)

(** A manifest with a module under the id ["__proto__"]. *)
Definition sample_proto_manifest : list ModuleManifestEntry :=
  [ mkModuleManifestEntry "M01" "M01: Your First Workflow" "1";
    mkModuleManifestEntry "__proto__" "Prototypes" "1" ].

(** A saved state with progress for both modules of that manifest. *)
Definition sample_proto_saved : SavedState :=
  {| saved_modules :=
       Some (<["M01" := mkSavedModule (Some completed) (Some (mkAttempts 1 1)) (Some "notes")]>
            (<["__proto__" := mkSavedModule (Some completed) (Some (mkAttempts 4 2)) (Some "text")]>
             ∅)) |}.

(** A state in which the first module of [sample_manifest] has no entry
    and the others are still locked. *)
Definition sample_locked : Modules :=
  typed (<["M02" := mkModuleProgress locked (mkAttempts 0 0) ""]>
        (<["M06" := mkModuleProgress locked (mkAttempts 0 0) ""]> ∅)).

(** A state in which the first module is open and the others are locked. *)
Definition sample_started : Modules :=
  typed (<["M01" := mkModuleProgress available (mkAttempts 2 1) "notes"]>
        (<["M02" := mkModuleProgress locked (mkAttempts 0 0) ""]>
        (<["M06" := mkModuleProgress locked (mkAttempts 0 0) ""]> ∅))).

(** A module whose validate counter has reached 2^53. *)
Definition sample_worn : Modules :=
  typed (<["M01" := mkModuleProgress available (mkAttempts (2 ^ 53) 3) "notes"]> ∅).

Definition sample_modules : gmap string ModuleProgress :=
  <["M01" := mkModuleProgress available (mkAttempts 2 1) "notes"]>
  (<["M02" := mkModuleProgress completed (mkAttempts 0 0) ""]>
  (<["M06" := mkModuleProgress available (mkAttempts 0 0) ""]> ∅)).

End Plain.

(** *** The typed state as a plain object

    The state of the embedding above, read as the plain object it stands
    for; [typed_embedding_agrees] has what the two embeddings share. *)

Definition plain_attempts (counters : Attempts) : Plain.Attempts :=
  {| Plain.validate := N.of_nat (validate counters);
     Plain.simulate := N.of_nat (simulate counters) |}.

Definition plain_module (module : ModuleProgress) : Plain.ModuleProgress :=
  {| Plain.status := status module;
     Plain.attempts := plain_attempts (attempts module);
     Plain.teachBack := teachBack module |}.

Definition plain_state (progress : ProgressState) : Plain.Modules :=
  Plain.typed (plain_module <$> modules progress).

Definition plain_saved_module (savedModule : SavedModule) : Plain.SavedModule :=
  {| Plain.saved_status := saved_status savedModule;
     Plain.saved_attempts := plain_attempts <$> saved_attempts savedModule;
     Plain.saved_teachBack := saved_teachBack savedModule |}.

Definition plain_saved (saved : SavedState) : Plain.SavedState :=
  {| Plain.saved_modules :=
       (fun savedModules : gmap string SavedModule =>
          plain_saved_module <$> savedModules) <$> saved_modules saved |}.

(** Module ids that are no names of [Object.prototype]. *)
Definition ordinary (ids : list string) : Prop :=
  forall id, id ∈ ids -> id ∉ object_prototype_names.

(** The counters of a module are below 2^53. *)
Definition countable (module : ModuleProgress) : Prop :=
  (N.of_nat (validate (attempts module)) < 2 ^ 53)%N
  /\ (N.of_nat (simulate (attempts module)) < 2 ^ 53)%N.

(** ** ModuleShell.tsx over a store of objects

    The builders of [ModuleShell.tsx] once more, this time with the
    objects they read and create kept in a store, so that what they write
    and what they share with their argument can be stated. An array that is
    consumed on the spot ([xs.map(f).join(..)], [[...xs.map(f)]],
    [xs.slice(..)]) is computed as a list; an array or object that is
    stored, returned or passed on is allocated. *)

Module Store.

Definition loc := positive.

(** A value: a primitive, or a reference to an object of the store. *)
Inductive val : Type :=
| VUndefined
| VNull
| VBool (b : bool)
| VNum (n : Z)
| VStr (s : string)
| VRef (l : loc).

Global Instance val_eq_dec : EqDecision val.
Proof. solve_decision. Defined.

(** An object of the store: a plain object with its own properties, or an
    array. *)
Inductive object : Type :=
| Obj (props : gmap string val)
| Arr (items : list val).

Abbreviation heap := (gmap loc object).

(** Code that reads and writes the store and may throw. *)
Definition M (A : Type) : Type := heap -> Completion A * heap.

Definition ret {A} (a : A) : M A := fun h => (Return a, h).

Definition throw {A} (error : string) : M A := fun h => (Throw error, h).

Definition bind {A B} (m : M A) (k : A -> M B) : M B :=
  fun h =>
    match m h with
    | (Return a, h') => k a h'
    | (Throw error, h') => (Throw error, h')
    end.

Notation "'let*' x ':=' m 'in' k" := (bind m (fun x => k))
  (at level 10, x name, m at level 100, k at level 200, only parsing).

Notation "m ';;;' k" := (bind m (fun _ => k))
  (at level 100, k at level 200, right associativity, only parsing).

(** [xs.map(f)] / [xs.forEach(f)] over the elements, left to right. *)
Fixpoint mapM {A B} (f : A -> M B) (xs : list A) : M (list B) :=
  match xs with
  | [] => ret []
  | x :: rest =>
      let* y := f x in
      let* ys := mapM f rest in
      ret (y :: ys)
  end.

Fixpoint forEach {A} (f : A -> M unit) (xs : list A) : M unit :=
  match xs with
  | [] => ret tt
  | x :: rest => f x ;;; forEach f rest
  end.

(** [xs.find(p)] *)
Fixpoint findM (p : val -> M bool) (xs : list val) : M val :=
  match xs with
  | [] => ret VUndefined
  | x :: rest =>
      let* found := p x in
      if found then ret x else findM p rest
  end.

Definition read_heap : M heap := fun h => (Return h, h).

(** A new object, at an address the store does not use yet. *)
Definition alloc (o : object) : M val :=
  fun h => let l := fresh (dom h) in (Return (VRef l), <[l := o]> h).

Definition is_nullish (v : val) : bool :=
  match v with
  | VUndefined | VNull => true
  | _ => false
  end.

(** [ToBoolean] *)
Definition truthy (v : val) : bool :=
  match v with
  | VUndefined | VNull => false
  | VBool b => b
  | VNum n => negb (bool_decide (n = 0%Z))
  | VStr s => negb (bool_decide (s = ""))
  | VRef _ => true
  end.

(** [a ?? b] *)
Definition nullish (a b : val) : val := if is_nullish a then b else a.

(** [a === s] for a string literal [s]. *)
Definition strict_eq_str (a : val) (s : string) : bool :=
  match a with
  | VStr t => bool_decide (t = s)
  | _ => false
  end.

Definition chars (s : string) : list val :=
  (fun c => VStr (String c EmptyString)) <$> String.list_ascii_of_string s.

(** The own properties of an array or of a string, keyed by index. *)
Definition indexed (items : list val) : gmap string val :=
  list_to_map (imap (fun i x => (pretty i, x)) items).

(** [v.key] / [v[key]]. Reading a property of [undefined] or [null]
    throws a TypeError. Of the properties that come from a prototype only
    [length] is among the keys the components read. A reference always
    points into the store; the last case is there for totality. *)
Definition get (v : val) (key : string) : M val :=
  fun h =>
    match v with
    | VUndefined | VNull =>
        (Throw "TypeError: cannot read properties of undefined or null", h)
    | VRef l =>
        match h !! l with
        | Some (Obj props) => (Return (default VUndefined (props !! key)), h)
        | Some (Arr items) =>
            (Return (if bool_decide (key = "length") then VNum (Z.of_nat (length items))
                     else default VUndefined (indexed items !! key)), h)
        | None => (Throw "dangling reference", h)
        end
    | VStr s =>
        (Return (if bool_decide (key = "length") then VNum (Z.of_nat (String.length s))
                 else default VUndefined (indexed (chars s) !! key)), h)
    | _ => (Return VUndefined, h)
    end.

(** [v[index]] for a number [index]. *)
Definition get_index (v : val) (index : nat) : M val := get v (pretty index).

(** [key in v]; on a primitive the operator throws a TypeError. *)
Definition has_prop (key : string) (v : val) : M bool :=
  fun h =>
    match v with
    | VRef l =>
        match h !! l with
        | Some (Obj props) => (Return (bool_decide (is_Some (props !! key))), h)
        | Some (Arr items) =>
            (Return (bool_decide (key = "length")
                     || bool_decide (is_Some (indexed items !! key))), h)
        | None => (Throw "dangling reference", h)
        end
    | _ => (Throw "TypeError: cannot use 'in' operator on a primitive", h)
    end.

(** The elements of an array, for the array methods and for spreading it
    into an array; on anything else the method call throws. *)
Definition items_of (v : val) : M (list val) :=
  fun h =>
    match v with
    | VRef l =>
        match h !! l with
        | Some (Arr items) => (Return items, h)
        | Some (Obj _) => (Throw "TypeError: not a function", h)
        | None => (Throw "dangling reference", h)
        end
    | VUndefined | VNull =>
        (Throw "TypeError: cannot read properties of undefined or null", h)
    | _ => (Throw "TypeError: not a function", h)
    end.

(** [{ ...v }]: the own properties of [v]; none for [undefined], [null],
    numbers and booleans. *)
Definition own_props (v : val) : M (gmap string val) :=
  fun h =>
    match v with
    | VRef l =>
        match h !! l with
        | Some (Obj props) => (Return props, h)
        | Some (Arr items) => (Return (indexed items), h)
        | None => (Throw "dangling reference", h)
        end
    | VStr s => (Return (indexed (chars s)), h)
    | _ => (Return ∅, h)
    end.

(** [v[key] = x] in strict mode. The components only assign to plain
    objects; an assignment of a named property to an array is not
    modelled. *)
Definition set_prop (v : val) (key : string) (x : val) : M unit :=
  fun h =>
    match v with
    | VRef l =>
        match h !! l with
        | Some (Obj props) => (Return tt, <[l := Obj (<[key := x]> props)]> h)
        | Some (Arr _) => (Throw "unsupported: named property of an array", h)
        | None => (Throw "dangling reference", h)
        end
    | _ => (Throw "TypeError: cannot set properties of a primitive", h)
    end.

(** [Array.from(new Set(xs))]: the distinct values in order of first
    occurrence. *)
Definition set_insert (acc : list val) (x : val) : list val :=
  if bool_decide (x ∈ acc) then acc else acc ++ [x].

Definition array_from_set (xs : list val) : list val :=
  fold_left set_insert xs [].

Definition is_blank (s : string) : bool :=
  bool_decide (String.length (JsString.trim s) = 0%nat).

Section Builders.

(** [ToString] reads the store (an array prints its elements) and writes
    nothing; its result does not matter here. *)
Variable to_string : heap -> val -> string.

(** [getNodeDisplayName] and [getGhlTerm(..)?.ghlWhere] of
    [@/lib/ghlTerms], which is not part of the sources at hand. *)
Variable getNodeDisplayName : val -> string.
Variable getGhlWhere : val -> val.

Definition join_element (h : heap) (v : val) : string :=
  if is_nullish v then "" else to_string h v.

(** [v.join(sep)] *)
Definition join (v : val) (sep : string) : M string :=
  let* xs := items_of v in
  let* h := read_heap in
  ret (JsString.join sep (join_element h <$> xs)).

(** The elements of [v.map(getNodeDisplayName)]. *)
Definition names_of (v : val) : M (list val) :=
  let* xs := items_of v in
  ret ((fun x => VStr (getNodeDisplayName x)) <$> xs).

(** [v.map(getNodeDisplayName).join(sep)] *)
Definition join_names (v : val) (sep : string) : M string :=
  let* names := names_of v in
  let* h := read_heap in
  ret (JsString.join sep (join_element h <$> names)).

Definition string_of (v : val) : M string :=
  let* h := read_heap in ret (to_string h v).

Definition formatRequirementSummary (requirement : val) : M string :=
  let* type := get requirement "type" in
  if strict_eq_str type "triggerIs" then
    let* value := get requirement "value" in
    ret ("Trigger is " +:+ getNodeDisplayName value)
  else if strict_eq_str type "triggerConfigEquals" then
    let* field := get requirement "field" in
    let* field := string_of field in
    let* value := get requirement "value" in
    let* value := string_of value in
    ret ("Trigger field " +:+ field +:+ " equals " +:+ value)
  else if strict_eq_str type "mustHaveNode" then
    let* value := get requirement "value" in
    ret ("Includes " +:+ getNodeDisplayName value)
  else if strict_eq_str type "forbidNodeType" then
    let* value := get requirement "value" in
    ret ("Does not include " +:+ getNodeDisplayName value)
  else if strict_eq_str type "nodeConfigRequired" then
    let* nodeType := get requirement "nodeType" in
    let* fields := get requirement "fields" in
    let* joined := join fields ", " in
    ret (getNodeDisplayName nodeType +:+ " has " +:+ joined)
  else if strict_eq_str type "nodeOrder" then
    let* sequence := get requirement "sequence" in
    let* joined := join_names sequence " -> " in
    ret ("Order: " +:+ joined)
  else if strict_eq_str type "mustContainIfElse" then
    let* minCount := get requirement "minCount" in
    let* minCount := string_of (nullish minCount (VNum 1)) in
    ret ("Has at least " +:+ minCount +:+ " If/Else step")
  else if strict_eq_str type "branchCountAtLeast" then
    let* count := get requirement "count" in
    let* count := string_of count in
    ret ("If/Else has at least " +:+ count +:+ " paths")
  else if strict_eq_str type "pathMustInclude" then
    let* nodeTypes := get requirement "nodeTypes" in
    let* joined := join_names nodeTypes ", " in
    ret ("Includes " +:+ joined)
  else if strict_eq_str type "requireStopPath" then
    ret "Each path ends when there are no more steps"
  else
    ret "Requirement".

(** [[...allowedNodes.triggers.map(getNodeDisplayName),
      ...allowedNodes.actions.map(getNodeDisplayName),
      ...allowedNodes.logic.map(getNodeDisplayName)]], read off
    [scenario.allowedNodes] each time. *)
Definition allowedSteps_of (scenario : val) : M val :=
  let* allowedNodes := get scenario "allowedNodes" in
  let* triggers := get allowedNodes "triggers" in
  let* triggers := names_of triggers in
  let* allowedNodes := get scenario "allowedNodes" in
  let* actions := get allowedNodes "actions" in
  let* actions := names_of actions in
  let* allowedNodes := get scenario "allowedNodes" in
  let* logic := get allowedNodes "logic" in
  let* logic := names_of logic in
  alloc (Arr (triggers ++ actions ++ logic)).

(** [scenario.requirements.map(formatRequirementSummary)] *)
Definition requirement_summaries_of (scenario : val) : M val :=
  let* requirements := get scenario "requirements" in
  let* requirements := items_of requirements in
  let* summaries := mapM formatRequirementSummary requirements in
  alloc (Arr (VStr <$> summaries)).

Definition object_of (props : list (string * val)) : object :=
  Obj (list_to_map props).

Definition buildScenarioSummary (scenario : val) : M val :=
  if negb (truthy scenario) then ret VNull
  else
    let* isBundle := has_prop "workflows" scenario in
    if isBundle then
      let* moduleId := get scenario "moduleId" in
      let* title := get scenario "title" in
      let* workflows := get scenario "workflows" in
      let* workflows := items_of workflows in
      let* workflows :=
        mapM (fun workflow =>
          let* workflowId := get workflow "workflowId" in
          let* inner := get workflow "scenario" in
          let* title := get inner "title" in
          let* inner := get workflow "scenario" in
          let* objectives := get inner "objectives" in
          let* inner := get workflow "scenario" in
          let* allowedSteps := allowedSteps_of inner in
          let* inner := get workflow "scenario" in
          let* requirements := requirement_summaries_of inner in
          alloc (object_of
            [ ("workflowId", workflowId); ("title", title);
              ("objectives", objectives); ("allowedSteps", allowedSteps);
              ("requirements", requirements) ])) workflows in
      let* workflows := alloc (Arr workflows) in
      alloc (object_of
        [ ("moduleId", moduleId); ("title", title); ("workflows", workflows) ])
    else
      let* moduleId := get scenario "moduleId" in
      let* title := get scenario "title" in
      let* objectives := get scenario "objectives" in
      let* allowedSteps := allowedSteps_of scenario in
      let* requirements := requirement_summaries_of scenario in
      alloc (object_of
        [ ("moduleId", moduleId); ("title", title);
          ("objectives", objectives); ("allowedSteps", allowedSteps);
          ("requirements", requirements) ]).

(** [o?.key] *)
Definition get_optional (o : val) (key : string) : M val :=
  if is_nullish o then ret VUndefined else get o key.

(** [collectHint], writing to the [hints] object of the enclosing call. *)
Definition collectHint (hints : val) (nodeType fieldKey label : string)
    (values : val) (note : val) : M unit :=
  let* values := items_of values in
  let* h := read_heap in
  let cleaned :=
    List.filter (fun s => negb (is_blank s))
      (to_string h <$> List.filter (fun v => negb (is_nullish v)) values) in
  match cleaned with
  | [] => ret tt
  | _ =>
      let* byField := get hints nodeType in
      let* existing := get_optional byField fieldKey in
      let* existingValues := get_optional existing "values" in
      let* existingValues :=
        (if is_nullish existingValues then ret [] else items_of existingValues) in
      let merged := array_from_set (existingValues ++ (VStr <$> cleaned)) in
      let* byField := get hints nodeType in
      let* spread := own_props byField in
      let* values := alloc (Arr merged) in
      let* existingNote := get_optional existing "note" in
      let* hint :=
        alloc (object_of
          [ ("label", VStr label); ("values", values);
            ("note", nullish existingNote note) ]) in
      let* byField := alloc (Obj (<[fieldKey := hint]> spread)) in
      set_prop hints nodeType byField
  end.

(** [xs?.length] as a condition. *)
Definition has_length (xs : val) : M bool :=
  let* length := get_optional xs "length" in
  ret (truthy length).

(** [if (xs?.length) { body }] *)
Definition when_has_length (xs : val) (body : M unit) : M unit :=
  let* nonEmpty := has_length xs in
  if nonEmpty then body else ret tt.

(** [xs.map((item) => item.key)], passed on as an array. *)
Definition pluck (xs : val) (key : string) : M val :=
  let* xs := items_of xs in
  let* plucked := mapM (fun item => get item key) xs in
  alloc (Arr plucked).

Definition collectContains (hints : val) (nodeType fieldKey label key : string)
    (assertions : val) : M unit :=
  let* assertions := items_of assertions in
  forEach (fun assertion =>
    let* contains := get assertion key in
    collectHint hints nodeType fieldKey label contains VUndefined) assertions.

Definition collectMessage (hints message : val) : M unit :=
  let* channel := get message "channel" in
  (if strict_eq_str channel "sms" then
     let* contains := get message "contains" in
     collectHint hints "sms.send" "body" "Expected text to include" contains
       (VStr "Use these words somewhere in the SMS.")
   else ret tt) ;;;
  let* channel := get message "channel" in
  if strict_eq_str channel "email" then
    let* contains := get message "contains" in
    collectHint hints "email.send" "body" "Expected text to include" contains
      (VStr "Use these words somewhere in the email.") ;;;
    let* contains := get message "contains" in
    collectHint hints "email.send" "subject" "Suggested keyword" contains
      (VStr "Short is ok. Use a key word from the body.")
  else ret tt.

Definition collectTestCase (hints testCase : val) : M unit :=
  let* expect := get testCase "expect" in
  let* messages := get expect "messages" in
  (if is_nullish messages then ret tt
   else let* messages := items_of messages in forEach (collectMessage hints) messages) ;;;
  let* tagsAdded := get expect "tagsAdded" in
  when_has_length tagsAdded
    (let* tagsAdded := get expect "tagsAdded" in
     collectHint hints "tag.add" "tag" "Expected tag" tagsAdded VUndefined) ;;;
  let* tagsRemoved := get expect "tagsRemoved" in
  when_has_length tagsRemoved
    (let* tagsRemoved := get expect "tagsRemoved" in
     collectHint hints "tag.remove" "tag" "Expected tag to remove" tagsRemoved VUndefined) ;;;
  let* fieldsEqual := get expect "fieldsEqual" in
  when_has_length fieldsEqual
    (let* fieldsEqual := get expect "fieldsEqual" in
     let* keys := pluck fieldsEqual "fieldKey" in
     collectHint hints "field.update" "fieldKey" "Expected field name" keys VUndefined ;;;
     let* fieldsEqual := get expect "fieldsEqual" in
     let* values := pluck fieldsEqual "value" in
     collectHint hints "field.update" "value" "Expected value" values VUndefined) ;;;
  let* tasksCreated := get expect "tasksCreated" in
  when_has_length tasksCreated
    (let* tasksCreated := get expect "tasksCreated" in
     collectContains hints "task.create" "title" "Expected words" "contains" tasksCreated) ;;;
  let* systemTasksCreated := get expect "systemTasksCreated" in
  when_has_length systemTasksCreated
    (let* systemTasksCreated := get expect "systemTasksCreated" in
     collectContains hints "task.create" "title" "Expected words" "contains"
       systemTasksCreated) ;;;
  let* notifications := get expect "notifications" in
  when_has_length notifications
    (let* notifications := get expect "notifications" in
     collectContains hints "user.notify" "message" "Expected words" "contains"
       notifications) ;;;
  let* systemNotifications := get expect "systemNotifications" in
  when_has_length systemNotifications
    (let* systemNotifications := get expect "systemNotifications" in
     collectContains hints "user.notify" "message" "Expected words" "contains"
       systemNotifications) ;;;
  let* webhooksFired := get expect "webhooksFired" in
  when_has_length webhooksFired
    (let* webhooksFired := get expect "webhooksFired" in
     collectContains hints "webhook.send" "url" "Expected URL contains" "urlContains"
       webhooksFired).

Definition buildExpectedFieldHints (scenario : val) : M val :=
  if negb (truthy scenario) then alloc (Obj ∅)
  else
    let* isBundle := has_prop "workflows" scenario in
    if isBundle then alloc (Obj ∅)
    else
      let* hints := alloc (Obj ∅) in
      let* testCases := get scenario "testCases" in
      let* testCases := items_of testCases in
      forEach (collectTestCase hints) testCases ;;;
      ret hints.

Definition card (title : string) (text : val) : M val :=
  alloc (object_of [ ("title", VStr title); ("text", text) ]).

Definition buildMicroLessonCards (scenario : val) : M val :=
  if negb (truthy scenario) then alloc (Arr [])
  else
    let* isBundle := has_prop "workflows" scenario in
    if isBundle then
      let* workflows := get scenario "workflows" in
      let* workflows := items_of workflows in
      let* titles :=
        mapM (fun workflow =>
          let* inner := get workflow "scenario" in
          get inner "title") workflows in
      let* h := read_heap in
      let preview := JsString.join " / " (join_element h <$> take 2 titles) in
      let extra :=
        if bool_decide (2 < length titles)%nat
        then " +" +:+ pretty (Z.of_nat (length titles) - 2)%Z +:+ " more"
        else "" in
      let* goal :=
        card "Goal"
          (VStr ("Build " +:+ pretty (Z.of_nat (length titles)) +:+ " workflows: "
                   +:+ preview +:+ extra +:+ ".")) in
      let* steps :=
        card "Key steps" (VStr "Use the checklist in Check my work for each workflow.") in
      let* where_ := card "Where in HighLevel" (VStr "HighLevel: Workflows -> Builder") in
      alloc (Arr [goal; steps; where_])
    else
      let* objectives := get scenario "objectives" in
      let* first := (if is_nullish objectives then ret VUndefined
                     else get_index objectives 0) in
      let objective := nullish first (VStr "Build the workflow for this lesson.") in
      let* requirements := get scenario "requirements" in
      let* requirements := items_of requirements in
      let* summaries := mapM formatRequirementSummary (take 2 requirements) in
      let requirements_text := JsString.join " / " summaries in
      let* allowedNodes := get scenario "allowedNodes" in
      let* triggers := get allowedNodes "triggers" in
      let* triggers := items_of triggers in
      let* allowedNodes := get scenario "allowedNodes" in
      let* actions := get allowedNodes "actions" in
      let* actions := items_of actions in
      let* allowedNodes := get scenario "allowedNodes" in
      let* logic := get allowedNodes "logic" in
      let* logic := items_of logic in
      let allowedSteps :=
        JsString.join ", "
          (take 3 (getNodeDisplayName <$> (triggers ++ actions ++ logic))) in
      let* requirements := get scenario "requirements" in
      let* requirements := items_of requirements in
      let* triggerRequirement :=
        findM (fun requirement =>
          let* type := get requirement "type" in
          ret (strict_eq_str type "triggerIs")) requirements in
      let* hasValue :=
        (if truthy triggerRequirement then has_prop "value" triggerRequirement
         else ret false) in
      let* triggerType :=
        (if hasValue then get triggerRequirement "value"
         else
           let* allowedNodes := get scenario "allowedNodes" in
           let* triggers := get allowedNodes "triggers" in
           get_index triggers 0) in
      let ghlWhere := if truthy triggerType then getGhlWhere triggerType else VNull in
      let* goal := card "Goal" objective in
      let* steps :=
        card "Key steps"
          (VStr (if negb (bool_decide (requirements_text = "")) then requirements_text
                 else if negb (bool_decide (allowedSteps = "")) then allowedSteps
                 else "Follow the checklist in Check my work.")) in
      let* where_ :=
        card "Where in HighLevel"
          (nullish ghlWhere (VStr "HighLevel: Workflows -> Builder")) in
      alloc (Arr [goal; steps; where_]).

End Builders.

(** *** Well-formed scenarios in the store *)

Definition prop (props : gmap string val) (key : string) : val :=
  default VUndefined (props !! key).

(** [v] is an array of the store whose elements satisfy [P]. *)
Definition array_at (h : heap) (P : val -> Prop) (v : val) : Prop :=
  exists l items, v = VRef l /\ h !! l = Some (Arr items) /\ Forall P items.

(** [v] is a plain object of the store whose properties satisfy [P]. *)
Definition object_at (h : heap) (P : gmap string val -> Prop) (v : val) : Prop :=
  exists l props, v = VRef l /\ h !! l = Some (Obj props) /\ P props.

(** An optional property: missing, [undefined], [null], or as [P] says. *)
Definition optional (P : val -> Prop) (v : val) : Prop :=
  is_nullish v = true \/ P v.

Definition any_array (h : heap) : val -> Prop := array_at h (fun _ => True).

(** A requirement object, with the array its kind carries. *)
Definition requirement_at (h : heap) : val -> Prop :=
  object_at h (fun props =>
    (prop props "type" = VStr "nodeConfigRequired" -> any_array h (prop props "fields"))
    /\ (prop props "type" = VStr "nodeOrder" -> any_array h (prop props "sequence"))
    /\ (prop props "type" = VStr "pathMustInclude" -> any_array h (prop props "nodeTypes"))).

Definition allowedNodes_at (h : heap) : val -> Prop :=
  object_at h (fun props =>
    any_array h (prop props "triggers")
    /\ any_array h (prop props "actions")
    /\ any_array h (prop props "logic")).

(** An object whose property [key] is an array ([{ channel, contains }],
    [{ contains }], [{ urlContains }]). *)
Definition carrier_at (h : heap) (key : string) : val -> Prop :=
  object_at h (fun props => any_array h (prop props key)).

Definition expect_at (h : heap) : val -> Prop :=
  object_at h (fun props =>
    optional (array_at h (carrier_at h "contains")) (prop props "messages")
    /\ optional (any_array h) (prop props "tagsAdded")
    /\ optional (any_array h) (prop props "tagsRemoved")
    /\ optional (array_at h (object_at h (fun _ => True))) (prop props "fieldsEqual")
    /\ optional (array_at h (carrier_at h "contains")) (prop props "tasksCreated")
    /\ optional (array_at h (carrier_at h "contains")) (prop props "systemTasksCreated")
    /\ optional (array_at h (carrier_at h "contains")) (prop props "notifications")
    /\ optional (array_at h (carrier_at h "contains")) (prop props "systemNotifications")
    /\ optional (array_at h (carrier_at h "urlContains")) (prop props "webhooksFired")).

Definition testCase_at (h : heap) : val -> Prop :=
  object_at h (fun props => expect_at h (prop props "expect")).

(** A single-workflow scenario: no [workflows] property. *)
Definition single_at (h : heap) : val -> Prop :=
  object_at h (fun props =>
    props !! "workflows" = None
    /\ optional (any_array h) (prop props "objectives")
    /\ allowedNodes_at h (prop props "allowedNodes")
    /\ array_at h (requirement_at h) (prop props "requirements")
    /\ array_at h (testCase_at h) (prop props "testCases")).

(** A bundle: its [workflows] are objects with a single-workflow
    [scenario]. *)
Definition bundle_at (h : heap) : val -> Prop :=
  object_at h (fun props =>
    is_Some (props !! "workflows")
    /\ array_at h
         (object_at h (fun workflow => single_at h (prop workflow "scenario")))
         (prop props "workflows")).

(** A [ScenarioDefinition] in the store. *)
Definition scenario_at (h : heap) (v : val) : Prop :=
  single_at h v \/ bundle_at h v.

(** *** A weakest-precondition calculus for [M] *)

(** [m] run in [h] returns, and its result and final store satisfy [Q]. *)
Definition wp {A} (m : M A) (h : heap) (Q : A -> heap -> Prop) : Prop :=
  match m h with
  | (Return a, h') => Q a h'
  | (Throw _, _) => False
  end.

(** *** What the builders leave behind *)

(** The result of a builder: a reference to an object that the store
    [h0] of the call did not have. *)
Definition fresh_in (h0 h : heap) (v : val) : Prop :=
  exists l, v = VRef l /\ h0 !! l = None /\ is_Some (h !! l).

(** The hints under construction: [hints[nodeType][fieldKey]] is a hint
    object with a [values] array, apart from the [hints] object itself. *)
Definition hint_ok (h : heap) (lh : loc) (v : val) : Prop :=
  exists lx px la items,
    v = VRef lx /\ lx <> lh /\ h !! lx = Some (Obj px)
    /\ px !! "values" = Some (VRef la) /\ la <> lh /\ h !! la = Some (Arr items).

Definition byField_ok (h : heap) (lh : loc) (v : val) : Prop :=
  exists li mi,
    v = VRef li /\ li <> lh /\ h !! li = Some (Obj mi)
    /\ forall fk v', mi !! fk = Some v' -> hint_ok h lh v'.

Definition hints_ok (h : heap) (lh : loc) : Prop :=
  exists m, h !! lh = Some (Obj m)
            /\ forall nt v, m !! nt = Some v -> byField_ok h lh v.

(** [h'] keeps every object of [h] other than the one at [lh]. *)
Definition keeps_but (lh : loc) (h h' : heap) : Prop :=
  forall l o, l <> lh -> h !! l = Some o -> h' !! l = Some o.

(** While [buildExpectedFieldHints] runs: the store of the call is still
    there, and the [hints] object, which it did not have, is in shape. *)
Definition building (h0 : heap) (lh : loc) (h : heap) : Prop :=
  h0 ⊆ h /\ h0 !! lh = None /\ hints_ok h lh.

(** [m] keeps every object of [h0], in whatever later store it runs and
    whether it returns or throws. *)
Definition preserves (h0 : heap) {A} (m : M A) : Prop :=
  forall h, h0 ⊆ h -> h0 ⊆ (m h).2.

(** A call [m] made in the store [h0] leaves its arguments alone and
    builds its result: it returns, every object that [h0] had is still
    there and unchanged, and the result is an object that [h0] did not
    have. *)
Definition returns_new_object (h0 : heap) (m : M val) : Prop :=
  exists result h',
    m h0 = (Return result, h')
    /\ (forall l o, h0 !! l = Some o -> h' !! l = Some o)
    /\ fresh_in h0 h' result.

(** *** A sample store *)

(** Lesson M06 laid out in a store. *)
Definition sample_heap : heap :=
  list_to_map
    [ (1%positive, Arr [VStr "trigger.contactCreated"]);
      (2%positive, Arr [VStr "sms.send"; VStr "email.send"]);
      (3%positive, Arr [VStr "logic.ifElse"]);
      (4%positive, object_of [ ("triggers", VRef 1%positive);
                               ("actions", VRef 2%positive);
                               ("logic", VRef 3%positive) ]);
      (5%positive, object_of [ ("type", VStr "triggerIs");
                               ("value", VStr "trigger.contactCreated") ]);
      (6%positive, Arr [VStr "trigger.contactCreated"; VStr "logic.ifElse"]);
      (7%positive, object_of [ ("type", VStr "nodeOrder");
                               ("sequence", VRef 6%positive) ]);
      (8%positive, Arr [VRef 5%positive; VRef 7%positive]);
      (9%positive, Arr [VStr "Welcome"; VStr " "]);
      (10%positive, object_of [ ("channel", VStr "sms");
                                ("contains", VRef 9%positive) ]);
      (11%positive, Arr [VRef 10%positive]);
      (12%positive, Arr [VStr "log:welcome_sent_sms"]);
      (13%positive, object_of [ ("messages", VRef 11%positive);
                                ("tagsAdded", VRef 12%positive) ]);
      (14%positive, object_of [ ("id", VStr "Contact has phone");
                                ("expect", VRef 13%positive) ]);
      (15%positive, Arr [VRef 14%positive; VRef 14%positive]);
      (16%positive, Arr [VStr "Branch on the phone field"]);
      (17%positive, object_of [ ("moduleId", VStr "M06");
                                ("title", VStr "If They Have a Phone");
                                ("objectives", VRef 16%positive);
                                ("allowedNodes", VRef 4%positive);
                                ("requirements", VRef 8%positive);
                                ("testCases", VRef 15%positive) ]) ].

Definition sample_scenario_ref : val := VRef 17%positive.

(** [ToString] on primitives; the sample has no array to print. *)
Definition sample_to_string (h : heap) (v : val) : string :=
  match v with
  | VUndefined => "undefined"
  | VNull => "null"
  | VBool true => "true"
  | VBool false => "false"
  | VNum n => pretty n
  | VStr s => s
  | VRef _ => "[object Object]"
  end.

Definition sample_names (v : val) : string := sample_to_string ∅ v.

Definition sample_where (v : val) : val := VStr "Workflows -> + Add Trigger".

End Store.

(** ** The outcome comparator *)

Module OutcomeComparator.

(** Modelled from the spec: the comparator ([compare]) and the effect
    trace it reads are not part of the sources at hand. An effect record
    is a tagged variant mirroring the expected-outcome kinds and carries
    the values resolved from the executing node's configuration. *)
Inductive EffectRecord : Type :=
| MessageSent (channel body : string)
| TagAdded (tag : string)
| TagRemoved (tag : string)
| FieldSet (fieldKey value : string)
| TaskCreated (title : string)
| NotificationSent (message : string)
| WebhookFired (url : string).

(** Modelled from the spec: one expected assertion, over message sends
    (channel and substring match), tags added or removed, field equality
    updates, tasks created (title substring), notifications (message
    substring) and webhooks fired (URL substring). *)
Inductive Assertion : Type :=
| ExpectMessage (channel : string) (contains : list string)
| ExpectTagAdded (tag : string)
| ExpectTagRemoved (tag : string)
| ExpectFieldEqual (fieldKey value : string)
| ExpectTaskCreated (contains : list string)
| ExpectNotification (contains : list string)
| ExpectWebhookFired (urlContains : list string).

(** Modelled from the spec: the trace of one simulation run is the
    ordered sequence of its effect records, or the empty trace tagged
    "trigger mismatch". *)
Inductive EffectTrace : Type :=
| TriggerMismatch
| Effects (records : list EffectRecord).

Definition records (trace : EffectTrace) : list EffectRecord :=
  match trace with
  | TriggerMismatch => []
  | Effects records => records
  end.

Inductive Kind : Type :=
| KMessage | KTagAdded | KTagRemoved | KField | KTask | KNotification | KWebhook.

Definition record_kind (record : EffectRecord) : Kind :=
  match record with
  | MessageSent _ _ => KMessage
  | TagAdded _ => KTagAdded
  | TagRemoved _ => KTagRemoved
  | FieldSet _ _ => KField
  | TaskCreated _ => KTask
  | NotificationSent _ => KNotification
  | WebhookFired _ => KWebhook
  end.

Definition assertion_kind (assertion : Assertion) : Kind :=
  match assertion with
  | ExpectMessage _ _ => KMessage
  | ExpectTagAdded _ => KTagAdded
  | ExpectTagRemoved _ => KTagRemoved
  | ExpectFieldEqual _ _ => KField
  | ExpectTaskCreated _ => KTask
  | ExpectNotification _ => KNotification
  | ExpectWebhookFired _ => KWebhook
  end.

Fixpoint is_prefix (needle haystack : string) : bool :=
  match needle, haystack with
  | EmptyString, _ => true
  | String a needle', String b haystack' =>
      bool_decide (a = b) && is_prefix needle' haystack'
  | String _ _, EmptyString => false
  end.

(** [haystack] contains [needle] as a substring. *)
Fixpoint is_substring (needle haystack : string) : bool :=
  is_prefix needle haystack
  || match haystack with
     | EmptyString => false
     | String _ haystack' => is_substring needle haystack'
     end.

Definition contains_all (needles : list string) (haystack : string) : bool :=
  forallb (fun needle => is_substring needle haystack) needles.

(** Modelled from the spec: the match rules between an assertion and an
    effect record (substring or equality, by kind). *)
Definition matches (assertion : Assertion) (record : EffectRecord) : bool :=
  match assertion, record with
  | ExpectMessage channel contains, MessageSent channel' body =>
      bool_decide (channel = channel') && contains_all contains body
  | ExpectTagAdded tag, TagAdded tag' => bool_decide (tag = tag')
  | ExpectTagRemoved tag, TagRemoved tag' => bool_decide (tag = tag')
  | ExpectFieldEqual fieldKey value, FieldSet fieldKey' value' =>
      bool_decide (fieldKey = fieldKey') && bool_decide (value = value')
  | ExpectTaskCreated contains, TaskCreated title => contains_all contains title
  | ExpectNotification contains, NotificationSent message => contains_all contains message
  | ExpectWebhookFired urlContains, WebhookFired url => contains_all urlContains url
  | _, _ => false
  end.

Inductive AssertionStatus : Type :=
| Found
| NotFound
| DidNotFire.

Record AssertionResult := mkAssertionResult {
  assertion : Assertion;
  assertion_status : AssertionStatus
}.

Record ComparisonResult := mkComparisonResult {
  results : list AssertionResult;
  passed : bool
}.

Definition is_found (status : AssertionStatus) : bool :=
  match status with
  | Found => true
  | _ => false
  end.

(** Modelled from the spec: whether a matching effect record was found
    in the trace for one assertion; on a trigger mismatch the assertion is
    reported as "test case did not fire". *)
Definition check_assertion (trace : EffectTrace) (assertion : Assertion)
    : AssertionStatus :=
  match trace with
  | TriggerMismatch => DidNotFire
  | Effects records =>
      if existsb (matches assertion) records then Found else NotFound
  end.

(** Modelled from the spec: [compare(trace, expectedOutcomes)] reports
    the status of each expected assertion; the test case passes iff every
    assertion was found. *)
Definition compare (trace : EffectTrace) (expectedOutcomes : list Assertion)
    : ComparisonResult :=
  let results :=
    (fun assertion =>
       {| assertion := assertion;
          assertion_status := check_assertion trace assertion |})
      <$> expectedOutcomes in
  {| results := results;
     passed := forallb (fun result => is_found (assertion_status result)) results |}.

End OutcomeComparator.

(** ** Vocabulary of the statements

    Notions the theorems are stated with; each names something the code
    does or a condition of the specification. *)

(** *** ProgressContext *)

(** [saved.modules?.[id]], for a saved state that may be [undefined]. *)
Definition saved_lookup (saved : option SavedState) (id : string) : option SavedModule :=
  saved ≫= fun s => saved_modules s ≫= fun m : gmap string SavedModule => m !! id.
Arguments saved_lookup : simpl never.

(** The entry [mergeProgress] builds from a saved module. *)
Definition merged_module (savedModule : SavedModule) : ModuleProgress :=
  {| status := match saved_status savedModule with
               | Some locked | None => available
               | Some other => other
               end;
     attempts := default {| validate := 0; simulate := 0 |} (saved_attempts savedModule);
     teachBack := default "" (saved_teachBack savedModule) |}.

(** [indexOf] finds the first position of the element. *)
Definition first_index (moduleOrder : list string) (moduleId : string) (index : nat) : Prop :=
  moduleOrder !! index = Some moduleId
  /\ forall j, (j < index)%nat -> moduleOrder !! j <> Some moduleId.

(** The module [markCompleted] goes on to unlock: the one right after the
    first occurrence of [moduleId] in the manifest order. *)
Definition successor (moduleOrder : list string) (moduleId next : string) : Prop :=
  exists index, first_index moduleOrder moduleId index
                /\ moduleOrder !! S index = Some next.

(** What [unlockModule] makes of an entry. *)
Definition unlocked (entry : ModuleProgress) : ModuleProgress :=
  match status entry with
  | locked => {| status := available;
                 attempts := attempts entry;
                 teachBack := teachBack entry |}
  | _ => entry
  end.

(** *** The states of the provider *)

(** The states [ProgressProvider] goes through: it starts from
    [buildDefaultProgress manifest], loads [mergeProgress manifest saved],
    and then applies the updates it exports. *)
Inductive provider_state (manifest : list ModuleManifestEntry) : ProgressState -> Prop :=
| provider_initial :
    provider_state manifest (buildDefaultProgress manifest)
| provider_loaded saved :
    provider_state manifest (mergeProgress manifest saved)
| provider_markValidateAttempt moduleId current :
    provider_state manifest current ->
    provider_state manifest (markValidateAttempt moduleId current)
| provider_markSimulateAttempt moduleId current :
    provider_state manifest current ->
    provider_state manifest (markSimulateAttempt moduleId current)
| provider_updateTeachBack moduleId text current :
    provider_state manifest current ->
    provider_state manifest (updateTeachBack moduleId text current)
| provider_markCompleted moduleId current :
    provider_state manifest current ->
    provider_state manifest (markCompleted manifest moduleId current)
| provider_unlockModule moduleId current :
    provider_state manifest current ->
    provider_state manifest (unlockModule moduleId current).

(** *** ModuleShell *)

(** The scenario of lesson M06 with its [triggerIs] requirement left out:
    a single-workflow scenario whose checklist only asks for steps. *)
Definition scenario_without_trigger_rule : Scenario :=
  {| moduleId := "M06";
     title := "If They Have a Phone: Text Otherwise Email";
     objectives := Some ["Branch on the phone field"];
     allowedNodes :=
       {| triggers := ["trigger.contactCreated"];
          actions := ["sms.send"; "email.send"];
          logic := ["logic.ifElse"] |};
     requirements :=
       [ [("type", JStr "mustContainIfElse"); ("minCount", JNum 1)];
         [("type", JStr "mustHaveNode"); ("value", JStr "sms.send")];
         [("type", JStr "mustHaveNode"); ("value", JStr "email.send")] ];
     testCases := [] |}.

(** The values recorded for a field of a node type; none when there is no
    hint. *)
Definition hint_values (hints : ExpectedFieldHintsByNode)
    (nodeType : NodeType) (fieldKey : string) : list string :=
  from_option values [] (lookup_hint hints nodeType fieldKey).

(** The hint [collectHint] writes. *)
Definition collected_hint (existing : option ExpectedFieldHint) (label : string)
    (rawValues : list JsValue) (newNote : option string) : ExpectedFieldHint :=
  {| label := label;
     values := array_from_set (from_option values [] existing ++ cleaned rawValues);
     note := match existing ≫= note with
             | Some n => Some n
             | None => newNote
             end |}.

(** One call of [collectHint]. *)
Record HintCall := mkHintCall {
  call_nodeType : NodeType;
  call_fieldKey : string;
  call_label : string;
  call_values : list JsValue;
  call_note : option string
}.

Definition apply_call (hints : ExpectedFieldHintsByNode) (call : HintCall)
    : ExpectedFieldHintsByNode :=
  collectHint hints (call_nodeType call) (call_fieldKey call) (call_label call)
    (call_values call) (call_note call).

(** Every hint has distinct, non-blank values. *)
Definition hints_clean (hints : ExpectedFieldHintsByNode) : Prop :=
  forall nodeType fieldKey hint,
    lookup_hint hints nodeType fieldKey = Some hint ->
    NoDup (values hint) /\ forall v, v ∈ values hint -> is_blank v = false.

(** *** Where each expected outcome goes *)

(** The routing table of the specification: [routed expect nodeType
    fieldKey rawValues] says that the expected outcomes [expect] of a test
    case contribute [rawValues] to the hint of [fieldKey] on [nodeType]. *)
Inductive routed (expect : ExpectedOutcome) : NodeType -> string -> list JsValue -> Prop :=
| routed_sms_body all message :
    messages expect = Some all -> message ∈ all -> channel message = "sms" ->
    routed expect "sms.send" "body" (message_contains message)
| routed_email_body all message :
    messages expect = Some all -> message ∈ all -> channel message = "email" ->
    routed expect "email.send" "body" (message_contains message)
| routed_email_subject all message :
    messages expect = Some all -> message ∈ all -> channel message = "email" ->
    routed expect "email.send" "subject" (message_contains message)
| routed_tagsAdded tags :
    tagsAdded expect = Some tags ->
    routed expect "tag.add" "tag" tags
| routed_tagsRemoved tags :
    tagsRemoved expect = Some tags ->
    routed expect "tag.remove" "tag" tags
| routed_fieldsEqual_key fields :
    fieldsEqual expect = Some fields ->
    routed expect "field.update" "fieldKey" (fieldKey <$> fields)
| routed_fieldsEqual_value fields :
    fieldsEqual expect = Some fields ->
    routed expect "field.update" "value" (value <$> fields)
| routed_tasksCreated tasks task :
    tasksCreated expect = Some tasks -> task ∈ tasks ->
    routed expect "task.create" "title" (contains task)
| routed_systemTasksCreated tasks task :
    systemTasksCreated expect = Some tasks -> task ∈ tasks ->
    routed expect "task.create" "title" (contains task)
| routed_notifications all notification :
    notifications expect = Some all -> notification ∈ all ->
    routed expect "user.notify" "message" (contains notification)
| routed_systemNotifications all notification :
    systemNotifications expect = Some all -> notification ∈ all ->
    routed expect "user.notify" "message" (contains notification)
| routed_webhooksFired webhooks webhook :
    webhooksFired expect = Some webhooks -> webhook ∈ webhooks ->
    routed expect "webhook.send" "url" (urlContains webhook).

(** The calls of [collectHint] that one message makes, in order. *)
Definition message_calls (message : ExpectedMessage) : list HintCall :=
  (if bool_decide (channel message = "sms") then
     [ mkHintCall "sms.send" "body" "Expected text to include"
         (message_contains message) (Some "Use these words somewhere in the SMS.") ]
   else [])
  ++
  (if bool_decide (channel message = "email") then
     [ mkHintCall "email.send" "body" "Expected text to include"
         (message_contains message) (Some "Use these words somewhere in the email.");
       mkHintCall "email.send" "subject" "Suggested keyword"
         (message_contains message) (Some "Short is ok. Use a key word from the body.") ]
   else []).

(** The calls of [collectHint] that one test case makes, in order. *)
Definition testCase_calls (testCase : TestCase) : list HintCall :=
  let expect := expect testCase in
  (default [] (messages expect) ≫= message_calls)
  ++ (if has_length (tagsAdded expect) then
        [ mkHintCall "tag.add" "tag" "Expected tag" (default [] (tagsAdded expect)) None ]
      else [])
  ++ (if has_length (tagsRemoved expect) then
        [ mkHintCall "tag.remove" "tag" "Expected tag to remove"
            (default [] (tagsRemoved expect)) None ]
      else [])
  ++ (if has_length (fieldsEqual expect) then
        [ mkHintCall "field.update" "fieldKey" "Expected field name"
            (fieldKey <$> default [] (fieldsEqual expect)) None;
          mkHintCall "field.update" "value" "Expected value"
            (value <$> default [] (fieldsEqual expect)) None ]
      else [])
  ++ (if has_length (tasksCreated expect) then
        (fun task => mkHintCall "task.create" "title" "Expected words" (contains task) None)
          <$> default [] (tasksCreated expect)
      else [])
  ++ (if has_length (systemTasksCreated expect) then
        (fun task => mkHintCall "task.create" "title" "Expected words" (contains task) None)
          <$> default [] (systemTasksCreated expect)
      else [])
  ++ (if has_length (notifications expect) then
        (fun n => mkHintCall "user.notify" "message" "Expected words" (contains n) None)
          <$> default [] (notifications expect)
      else [])
  ++ (if has_length (systemNotifications expect) then
        (fun n => mkHintCall "user.notify" "message" "Expected words" (contains n) None)
          <$> default [] (systemNotifications expect)
      else [])
  ++ (if has_length (webhooksFired expect) then
        (fun w => mkHintCall "webhook.send" "url" "Expected URL contains" (urlContains w) None)
          <$> default [] (webhooksFired expect)
      else []).

(** A hint that exists has at least one value. *)
Definition hints_inhabited (hints : ExpectedFieldHintsByNode) : Prop :=
  forall nodeType fieldKey hint,
    lookup_hint hints nodeType fieldKey = Some hint -> values hint <> [].

(** ** Sample data *)

Definition sample_manifest : list ModuleManifestEntry :=
  [ mkModuleManifestEntry "M01" "M01: Your First Workflow" "1";
    mkModuleManifestEntry "M02" "M02: Tags" "1";
    mkModuleManifestEntry "M06" "M06: If They Have a Phone" "2" ].

Definition sample_saved : SavedState :=
  {| saved_modules :=
       Some (<["M01" := mkSavedModule (Some locked) (Some (mkAttempts 2 1)) (Some "notes")]>
            (<["M02" := mkSavedModule (Some completed) None None]>
            (<["M99" := mkSavedModule (Some completed) None None]> ∅))) |}.

Definition sample_progress : ProgressState :=
  mergeProgress sample_manifest (Some sample_saved).



Definition has_phone_case : TestCase :=
  {| testCaseId := "Contact has phone";
     expect :=
       {| messages := Some [ mkExpectedMessage "sms" [JStr "Welcome"] ];
          tagsAdded := None; tagsRemoved := None; fieldsEqual := None;
          tasksCreated := None; systemTasksCreated := None;
          notifications := None; systemNotifications := None;
          webhooksFired := None |} |}.

Definition no_phone_case : TestCase :=
  {| testCaseId := "Contact has no phone";
     expect :=
       {| messages := Some [ mkExpectedMessage "email" [JStr "Welcome"; JStr "  "] ];
          tagsAdded := Some [ JStr "log:welcome_sent_email"; JNull ];
          tagsRemoved := None; fieldsEqual := None;
          tasksCreated := None; systemTasksCreated := None;
          notifications := None; systemNotifications := None;
          webhooksFired := None |} |}.

(** Lesson M06, "If They Have a Phone: Text Otherwise Email". *)
Definition sample_scenario : Scenario :=
  {| moduleId := "M06";
     title := "If They Have a Phone: Text Otherwise Email";
     objectives := Some ["Branch on the phone field"];
     allowedNodes :=
       {| triggers := ["trigger.contactCreated"];
          actions := ["sms.send"; "email.send"];
          logic := ["logic.ifElse"] |};
     requirements :=
       [ [("type", JStr "triggerIs"); ("value", JStr "trigger.contactCreated")];
         [("type", JStr "mustContainIfElse"); ("minCount", JNum 1)];
         [("type", JStr "mustHaveNode"); ("value", JStr "sms.send")];
         [("type", JStr "mustHaveNode"); ("value", JStr "email.send")] ];
     testCases := [ has_phone_case; no_phone_case; has_phone_case ] |}.

(** ** ProgressContext.tsx: the updates as steps *)



(** ** Sidebar.tsx and CourseHome *)

(** [progress.modules[moduleId]?.status] *)
Definition module_status (progress : ProgressState) (moduleId : string)
    : option ModuleStatus :=
  status <$> modules progress !! moduleId.

(** [completedCount] of [Sidebar]. *)
Definition completedCount (manifest : list ModuleManifestEntry)
    (progress : ProgressState) : nat :=
  length
    (List.filter
       (fun entry =>
          bool_decide (module_status progress (entry_moduleId entry) = Some completed))
       manifest).


(** [displayStatus], computed alike by [Sidebar], [CourseHome] and
    [ModuleShell] from [progress.modules[moduleId]]. *)
Definition displayStatus (module : option ModuleProgress) : ModuleStatus :=
  let status := default available (status <$> module) in
  match status with
  | locked => available
  | other => other
  end.

(** ** ModuleShell.tsx: the lesson shell

    The state and the handlers of the [ModuleShell] component and of
    [MultiWorkflowBuilder]: the teach-back word count and its submit
    handler, the lesson tabs with their step, Next and Back buttons, the
    effects that move the guided flow, [handleFixNode], and the choice of
    the active workflow of a bundle. *)

(** [s.split(/\s+/)]: [s] cut at its maximal runs of whitespace. The
    pieces are built from the left; [in_separator] tells that the
    previous code unit belongs to a run that has already closed a piece. *)
Fixpoint split_whitespace_from (in_separator : bool) (s : string) : list string :=
  match s with
  | EmptyString => [""]
  | String c s' =>
      if JsString.is_whitespace c then
        if in_separator then split_whitespace_from true s'
        else "" :: split_whitespace_from true s'
      else
        match split_whitespace_from false s' with
        | piece :: rest => String c piece :: rest
        | [] => [String c ""]
        end
  end.

Definition split_whitespace (s : string) : list string :=
  split_whitespace_from false s.

(** The [wordCount] memo. *)
Definition wordCount (teachBackText : string) : nat :=
  if bool_decide (JsString.trim teachBackText = "") then 0%nat
  else
    length (List.filter (fun piece => negb (bool_decide (piece = "")))
              (split_whitespace (JsString.trim teachBackText))).

(** [moduleProgress?.teachBack ?? ""] *)
Definition teachBackText (progress : ProgressState) (moduleId : string) : string :=
  default "" (teachBack <$> modules progress !! moduleId).

Section TeachBack.

(** The minimum of [@/lib/rubric] and the manifest of the provider. *)
Variable MIN_TEACH_BACK_WORDS : nat.
Variable manifest : list ModuleManifestEntry.

Definition canSubmitTeachBack (teachBackText : string) : bool :=
  bool_decide (MIN_TEACH_BACK_WORDS <= wordCount teachBackText)%nat.

(** [handleTeachBackSubmit], in a render of [progress]: the update of the
    provider's state that the click queues. *)
Definition handleTeachBackSubmit (moduleId : string) (progress : ProgressState)
    : ProgressState -> ProgressState :=
  if canSubmitTeachBack (teachBackText progress moduleId)
  then markCompleted manifest moduleId
  else fun current => current.

End TeachBack.

(** *** The lesson tabs *)

Inductive TabKey : Type := Learn | Build | Validate | Simulate | TeachBack.

#[global] Instance TabKey_eq_dec : EqDecision TabKey.
Proof. solve_decision. Defined.

Record Tab := mkTab {
  tab_key : TabKey;
  tab_label : string;
  tab_helper : string
}.

Definition tabs : list Tab :=
  [ mkTab Learn "Learn" "Read this first";
    mkTab Build "Build" "Practice";
    mkTab Validate "Validate" "Check my work";
    mkTab Simulate "Simulate" "Test run";
    mkTab TeachBack "Teach-back" "Explain in your words" ].

(** [xs.findIndex(p)], with [None] for [-1]. *)
Fixpoint findIndex {A} (p : A -> bool) (xs : list A) : option nat :=
  match xs with
  | [] => None
  | x :: rest => if p x then Some 0%nat else S <$> findIndex p rest
  end.

(** [Math.max(0, tabs.findIndex(..))] *)
Definition activeTabIndex (activeTab : TabKey) : nat :=
  default 0%nat (findIndex (fun tab => bool_decide (tab_key tab = activeTab)) tabs).

(** [tabs[activeTabIndex - 1]?.key ?? null] *)
Definition prevTab (activeTab : TabKey) : option TabKey :=
  match activeTabIndex activeTab with
  | O => None
  | S index => tab_key <$> tabs !! index
  end.

(** The state of [ModuleShell] that its own handlers read and write. *)
Record ShellState := mkShellState {
  activeTab : TabKey;
  focusNodeId : option string;
  focusFieldKey : option string;
  guidedFlow : bool;
  buildReady : bool;
  validationPassed : bool;
  simulationPassed : bool
}.

Definition initialShellState : ShellState :=
  {| activeTab := Learn;
     focusNodeId := None;
     focusFieldKey := None;
     guidedFlow := true;
     buildReady := false;
     validationPassed := false;
     simulationPassed := false |}.

Definition setActiveTab (tab : TabKey) (s : ShellState) : ShellState :=
  {| activeTab := tab;
     focusNodeId := focusNodeId s;
     focusFieldKey := focusFieldKey s;
     guidedFlow := guidedFlow s;
     buildReady := buildReady s;
     validationPassed := validationPassed s;
     simulationPassed := simulationPassed s |}.

(** [handleFixNode(nodeId, fieldKey)]; an absent argument is [None], and
    the empty string is the one string that [!nodeId] takes for absent. *)
Definition handleFixNode (nodeId fieldKey : option string) (s : ShellState) : ShellState :=
  let focus :=
    match nodeId with
    | None | Some EmptyString => (None, None)
    | Some _ => (nodeId, fieldKey)
    end in
  {| activeTab := Build;
     focusNodeId := focus.1;
     focusFieldKey := focus.2;
     guidedFlow := guidedFlow s;
     buildReady := buildReady s;
     validationPassed := validationPassed s;
     simulationPassed := simulationPassed s |}.

(** The effect on [[activeTab, buildReady]]. *)
Definition resetPassesOnBuild (s : ShellState) : ShellState :=
  if bool_decide (activeTab s = Build) then
    {| activeTab := activeTab s;
       focusNodeId := focusNodeId s;
       focusFieldKey := focusFieldKey s;
       guidedFlow := guidedFlow s;
       buildReady := buildReady s;
       validationPassed := false;
       simulationPassed := false |}
  else s.

(** The effect on [[activeTab, guidedFlow, validationPassed]]. *)
Definition advanceAfterValidation (s : ShellState) : ShellState :=
  if guidedFlow s && bool_decide (activeTab s = Validate) && validationPassed s
  then setActiveTab Simulate s else s.

(** The effect on [[activeTab, guidedFlow, simulationPassed]]. *)
Definition advanceAfterSimulation (s : ShellState) : ShellState :=
  if guidedFlow s && bool_decide (activeTab s = Simulate) && simulationPassed s
  then setActiveTab TeachBack s else s.

Section LessonFlow.

(** [Boolean(scenario && "workflows" in scenario)] *)
Variable isBundle : bool.

Definition buildNextDisabled (s : ShellState) : bool :=
  guidedFlow s && negb (buildReady s) && negb isBundle.

Definition validateNextDisabled (s : ShellState) : bool :=
  guidedFlow s && negb (validationPassed s).

Definition simulateNextDisabled (s : ShellState) : bool :=
  guidedFlow s && negb (simulationPassed s).

(** [isFutureLocked] of the step button at [index]. *)
Definition isFutureLocked (s : ShellState) (index : nat) : bool :=
  guidedFlow s && bool_decide (activeTabIndex (activeTab s) + 1 < index)%nat.

(** The buttons that call [setActiveTab]: the step buttons of the lesson
    path, and the Next and Back buttons of the open tab panel. *)
Inductive FlowButton : Type :=
| StepButton (index : nat)
| NextButton
| BackButton.

(** The tab a button opens when clicked: none when the button is not
    rendered, is disabled, or its handler does nothing. *)
Definition button_target (s : ShellState) (button : FlowButton) : option TabKey :=
  match button with
  | StepButton index =>
      match tabs !! index with
      | Some tab => if isFutureLocked s index then None else Some (tab_key tab)
      | None => None
      end
  | NextButton =>
      match activeTab s with
      | Learn => Some Build
      | Build => if buildNextDisabled s then None else Some Validate
      | Validate => if validateNextDisabled s then None else Some Simulate
      | Simulate => if simulateNextDisabled s then None else Some TeachBack
      | TeachBack => None
      end
  | BackButton =>
      match activeTab s with
      | Learn => None
      | Build => prevTab (activeTab s)
      | Validate => Some Build
      | Simulate => Some Validate
      | TeachBack => Some Simulate
      end
  end.

Definition click (button : FlowButton) (s : ShellState) : ShellState :=
  match button_target s button with
  | Some tab => setActiveTab tab s
  | None => s
  end.

End LessonFlow.

(** *** MultiWorkflowBuilder *)

(** [[...allowedNodes.triggers, ...allowedNodes.actions, ...allowedNodes.logic]] *)
Definition allowed_node_types (scenario : Scenario) : list NodeType :=
  triggers (allowedNodes scenario) ++ actions (allowedNodes scenario)
  ++ logic (allowedNodes scenario).

(** [getAllowedNodeTypes]; [None] for [undefined]. *)
Definition getAllowedNodeTypes (scenario : option ScenarioDefinition)
    : option (list NodeType) :=
  match scenario with
  | None => None
  | Some (Bundle _ _ _) => None
  | Some (SingleWorkflow scenario) => Some (allowed_node_types scenario)
  end.

(** The initial [activeWorkflowId]: [scenario.workflows[0]?.workflowId ?? ""]. *)
Definition initialActiveWorkflowId (workflows : list Workflow) : string :=
  default "" (workflowId <$> head workflows).

(** [scenario.workflows.find(..)] *)
Definition activeWorkflow (workflows : list Workflow) (activeWorkflowId : string)
    : option Workflow :=
  List.find (fun workflow => bool_decide (workflowId workflow = activeWorkflowId))
    workflows.

(** [allowedTypes] of [MultiWorkflowBuilder]. *)
Definition allowedTypes (workflows : list Workflow) (activeWorkflowId : string)
    : option (list NodeType) :=
  (fun workflow => allowed_node_types (workflow_scenario workflow))
    <$> activeWorkflow workflows activeWorkflowId.

(** The [expectedFieldHints] memo of [MultiWorkflowBuilder]:
    [buildExpectedFieldHints(activeWorkflow?.scenario ?? null)]. *)
Definition activeWorkflowHints (workflows : list Workflow) (activeWorkflowId : string)
    : ExpectedFieldHintsByNode :=
  buildExpectedFieldHints
    ((fun workflow => SingleWorkflow (workflow_scenario workflow))
       <$> activeWorkflow workflows activeWorkflowId).

(** A bundle of two workflows. *)
Definition sample_workflows : list Workflow :=
  [ mkWorkflow "welcome" sample_scenario;
    mkWorkflow "follow-up" scenario_without_trigger_rule ].

(** *** Vocabulary *)

(** The number of words of [s]: the code units that are not whitespace and
    stand first or right after whitespace. [after_whitespace] tells
    whether the position before [s] counts as whitespace. *)
Fixpoint word_starts (after_whitespace : bool) (s : string) : nat :=
  match s with
  | EmptyString => 0%nat
  | String c s' =>
      if JsString.is_whitespace c then word_starts true s'
      else ((if after_whitespace then 1 else 0) + word_starts false s')%nat
  end.

(** The pieces that [filter(Boolean)] keeps, counted. *)
Definition count_pieces (pieces : list string) : nat :=
  length (List.filter (fun piece => negb (bool_decide (piece = ""))) pieces).

(** *** The hints, call by call *)

(** The cleaned values that the calls of [collectHint] bring to one field
    of one node type, in the order of the calls. *)
Definition contributions (calls : list HintCall) (nodeType : NodeType)
    (fieldKey : string) : list string :=
  calls ≫= fun call =>
    if bool_decide (call_nodeType call = nodeType /\ call_fieldKey call = fieldKey)
    then cleaned (call_values call) else [].

(** The label and the note that [buildExpectedFieldHints] passes to
    [collectHint] for each field it gives hints for. *)
Definition hint_caption (nodeType : NodeType) (fieldKey : string)
    : option (string * option string) :=
  match nodeType, fieldKey with
  | "sms.send", "body" =>
      Some ("Expected text to include", Some "Use these words somewhere in the SMS.")
  | "email.send", "body" =>
      Some ("Expected text to include", Some "Use these words somewhere in the email.")
  | "email.send", "subject" =>
      Some ("Suggested keyword", Some "Short is ok. Use a key word from the body.")
  | "tag.add", "tag" => Some ("Expected tag", None)
  | "tag.remove", "tag" => Some ("Expected tag to remove", None)
  | "field.update", "fieldKey" => Some ("Expected field name", None)
  | "field.update", "value" => Some ("Expected value", None)
  | "task.create", "title" => Some ("Expected words", None)
  | "user.notify", "message" => Some ("Expected words", None)
  | "webhook.send", "url" => Some ("Expected URL contains", None)
  | _, _ => None
  end.

(** Every hint carries the label and the note of its field. *)
Definition hints_captioned (hints : ExpectedFieldHintsByNode) : Prop :=
  forall nodeType fieldKey hint,
    lookup_hint hints nodeType fieldKey = Some hint ->
    hint_caption nodeType fieldKey = Some (label hint, note hint).

(** ** NodeInspector.tsx: the fields of a step

    [renderField] and the change handlers of its controls. The node's
    [config] is a map from field keys to values; a change hands
    [{ ...node.config, [field.key]: entered }] to [onChange]. *)

(** An entry of [field.options]: a string, or a [ConfigFieldOption]. *)
Inductive FieldOption : Type :=
| OptionString (option : string)
| OptionObject (option_value option_label : string).

(** [ConfigField] of [@/lib/nodeCatalog], with the properties that
    [renderField] reads. *)
Record ConfigField := mkConfigField {
  field_key : string;
  field_type : string;
  field_required : bool;
  field_options : option (list FieldOption)
}.

Abbreviation NodeConfig := (gmap string JsValue).

(** [ToBoolean] *)
Definition truthy (v : JsValue) : bool :=
  match v with
  | JUndefined | JNull => false
  | JBool b => b
  | JNum n => negb (bool_decide (n = 0%Z))
  | JStr s => negb (bool_decide (s = ""))
  | JArr _ | JObj _ => true
  end.

(** [a || b] *)
Definition logical_or (a b : JsValue) : JsValue := if truthy a then a else b.

(** [(field.options ?? []).map(..)]: every option as [{ value, label }]. *)
Definition normalized_options (field : ConfigField) : list (string * string) :=
  (fun option =>
     match option with
     | OptionString s => (s, s)
     | OptionObject value label => (value, label)
     end) <$> default [] (field_options field).

(** [node.config[field.key] ?? ""], for a key that the config has or
    reads as [undefined]; [missing] below has the read of a key that the
    config inherits. *)
Definition field_value (config : NodeConfig) (field : ConfigField) : JsValue :=
  Js.nullish (default JUndefined (config !! field_key field)) (JStr "").

(** [missing] of [renderField]. *)
Definition field_missing (config : NodeConfig) (field : ConfigField) : bool :=
  field_required field && isFieldMissing (field_value config field).

(** [missing] of [renderField], with the read of [node.config[field.key]]
    as the config object answers it: an own property, or else what it
    inherits from [Object.prototype], a function or that object itself,
    which [?? ""] keeps and [isFieldMissing] does not take for missing. *)
Definition missing (config : NodeConfig) (field : ConfigField) : bool :=
  field_required field
  && match config !! field_key field with
     | Some value => isFieldMissing (Js.nullish value (JStr ""))
     | None =>
         if bool_decide (field_key field ∈ object_prototype_names) then false
         else isFieldMissing (JStr "")
     end.

(** What the control of a field is given to show: the [value] of the
    select, of the number input and of the text input, the [checked] of
    the checkbox. *)
Inductive ControlView : Type :=
| SelectView (shown : string)
| NumberView (shown : JsValue)
| CheckboxView (checked : bool)
| TextView (shown : string).

Definition renderField (config : NodeConfig) (field : ConfigField) : ControlView :=
  let value := field_value config field in
  if bool_decide (field_type field = "select") then
    let first :=
      default JUndefined (JStr <$> (fst <$> head (normalized_options field))) in
    SelectView (Js.to_string (logical_or (logical_or value first) (JStr "")))
  else if bool_decide (field_type field = "number") then
    NumberView (match value with
                | JNum _ => value
                | _ => JStr ""
                end)
  else if bool_decide (field_type field = "boolean") then
    CheckboxView (truthy value)
  else
    TextView (Js.to_string (Js.nullish value (JStr ""))).

(** [event.target] of a change event. *)
Record ChangeTarget := mkChangeTarget {
  target_value : string;
  target_checked : bool
}.

Section FieldChange.

(** [Number(text)] on the text of a number input that is not empty; such
    a text is a numeral. *)
Variable Number : string -> Z.

(** The config that the [onChange] of the control of [field] hands on. *)
Definition changeField (config : NodeConfig) (field : ConfigField)
    (target : ChangeTarget) : NodeConfig :=
  let entered :=
    if bool_decide (field_type field = "select") then JStr (target_value target)
    else if bool_decide (field_type field = "number") then
      if bool_decide (target_value target = "") then JNull
      else JNum (Number (target_value target))
    else if bool_decide (field_type field = "boolean") then JBool (target_checked target)
    else JStr (target_value target) in
  <[field_key field := entered]> config.

End FieldChange.




(** *** The shape of what the builders return *)

Section Shapes.

Import Store.

(** [v] is a card of the store with this title and this text. *)
Definition card_at (h : heap) (title : string) (text : val) (v : val) : Prop :=
  exists l, v = VRef l
            /\ h !! l = Some (object_of [ ("title", VStr title); ("text", text) ]).

(** [v] is an array of the store that holds these three cards. *)
Definition three_cards_at (h : heap) (goal steps where_ : val) (v : val) : Prop :=
  exists l card1 card2 card3,
    v = VRef l /\ h !! l = Some (Arr [card1; card2; card3])
    /\ card_at h "Goal" goal card1
    /\ card_at h "Key steps" steps card2
    /\ card_at h "Where in HighLevel" where_ card3.

(** If [m] run in [h] returns, its result and final store satisfy [Q]. *)
Definition post {A} (m : M A) (h : heap) (Q : A -> heap -> Prop) : Prop :=
  match m h with
  | (Return a, h') => Q a h'
  | (Throw _, _) => True
  end.

End Shapes.

(** * Properties *)

(** ** Trimming *)

Section Trim.
Import JsString.

Lemma trim_end_empty_iff s : trim_end s = EmptyString <-> all_whitespace s = true.
Proof.
  induction s as [|c s IH]; simpl; [done|].
  destruct (trim_end s) eqn:Ht.
  - destruct (is_whitespace c); simpl.
    + rewrite <- IH. done.
    + split; intros; discriminate.
  - split; [discriminate|].
    intros [_ Hs]%andb_prop. apply IH in Hs. discriminate.
Qed.

Lemma trim_start_all_whitespace s :
  all_whitespace (trim_start s) = true <-> all_whitespace s = true.
Proof.
  induction s as [|c s IH]; simpl; [done|].
  destruct (is_whitespace c) eqn:Hc; simpl; [done|].
  rewrite Hc. done.
Qed.

(** A string trims to the empty string exactly when it consists of
    whitespace only. *)
Lemma trim_length_zero_iff s :
  String.length (trim s) = 0%nat <-> all_whitespace s = true.
Proof.
  unfold trim. rewrite <- trim_start_all_whitespace, <- trim_end_empty_iff.
  destruct (trim_end (trim_start s)); simpl; split; intros; done.
Qed.

End Trim.

Lemma is_blank_iff s : is_blank s = true <-> JsString.all_whitespace s = true.
Proof.
  unfold is_blank. rewrite bool_decide_eq_true. apply trim_length_zero_iff.
Qed.

(** ** NodeInspector: the presence test *)

(** C1. [isFieldMissing v] is true iff [v] is [undefined], [null], or a
    string whose length after trimming is zero; every other value, the
    number 0 and the boolean [false] among them, is present. *)
Theorem isFieldMissing_iff (v : JsValue) :
  (isFieldMissing v = true <->
     v = JUndefined \/ v = JNull \/
     exists s, v = JStr s /\ String.length (JsString.trim s) = 0%nat)
  /\ isFieldMissing (JNum 0) = false
  /\ isFieldMissing (JBool false) = false.
Proof.
  split; [|split; reflexivity].
  destruct v; simpl; split; intros H; try done; auto.
  - destruct H as [H|[H|(s & H & _)]]; discriminate.
  - destruct H as [H|[H|(s & H & _)]]; discriminate.
  - apply bool_decide_eq_true in H. eauto.
  - destruct H as [H|[H|(t & H & Ht)]]; try discriminate.
    injection H as ->. by apply bool_decide_eq_true.
  - destruct H as [H|[H|(s & H & _)]]; discriminate.
  - destruct H as [H|[H|(s & H & _)]]; discriminate.
Qed.

(** ** ProgressContext: merging saved progress *)

Lemma buildDefaultProgress_fold_lookup (l : list ModuleManifestEntry)
    (m : gmap string ModuleProgress) (id : string) :
  fold_left (fun modules entry => <[entry_moduleId entry := defaultModuleProgress]> modules)
    l m !! id =
  if decide (id ∈ entry_moduleId <$> l) then Some defaultModuleProgress else m !! id.
Proof.
  revert m. induction l as [|e l IH]; intros m; csimpl.
  - done.
  - rewrite IH. destruct (decide (id ∈ entry_moduleId <$> l)) as [Hin|Hin].
    + rewrite decide_True; [done|]. by apply elem_of_cons; right.
    + destruct (decide (entry_moduleId e = id)) as [->|Hne].
      * rewrite lookup_insert_eq, decide_True; [done|]. apply elem_of_cons; by left.
      * rewrite lookup_insert_ne by done. rewrite decide_False; [done|].
        intros [?|?]%elem_of_cons; congruence.
Qed.

Lemma buildDefaultProgress_lookup manifest id :
  modules (buildDefaultProgress manifest) !! id =
  if decide (id ∈ entry_moduleId <$> manifest) then Some defaultModuleProgress else None.
Proof.
  unfold buildDefaultProgress; simpl.
  rewrite buildDefaultProgress_fold_lookup, lookup_empty. done.
Qed.

Lemma mergeEntry_unfold manifest saved merged entry :
  entry ∈ manifest ->
  mergeEntry (buildDefaultProgress manifest) saved merged entry =
  match saved_lookup (Some saved) (entry_moduleId entry) with
  | Some savedModule => <[entry_moduleId entry := merged_module savedModule]> merged
  | None => merged
  end.
Proof.
  intros Hin. unfold mergeEntry, saved_lookup; simpl.
  destruct (saved_modules saved ≫= _) as [sm|]; [|done].
  rewrite buildDefaultProgress_fold_lookup, decide_True
    by (apply list_elem_of_fmap; eauto).
  unfold merged_module; simpl. f_equal.
  destruct sm as [[[]|] ? ?]; done.
Qed.

Lemma mergeProgress_fold_lookup manifest saved (l : list ModuleManifestEntry)
    (m : gmap string ModuleProgress) (id : string) :
  l ⊆ manifest ->
  fold_left (mergeEntry (buildDefaultProgress manifest) saved) l m !! id =
  match saved_lookup (Some saved) id with
  | Some savedModule =>
      if decide (id ∈ entry_moduleId <$> l) then Some (merged_module savedModule)
      else m !! id
  | None => m !! id
  end.
Proof.
  revert m. induction l as [|e l IH]; intros m Hsub; csimpl.
  - by destruct (saved_lookup (Some saved) id).
  - assert (e ∈ manifest) as He by (apply Hsub; by left).
    assert (l ⊆ manifest) as Hl by (intros x Hx; apply Hsub; by right).
    rewrite IH by done. rewrite mergeEntry_unfold by done.
    destruct (saved_lookup (Some saved) id) as [sm|] eqn:Hs.
    + destruct (decide (id ∈ entry_moduleId <$> l)) as [Hin|Hin].
      * rewrite decide_True; [done|]. by apply elem_of_cons; right.
      * destruct (decide (entry_moduleId e = id)) as [Heq|Hne].
        -- rewrite Heq, Hs, lookup_insert_eq, decide_True; [done|].
           apply elem_of_cons; by left.
        -- rewrite decide_False by (intros [?|?]%elem_of_cons; congruence).
           destruct (saved_lookup _ (entry_moduleId e)); [|done].
           by rewrite lookup_insert_ne.
    + destruct (decide (entry_moduleId e = id)) as [Heq|Hne].
      * by rewrite Heq, Hs.
      * destruct (saved_lookup _ (entry_moduleId e)); [|done].
        by rewrite lookup_insert_ne.
Qed.

(** Every entry of the merged state, in one equation. *)
Lemma mergeProgress_lookup manifest saved id :
  modules (mergeProgress manifest saved) !! id =
  if decide (id ∈ entry_moduleId <$> manifest) then
    Some (from_option merged_module defaultModuleProgress (saved_lookup saved id))
  else None.
Proof.
  unfold mergeProgress. destruct saved as [saved|]; simpl.
  - rewrite mergeProgress_fold_lookup by done.
    rewrite buildDefaultProgress_fold_lookup, lookup_empty.
    destruct (saved_lookup (Some saved) id); simpl;
      destruct (decide (id ∈ entry_moduleId <$> manifest)); done.
  - rewrite buildDefaultProgress_fold_lookup, lookup_empty.
    destruct (decide (id ∈ entry_moduleId <$> manifest)); done.
Qed.


(** ** ProgressContext: the updates *)

Lemma updateModule_lookup moduleId updater current id :
  modules (updateModule moduleId updater current) !! id =
  if decide (id = moduleId) then updater <$> modules current !! moduleId
  else modules current !! id.
Proof.
  unfold updateModule.
  destruct (modules current !! moduleId) as [existing|] eqn:He; simpl.
  - case_decide as Hid.
    + subst. by rewrite lookup_insert_eq.
    + by rewrite lookup_insert_ne.
  - case_decide; by subst.
Qed.


Lemma indexOf_Some moduleOrder moduleId index :
  indexOf moduleOrder moduleId = Some index <-> first_index moduleOrder moduleId index.
Proof.
  revert index. induction moduleOrder as [|m rest IH]; intros index; simpl.
  - split; [done|]. by intros [? _].
  - case_bool_decide as Hm.
    + subst. split.
      * intros [= <-]. split; [done|]. lia.
      * intros [Hi Hfirst]. destruct index as [|i]; [done|].
        exfalso. apply (Hfirst 0%nat); [lia|done].
    + destruct (indexOf rest moduleId) as [i|]; simpl.
      * split.
        -- intros [= <-]. destruct (proj1 (IH i) eq_refl) as [Hl Hf]. split; [done|].
           intros [|j] Hj; simpl; [congruence|]. apply Hf. lia.
        -- intros [Hl Hf]. destruct index as [|k]; simpl in Hl; [congruence|].
           f_equal. assert (first_index rest moduleId k) as Hk.
           { split; [done|]. intros j Hj. apply (Hf (S j)). lia. }
           apply IH in Hk. congruence.
      * split; [done|]. intros [Hl Hf].
        destruct index as [|k]; simpl in Hl; [congruence|].
        assert (first_index rest moduleId k) as Hk.
        { split; [done|]. intros j Hj. apply (Hf (S j)). lia. }
        apply IH in Hk. congruence.
Qed.

Lemma indexOf_None moduleOrder moduleId :
  indexOf moduleOrder moduleId = None <-> moduleId ∉ moduleOrder.
Proof.
  induction moduleOrder as [|m rest IH]; simpl.
  - split; [intros _; apply not_elem_of_nil|done].
  - case_bool_decide as Hm.
    + subst. split; [done|]. intros H. exfalso. apply H. by left.
    + rewrite fmap_None, IH, not_elem_of_cons. split; [by intros ?|by intros [_ ?]].
Qed.

Lemma successor_dec moduleOrder moduleId :
  { next | successor moduleOrder moduleId next }
  + { forall next, ~ successor moduleOrder moduleId next }.
Proof.
  destruct (indexOf moduleOrder moduleId) as [index|] eqn:Hi.
  - destruct (moduleOrder !! S index) as [next|] eqn:Hn.
    + left. exists next, index. by rewrite <- indexOf_Some.
    + right. intros next (i & Hf & Hl). apply indexOf_Some in Hf. congruence.
  - right. intros next (i & Hf & Hl). apply indexOf_Some in Hf. congruence.
Qed.

Lemma unlockModule_lookup next current id :
  modules (unlockModule next current) !! id =
  if decide (id = next) then unlocked <$> modules current !! next
  else modules current !! id.
Proof.
  unfold unlockModule. rewrite updateModule_lookup.
  case_decide; [|done].
  destruct (modules current !! next) as [[[] ? ?]|]; done.
Qed.

(** [markCompleted] as: complete, then unlock the successor if any. *)
Lemma markCompleted_unfold manifest moduleId current :
  let completed_state :=
    updateModule moduleId (fun existing =>
      {| status := completed;
         attempts := attempts existing;
         teachBack := teachBack existing |}) current in
  (forall next, successor (moduleOrder manifest) moduleId next ->
     markCompleted manifest moduleId current = unlockModule next completed_state)
  /\ ((forall next, ~ successor (moduleOrder manifest) moduleId next) ->
     markCompleted manifest moduleId current = completed_state).
Proof.
  cbv zeta. unfold markCompleted.
  destruct (indexOf (moduleOrder manifest) moduleId) as [index|] eqn:Hi.
  - apply indexOf_Some in Hi. split.
    + intros next (i & Hfirst & Hnext).
      assert (i = index) as ->.
      { destruct Hfirst as [Hl1 Hf1], Hi as [Hl2 Hf2].
        destruct (Nat.lt_trichotomy i index) as [Hlt|[->|Hlt]]; [|done|].
        - by apply Hf2 in Hlt.
        - by apply Hf1 in Hlt. }
      apply lookup_lt_Some in Hnext as Hlen.
      rewrite bool_decide_eq_true_2 by lia.
      replace (index + 1)%nat with (S index) by lia. by rewrite Hnext.
    + intros Hnone. case_bool_decide as Hlt; [|done].
      destruct (moduleOrder manifest !! (index + 1)%nat) as [next|] eqn:Hnext; [|done].
      exfalso. apply (Hnone next). exists index. split; [done|].
      by replace (S index) with (index + 1)%nat by lia.
  - split; [|done].
    intros next (i & Hfirst & _). apply indexOf_Some in Hfirst. congruence.
Qed.

(** ** ProgressContext: the states of the provider *)







(** ** ProgressContext over plain objects *)

Section PlainFacts.

Import Plain.

Lemma get_own current key value :
  own current !! key = Some value -> get current key = Some value.
Proof. intros Hown. unfold get. by rewrite Hown. Qed.

(** *** The default and the merged progress *)

Lemma assign_own modules key module k :
  own modules !! "__proto__" = None ->
  own (assign modules key module) !! k
  = if decide (k = key /\ k <> "__proto__") then Some (Obj (of_module module))
    else own modules !! k.
Proof.
  intros Hproto. unfold assign. rewrite (bool_decide_true (_ = None)) by done.
  rewrite andb_true_r. case_bool_decide as Hkey; simpl.
  - subst key. by rewrite decide_False by (by intros [-> ?]).
  - case_decide as Hk.
    + destruct Hk as [-> _]. by rewrite lookup_insert_eq.
    + destruct (decide (k = key)) as [->|Hne].
      * exfalso. apply Hk. by split.
      * by rewrite lookup_insert_ne.
Qed.

Lemma assign_proto modules key module :
  own modules !! "__proto__" = None ->
  proto (assign modules key module)
  = if decide (key = "__proto__") then Some module else proto modules.
Proof.
  intros Hproto. unfold assign. rewrite (bool_decide_true (_ = None)) by done.
  rewrite andb_true_r. case_bool_decide; simpl; [by rewrite decide_True|].
  by rewrite decide_False.
Qed.

Lemma assign_no_own_proto modules key module :
  own modules !! "__proto__" = None ->
  own (assign modules key module) !! "__proto__" = None.
Proof.
  intros Hproto. rewrite assign_own by done.
  by rewrite decide_False by (by intros [_ ?]).
Qed.

(** Assignments along a list of manifest entries, where the module that is
    assigned depends on the id alone. *)
Lemma assign_fold (module_for : string -> ModuleProgress)
    (entries : list ModuleManifestEntry) (modules : Modules) :
  own modules !! "__proto__" = None ->
  let result :=
    fold_left (fun modules entry =>
                 assign modules (entry_moduleId entry)
                   (module_for (entry_moduleId entry)))
      entries modules in
  (forall k, own result !! k
             = if decide (k ∈ moduleOrder entries /\ k <> "__proto__")
               then Some (Obj (of_module (module_for k)))
               else own modules !! k)
  /\ proto result
     = if decide ("__proto__" ∈ moduleOrder entries)
       then Some (module_for "__proto__") else proto modules.
Proof.
  cbv zeta. revert modules.
  induction entries as [|entry entries IH]; intros modules Hproto; cbn [fold_left].
  - split; [intros k|].
    + rewrite decide_False; [done|]. intros [Hk _]. by apply elem_of_nil in Hk.
    + rewrite decide_False; [done|]. apply not_elem_of_nil.
  - destruct (IH (assign modules (entry_moduleId entry)
                    (module_for (entry_moduleId entry)))) as [Hown Hp].
    { by apply assign_no_own_proto. }
    split.
    + intros k. rewrite Hown, assign_own by done.
      change (moduleOrder (entry :: entries))
        with (entry_moduleId entry :: moduleOrder entries).
      destruct (decide (k ∈ moduleOrder entries /\ k <> "__proto__")) as [[Hin Hne]|Hrest].
      * rewrite decide_True; [done|]. split; [by right|done].
      * destruct (decide (k = entry_moduleId entry /\ k <> "__proto__")) as [[-> Hne]|Hhere].
        -- rewrite decide_True; [done|]. split; [by left|done].
        -- rewrite decide_False; [done|].
           intros [[->|Hin]%elem_of_cons Hne]; [by apply Hhere|by apply Hrest].
    + rewrite Hp, assign_proto by done.
      change (moduleOrder (entry :: entries))
        with (entry_moduleId entry :: moduleOrder entries).
      destruct (decide ("__proto__" ∈ moduleOrder entries)) as [Hin|Hrest].
      * rewrite decide_True; [done|]. by right.
      * destruct (decide (entry_moduleId entry = "__proto__")) as [Heq|Hhere].
        -- rewrite decide_True; [by rewrite Heq|]. rewrite Heq. by left.
        -- rewrite decide_False; [done|].
           intros [Heq|Hin]%elem_of_cons; [by apply Hhere|by apply Hrest].
Qed.

Lemma buildDefaultProgress_own manifest k :
  own (buildDefaultProgress manifest) !! k
  = if decide (k ∈ moduleOrder manifest /\ k <> "__proto__")
    then Some (Obj (of_module defaultModuleProgress)) else None.
Proof.
  destruct (assign_fold (fun _ => defaultModuleProgress) manifest
              {| own := ∅; proto := None |} (lookup_empty _)) as [Hown _].
  unfold buildDefaultProgress. rewrite Hown. by case_decide.
Qed.

Lemma buildDefaultProgress_proto manifest :
  proto (buildDefaultProgress manifest)
  = if decide ("__proto__" ∈ moduleOrder manifest)
    then Some defaultModuleProgress else None.
Proof.
  by destruct (assign_fold (fun _ => defaultModuleProgress) manifest
                 {| own := ∅; proto := None |} (lookup_empty _)) as [_ Hproto].
Qed.

Lemma baseline_module_default manifest id :
  id ∈ moduleOrder manifest ->
  baseline_module (buildDefaultProgress manifest) id = Return defaultModuleProgress.
Proof.
  intros Hid. unfold baseline_module, get.
  rewrite buildDefaultProgress_own, buildDefaultProgress_proto.
  destruct (decide (id = "__proto__")) as [->|Hne].
  - rewrite decide_False by (by intros [_ ?]). by rewrite decide_True.
  - by rewrite decide_True.
Qed.

Lemma mergeEntry_assign manifest saved merged entry :
  entry_moduleId entry ∈ moduleOrder manifest ->
  mergeEntry (buildDefaultProgress manifest) saved merged entry
  = Return match saved_get saved (entry_moduleId entry) with
           | Some savedModule =>
               assign merged (entry_moduleId entry) (merged_module savedModule)
           | None => merged
           end.
Proof.
  intros Hid. unfold mergeEntry.
  destruct (saved_get saved (entry_moduleId entry)) as [[savedStatus savedAttempts text]|];
    [|done].
  unfold merged_module. simpl.
  destruct savedStatus as [[]|], savedAttempts as [counters|];
    rewrite ?(baseline_module_default manifest _ Hid); done.
Qed.

Lemma mergeProgress_fold manifest saved entries merged :
  (forall entry, entry ∈ entries -> entry_moduleId entry ∈ moduleOrder manifest) ->
  own merged !! "__proto__" = None ->
  exists result,
    fold_left
      (fun merged entry =>
         merged <- merged;; mergeEntry (buildDefaultProgress manifest) saved merged entry)
      entries (Return merged) = Return result
    /\ own result !! "__proto__" = None
    /\ (forall k, own result !! k
                  = if decide (k ∈ moduleOrder entries /\ k <> "__proto__"
                               /\ is_Some (saved_get saved k))
                    then Some (Obj (of_module (merged_for (Some saved) k)))
                    else own merged !! k)
    /\ proto result
       = if decide ("__proto__" ∈ moduleOrder entries
                    /\ is_Some (saved_get saved "__proto__"))
         then Some (merged_for (Some saved) "__proto__") else proto merged.
Proof.
  revert merged. induction entries as [|entry entries IH]; intros merged Hin Hproto;
    cbn [fold_left].
  - exists merged. split_and!; [done..| |].
    + intros k. rewrite decide_False; [done|]. intros [Hk _]. by apply elem_of_nil in Hk.
    + rewrite decide_False; [done|]. intros [Hk _]. by apply elem_of_nil in Hk.
  - cbn [Js.bind]. rewrite (mergeEntry_assign manifest) by (apply Hin; by left).
    change (moduleOrder (entry :: entries))
      with (entry_moduleId entry :: moduleOrder entries).
    destruct (saved_get saved (entry_moduleId entry)) as [savedModule|] eqn:Hsaved.
    + destruct (IH (assign merged (entry_moduleId entry) (merged_module savedModule)))
        as (result & Hfold & Hnone & Hown & Hp).
      { intros e He. apply Hin. by right. }
      { by apply assign_no_own_proto. }
      exists result. split_and!; [done..| |].
      * intros k. rewrite Hown, assign_own by done.
        destruct (decide (k ∈ moduleOrder entries /\ k <> "__proto__"
                          /\ is_Some (saved_get saved k))) as [(Hk & Hne & Hs)|Hrest].
        -- rewrite decide_True; [done|]. split_and!; [by right|done..].
        -- destruct (decide (k = entry_moduleId entry /\ k <> "__proto__"))
             as [[-> Hne]|Hhere].
           ++ rewrite decide_True by (split_and!; [by left|done|by rewrite Hsaved]).
              unfold merged_for. simpl. by rewrite Hsaved.
           ++ rewrite decide_False; [done|].
              intros ([->|Hk]%elem_of_cons & Hne & Hs); [by apply Hhere|by apply Hrest].
      * rewrite Hp, assign_proto by done.
        destruct (decide ("__proto__" ∈ moduleOrder entries
                          /\ is_Some (saved_get saved "__proto__"))) as [[Hk Hs]|Hrest].
        -- rewrite decide_True; [done|]. split; [by right|done].
        -- destruct (decide (entry_moduleId entry = "__proto__")) as [Heq|Hhere].
           ++ rewrite decide_True by (split; [rewrite <- Heq; by left|by rewrite <- Heq, Hsaved]).
              unfold merged_for. simpl. by rewrite <- Heq, Hsaved.
           ++ rewrite decide_False; [done|].
              intros [[Heq|Hk]%elem_of_cons Hs]; [by apply Hhere|by apply Hrest].
    + destruct (IH merged) as (result & Hfold & Hnone & Hown & Hp);
        [intros e He; apply Hin; by right|done|].
      exists result. split_and!; [done..| |].
      * intros k. rewrite Hown.
        destruct (decide (k ∈ moduleOrder entries /\ k <> "__proto__"
                          /\ is_Some (saved_get saved k))) as [(Hk & Hne & Hs)|Hrest].
        -- rewrite decide_True; [done|]. split_and!; [by right|done..].
        -- rewrite decide_False; [done|].
           intros ([->|Hk]%elem_of_cons & Hne & Hs); [|by apply Hrest].
           rewrite Hsaved in Hs. by destruct Hs.
      * rewrite Hp.
        destruct (decide ("__proto__" ∈ moduleOrder entries
                          /\ is_Some (saved_get saved "__proto__"))) as [[Hk Hs]|Hrest].
        -- rewrite decide_True; [done|]. split; [by right|done].
        -- rewrite decide_False; [done|].
           intros [[Heq|Hk]%elem_of_cons Hs]; [|by apply Hrest].
           rewrite Heq, Hsaved in Hs. by destruct Hs.
Qed.

(** What [mergeProgress] returns: a module for every id of the manifest
    but ["__proto__"], which becomes the prototype instead. *)
Lemma mergeProgress_returns manifest saved :
  exists result,
    mergeProgress manifest saved = Return result
    /\ (forall k, own result !! k
                  = if decide (k ∈ moduleOrder manifest /\ k <> "__proto__")
                    then Some (Obj (of_module (merged_for saved k))) else None)
    /\ proto result
       = if decide ("__proto__" ∈ moduleOrder manifest) then
           match saved with
           | None => Some defaultModuleProgress
           | Some saved => merged_module <$> saved_get saved "__proto__"
           end
         else None.
Proof.
  unfold mergeProgress. destruct saved as [saved|].
  - destruct (mergeProgress_fold manifest saved manifest
                {| own := own (buildDefaultProgress manifest); proto := None |})
      as (result & Hfold & _ & Hown & Hp).
    { intros entry Hentry. apply list_elem_of_fmap. eauto. }
    { simpl. rewrite buildDefaultProgress_own. by rewrite decide_False by (by intros [_ ?]). }
    exists result. split_and!; [done| |].
    + intros k. rewrite Hown. simpl. rewrite buildDefaultProgress_own.
      destruct (decide (k ∈ moduleOrder manifest /\ k <> "__proto__")) as [[Hk Hne]|Hrest].
      * destruct (saved_get saved k) as [savedModule|] eqn:Hsaved.
        -- rewrite decide_True by (split_and!; [done..|by eexists]).
           unfold merged_for. simpl. by rewrite Hsaved.
        -- rewrite decide_False by (intros (_ & _ & Hs); by destruct Hs).
           unfold merged_for. simpl. by rewrite Hsaved.
      * rewrite decide_False; [done|]. intros (? & ? & _). by apply Hrest.
    + rewrite Hp. simpl.
      destruct (decide ("__proto__" ∈ moduleOrder manifest)) as [Hk|Hrest].
      * destruct (saved_get saved "__proto__") as [savedModule|] eqn:Hsaved.
        -- rewrite decide_True by (split; [done|by eexists]).
           unfold merged_for. simpl. by rewrite Hsaved.
        -- rewrite decide_False; [done|]. intros [_ Hs]. by destruct Hs.
      * rewrite decide_False; [done|]. by intros [? _].
  - exists (buildDefaultProgress manifest). split_and!; [done| |].
    + intros k. rewrite buildDefaultProgress_own. by case_decide.
    + apply buildDefaultProgress_proto.
Qed.

(** *** The updates *)

Lemma updateModule_present moduleId updater current existing updated :
  own current !! moduleId = Some existing ->
  truthy existing = true ->
  updater existing = Return updated ->
  updateModule moduleId updater current
  = Return {| own := <[moduleId := updated]> (own current); proto := None |}.
Proof.
  intros Hown Htruthy Hupdated. unfold updateModule.
  by rewrite (get_own _ _ _ Hown), Htruthy, Hupdated.
Qed.

Lemma updateModule_undefined moduleId updater current :
  get current moduleId = None -> updateModule moduleId updater current = Return current.
Proof. intros Hget. unfold updateModule. by rewrite Hget. Qed.

Lemma updateModule_frame moduleId updater current next key :
  updateModule moduleId updater current = Return next ->
  key <> moduleId -> own next !! key = own current !! key.
Proof.
  unfold updateModule. intros Hnext Hkey.
  destruct (get current moduleId) as [existing|]; [|by injection Hnext as <-].
  destruct (truthy existing); simpl in Hnext; [|by injection Hnext as <-].
  destruct (updater existing) as [updated|error]; simpl in Hnext; [|done].
  injection Hnext as <-. simpl. by rewrite lookup_insert_ne.
Qed.

(** An update that cannot throw returns. *)
Lemma updateModule_total moduleId updater current :
  (forall existing, exists updated, updater existing = Return updated) ->
  exists next, updateModule moduleId updater current = Return next.
Proof.
  intros Htotal. unfold updateModule.
  destruct (get current moduleId) as [existing|]; [|by eauto].
  destruct (truthy existing); simpl; [|by eauto].
  destruct (Htotal existing) as [updated ->]. simpl. by eauto.
Qed.

Lemma unlockModule_total moduleId current :
  exists next, unlockModule moduleId current = Return next.
Proof.
  apply updateModule_total. intros existing. case_bool_decide; by eauto.
Qed.

Lemma unlockModule_present moduleId current entry :
  own current !! moduleId = Some (Obj entry) ->
  unlockModule moduleId current
  = Return {| own := <[moduleId := Obj (unlocked entry)]> (own current); proto := None |}.
Proof.
  intros Hown. unfold unlockModule.
  apply (updateModule_present _ _ _ (Obj entry)); [done..|].
  unfold unlocked. simpl.
  destruct (entry_status entry) as [[]|]; by case_bool_decide.
Qed.

(** [markCompleted] as: complete, then unlock the successor if any. *)
Lemma markCompleted_steps manifest moduleId current :
  let complete :=
    updateModule moduleId (fun existing =>
      Return (Obj (with_status completed (spread existing)))) current in
  (forall next, successor (moduleOrder manifest) moduleId next ->
     markCompleted manifest moduleId current
     = (completed_state <- complete;; unlockModule next completed_state))
  /\ ((forall next, ~ successor (moduleOrder manifest) moduleId next) ->
     markCompleted manifest moduleId current = complete).
Proof.
  cbv zeta. unfold markCompleted.
  destruct (updateModule_total moduleId
              (fun existing => Return (Obj (with_status completed (spread existing))))
              current) as [completed_state ->]; [by eauto|].
  cbn [Js.bind].
  destruct (indexOf (moduleOrder manifest) moduleId) as [index|] eqn:Hi.
  - apply indexOf_Some in Hi. split.
    + intros next (i & Hfirst & Hnext).
      assert (i = index) as ->.
      { destruct Hfirst as [Hl1 Hf1], Hi as [Hl2 Hf2].
        destruct (Nat.lt_trichotomy i index) as [Hlt|[->|Hlt]]; [|done|].
        - by apply Hf2 in Hlt.
        - by apply Hf1 in Hlt. }
      apply lookup_lt_Some in Hnext as Hlen.
      rewrite bool_decide_eq_true_2 by lia.
      replace (index + 1)%nat with (S index) by lia. by rewrite Hnext.
    + intros Hnone. case_bool_decide as Hlt; [|done].
      destruct (moduleOrder manifest !! (index + 1)%nat) as [next|] eqn:Hnext; [|done].
      exfalso. apply (Hnone next). exists index. split; [done|].
      by replace (S index) with (index + 1)%nat by lia.
  - split; [|done].
    intros next (i & Hfirst & _). apply indexOf_Some in Hfirst. congruence.
Qed.

Lemma successor_unique moduleOrder moduleId next next' :
  successor moduleOrder moduleId next -> successor moduleOrder moduleId next' ->
  next' = next.
Proof.
  intros (i & Hi & Hl) (i' & Hi' & Hl'). apply indexOf_Some in Hi, Hi'. congruence.
Qed.

(** C9. [markCompleted] never throws. It sets the status of a module
    object of the state to [completed]; the module right after it in the
    manifest order, if it is a module object of the state, goes from
    [locked] to [available] and is otherwise left as it is; no other entry
    changes. For a module id that the state reads as [undefined] nothing
    changes when no module comes after it in the manifest order. *)
Theorem markCompleted_effect (manifest : list ModuleManifestEntry)
    (current : Modules) (moduleId : string) :
  exists result,
    markCompleted manifest moduleId current = Return result
    /\ (forall entry, own current !! moduleId = Some (Obj entry) ->
          own result !! moduleId = Some (Obj (with_status completed entry)))
    /\ (forall next entry,
          successor (moduleOrder manifest) moduleId next ->
          next <> moduleId ->
          own current !! next = Some (Obj entry) ->
          own result !! next = Some (Obj (unlocked entry)))
    /\ (forall other, other <> moduleId ->
          ~ successor (moduleOrder manifest) moduleId other ->
          own result !! other = own current !! other)
    /\ (get current moduleId = None ->
        (forall next, ~ successor (moduleOrder manifest) moduleId next) ->
        result = current).
Proof.
  destruct (markCompleted_steps manifest moduleId current) as [Hsucc Hnone].
  cbv zeta in Hsucc, Hnone.
  destruct (updateModule_total moduleId
              (fun existing => Return (Obj (with_status completed (spread existing))))
              current) as [completed_state Hcomplete]; [by eauto|].
  assert (forall entry, own current !! moduleId = Some (Obj entry) ->
            own completed_state !! moduleId = Some (Obj (with_status completed entry)))
    as Hdone.
  { intros entry Hown.
    rewrite (updateModule_present _ _ _ (Obj entry) (Obj (with_status completed entry)))
      in Hcomplete by done.
    injection Hcomplete as <-. simpl. by rewrite lookup_insert_eq. }
  destruct (successor_dec (moduleOrder manifest) moduleId) as [[next Hnext]|Hlast].
  - destruct (unlockModule_total next completed_state) as [result Hunlock].
    exists result. rewrite (Hsucc next Hnext), Hcomplete. cbn [Js.bind].
    split_and!; [done|..].
    + intros entry Hown. apply Hdone in Hown.
      destruct (decide (next = moduleId)) as [->|Hne].
      * rewrite (unlockModule_present _ _ _ Hown) in Hunlock.
        injection Hunlock as <-. simpl. by rewrite lookup_insert_eq.
      * by rewrite (updateModule_frame _ _ _ _ _ Hunlock).
    + intros next' entry Hnext' Hne Hown.
      rewrite (successor_unique _ _ _ _ Hnext Hnext') in *.
      assert (own completed_state !! next = Some (Obj entry)) as Hkept
        by by rewrite (updateModule_frame _ _ _ _ _ Hcomplete).
      rewrite (unlockModule_present _ _ _ Hkept) in Hunlock.
      injection Hunlock as <-. simpl. by rewrite lookup_insert_eq.
    + intros other Hne Hnot.
      rewrite (updateModule_frame _ _ _ _ _ Hunlock) by (by intros ->).
      by rewrite (updateModule_frame _ _ _ _ _ Hcomplete).
    + intros _ Hno. by destruct (Hno next).
  - exists completed_state. rewrite (Hnone Hlast).
    split_and!; [done..| | |].
    + intros next entry Hnext. by destruct (Hlast next).
    + intros other Hne _. by rewrite (updateModule_frame _ _ _ _ _ Hcomplete).
    + intros Hget _. rewrite updateModule_undefined in Hcomplete by done.
      by injection Hcomplete.
Qed.

(** C9, as stated, fails: [markCompleted] for a module without an entry
    still unlocks the module after it. *)
Lemma markCompleted_changes_state_for_absent_module :
  own sample_locked !! "M01" = None
  /\ get sample_locked "M01" = None
  /\ markCompleted sample_manifest "M01" sample_locked
     = Return (typed (<["M02" := mkModuleProgress available (mkAttempts 0 0) ""]>
                     (<["M06" := mkModuleProgress locked (mkAttempts 0 0) ""]> ∅)))
  /\ markCompleted sample_manifest "M01" sample_locked <> Return sample_locked.
Proof.
  split_and!; [reflexivity|reflexivity| |].
  - vm_compute. reflexivity.
  - vm_compute. discriminate.
Qed.

Lemma markCompleted_effect_witness :
  exists result,
    markCompleted sample_manifest "M01" sample_started = Return result
    /\ own result !! "M01"
       = Some (Obj (of_module (mkModuleProgress completed (mkAttempts 2 1) "notes")))
    /\ own result !! "M02"
       = Some (Obj (of_module (mkModuleProgress available (mkAttempts 0 0) "")))
    /\ own result !! "M06" = own sample_started !! "M06".
Proof.
  assert (successor (moduleOrder sample_manifest) "M01" "M02") as Hnext.
  { exists 0%nat. split; [|reflexivity]. by apply indexOf_Some. }
  destruct (markCompleted_effect sample_manifest sample_started "M01")
    as (result & Hresult & Hdone & Hunlock & Hframe & _).
  exists result. split; [exact Hresult|]. split; [|split].
  - apply (Hdone (of_module (mkModuleProgress available (mkAttempts 2 1) "notes"))).
    reflexivity.
  - apply (Hunlock "M02" (of_module (mkModuleProgress locked (mkAttempts 0 0) ""))
             Hnext); [discriminate|reflexivity].
  - apply Hframe; [discriminate|].
    intros Hother. by pose proof (successor_unique _ _ _ _ Hnext Hother).
Defined.

(** C8. A module of the manifest under the id ["__proto__"] gets no
    entry: [mergeProgress] makes its progress the prototype of [modules],
    so that the module ids of the state are not those of the manifest. *)
Theorem mergeProgress_drops_proto_module :
  moduleOrder sample_proto_manifest = ["M01"; "__proto__"]
  /\ mergeProgress sample_proto_manifest None
     = Return {| own := {[ "M01" := Obj (of_module defaultModuleProgress) ]};
                 proto := Some defaultModuleProgress |}
  /\ mergeProgress sample_proto_manifest (Some sample_proto_saved)
     = Return {| own := {[ "M01" := Obj (of_module
                                           (mkModuleProgress completed (mkAttempts 1 1) "notes")) ]};
                 proto := Some (mkModuleProgress completed (mkAttempts 4 2) "text") |}
  /\ (forall saved, exists result,
        mergeProgress sample_proto_manifest saved = Return result
        /\ dom (own result) = ({[ "M01" ]} : gset string)
        /\ dom (own result) <> list_to_set (moduleOrder sample_proto_manifest)).
Proof.
  split_and!; [reflexivity|by vm_compute|by vm_compute|].
  intros saved.
  destruct (mergeProgress_returns sample_proto_manifest saved) as (result & -> & Hown & _).
  exists result. split; [done|].
  assert (dom (own result) = ({[ "M01" ]} : gset string)) as Hdom.
  { apply set_eq. intros k. rewrite elem_of_dom, Hown, elem_of_singleton.
    case_decide as Hk.
    - destruct Hk as [Hk Hne]. split; [intros _|by eauto].
      apply elem_of_cons in Hk as [->|Hk]; [done|].
      apply elem_of_cons in Hk as [->|Hk]; [done|]. by apply elem_of_nil in Hk.
    - split; [by intros [? ?]|]. intros ->. exfalso. apply Hk.
      split; [by left|done]. }
  split; [done|]. rewrite Hdom. intros Heq.
  assert ("__proto__" ∈ ({[ "M01" ]} : gset string)) as Hin.
  { rewrite Heq. apply elem_of_list_to_set. right. by left. }
  by apply elem_of_singleton in Hin.
Qed.

Lemma succ_exact n : (n < 2 ^ 53)%N -> succ n = (n + 1)%N.
Proof. intros Hn. unfold succ. by rewrite (proj2 (N.ltb_lt _ _) Hn). Qed.

Lemma markValidateAttempt_present moduleId current entry counters :
  own current !! moduleId = Some (Obj entry) ->
  entry_attempts entry = Some counters ->
  markValidateAttempt moduleId current
  = Return {| own := <[moduleId := Obj (with_attempts
                                          {| validate := succ (validate counters);
                                             simulate := simulate counters |} entry)]>
                       (own current);
              proto := None |}.
Proof.
  intros Hown Hcounters. unfold markValidateAttempt.
  apply (updateModule_present _ _ _ (Obj entry)); [done..|].
  simpl. by rewrite Hcounters.
Qed.

Lemma markSimulateAttempt_present moduleId current entry counters :
  own current !! moduleId = Some (Obj entry) ->
  entry_attempts entry = Some counters ->
  markSimulateAttempt moduleId current
  = Return {| own := <[moduleId := Obj (with_attempts
                                          {| validate := validate counters;
                                             simulate := succ (simulate counters) |} entry)]>
                       (own current);
              proto := None |}.
Proof.
  intros Hown Hcounters. unfold markSimulateAttempt.
  apply (updateModule_present _ _ _ (Obj entry)); [done..|].
  simpl. by rewrite Hcounters.
Qed.

(** C10. For a module object of the state, [markValidateAttempt] puts
    the number nearest to [validate + 1] in place of its validate counter
    and [markSimulateAttempt] the number nearest to [simulate + 1] in
    place of its simulate counter, which is the counter plus one as long
    as the counter is below 2^53. Status, teach-back text and the other
    counter of the module stay as they are, and so does every other
    entry. *)
Theorem markAttempt_effect (current : Modules) (moduleId : string)
    (entry : Entry) (counters : Attempts) :
  own current !! moduleId = Some (Obj entry) ->
  entry_attempts entry = Some counters ->
  (exists next,
     markValidateAttempt moduleId current = Return next
     /\ own next !! moduleId
        = Some (Obj {| entry_status := entry_status entry;
                       entry_attempts := Some {| validate := succ (validate counters);
                                                 simulate := simulate counters |};
                       entry_teachBack := entry_teachBack entry;
                       entry_spread := entry_spread entry |})
     /\ (forall other, other <> moduleId -> own next !! other = own current !! other))
  /\ (exists next,
        markSimulateAttempt moduleId current = Return next
        /\ own next !! moduleId
           = Some (Obj {| entry_status := entry_status entry;
                          entry_attempts := Some {| validate := validate counters;
                                                    simulate := succ (simulate counters) |};
                          entry_teachBack := entry_teachBack entry;
                          entry_spread := entry_spread entry |})
        /\ (forall other, other <> moduleId -> own next !! other = own current !! other))
  /\ ((validate counters < 2 ^ 53)%N -> succ (validate counters) = (validate counters + 1)%N)
  /\ ((simulate counters < 2 ^ 53)%N -> succ (simulate counters) = (simulate counters + 1)%N).
Proof.
  intros Hown Hcounters. split_and!; [| |apply succ_exact..].
  - eexists. split; [by apply markValidateAttempt_present|]. simpl.
    split; [by rewrite lookup_insert_eq|]. intros other Hother.
    by rewrite lookup_insert_ne.
  - eexists. split; [by apply markSimulateAttempt_present|]. simpl.
    split; [by rewrite lookup_insert_eq|]. intros other Hother.
    by rewrite lookup_insert_ne.
Qed.

(** C10, as stated, fails: at 2^53 the counter does not move. *)
Lemma markValidateAttempt_stalls :
  own sample_worn !! "M01"
  = Some (Obj (of_module (mkModuleProgress available (mkAttempts (2 ^ 53) 3) "notes")))
  /\ markValidateAttempt "M01" sample_worn = Return sample_worn
  /\ (forall next,
        markValidateAttempt "M01" sample_worn = Return next ->
        own next !! "M01"
        <> Some (Obj (of_module
                        (mkModuleProgress available (mkAttempts (2 ^ 53 + 1) 3) "notes")))).
Proof.
  split_and!; [by vm_compute|by vm_compute|].
  intros next Hnext.
  assert (markValidateAttempt "M01" sample_worn = Return sample_worn) as Hsame
    by by vm_compute.
  rewrite Hsame in Hnext. injection Hnext as <-. by vm_compute.
Qed.

Lemma markAttempt_effect_witness :
  own (typed sample_modules) !! "M01"
  = Some (Obj (of_module (mkModuleProgress available (mkAttempts 2 1) "notes")))
  /\ exists next,
       markValidateAttempt "M01" (typed sample_modules) = Return next
       /\ own next !! "M01"
          = Some (Obj (of_module (mkModuleProgress available (mkAttempts 3 1) "notes"))).
Proof.
  split; [reflexivity|].
  destruct (markAttempt_effect (typed sample_modules) "M01"
              (of_module (mkModuleProgress available (mkAttempts 2 1) "notes"))
              (mkAttempts 2 1) eq_refl eq_refl)
    as [(next & Hnext & Hentry & _) _].
  exists next. split; [exact Hnext|exact Hentry].
Defined.

End PlainFacts.

(** ** ModuleShell: requirement summaries *)

Lemma strict_eq_str_true v s : Js.strict_eq_str v s = true <-> v = JStr s.
Proof.
  destruct v; simpl; try (split; [discriminate|congruence]).
  rewrite bool_decide_eq_true. split; congruence.
Qed.








(** A requirement object whose payload is missing makes the function
    throw: the payload condition above is what a requirement object of the
    scenario types provides. *)
Example formatRequirementSummary_throws_without_payload :
  formatRequirementSummary Js.to_string (JObj [("type", JStr "nodeOrder")])
  = Throw "TypeError: map is not a function".
Proof. reflexivity. Qed.

Example formatRequirementSummary_nodeOrder :
  formatRequirementSummary Js.to_string
    (JObj [("type", JStr "nodeOrder");
           ("sequence", JArr [JStr "trigger.contactCreated"; JStr "sms.send"])])
  = Return "Order: trigger.contactCreated -> sms.send".
Proof. reflexivity. Qed.

(** ** ModuleShell: single-trigger mode *)

(** C5, as stated, fails: a single-workflow scenario without a
    [triggerIs] requirement does not get single-trigger mode. *)
Lemma singleTriggerMode_not_every_single_workflow :
  singleTriggerMode (Some (SingleWorkflow scenario_without_trigger_rule)) = false
  /\ ~ (forall scenario, singleTriggerMode (Some (SingleWorkflow scenario)) = true).
Proof.
  split; [reflexivity|].
  intros H. specialize (H scenario_without_trigger_rule). discriminate.
Qed.

(** C5, amended. Single-trigger mode is on exactly for the single-workflow
    scenarios that have a requirement of type [triggerIs]; it is off for a
    bundle and when there is no scenario. *)
Theorem singleTriggerMode_iff (scenario : Scenario) :
  (singleTriggerMode (Some (SingleWorkflow scenario)) = true <->
     exists requirement, requirement ∈ requirements scenario
                         /\ requirement_type requirement = JStr "triggerIs")
  /\ (forall bundleId bundleTitle workflows,
        singleTriggerMode (Some (Bundle bundleId bundleTitle workflows)) = false)
  /\ singleTriggerMode None = false.
Proof.
  repeat split; simpl.
  - intros (r & Hin & Ht)%existsb_exists. exists r.
    split; [by apply list_elem_of_In|]. by apply strict_eq_str_true.
  - intros (r & Hin & Ht). apply existsb_exists. exists r.
    split; [by apply list_elem_of_In|]. by apply strict_eq_str_true.
Qed.

(** ** ModuleShell: expected-field hints *)

Lemma set_insert_fold_elem (xs acc : list string) (x : string) :
  x ∈ fold_left set_insert xs acc <-> x ∈ acc \/ x ∈ xs.
Proof.
  revert acc. induction xs as [|y xs IH]; intros acc; simpl.
  - rewrite elem_of_nil. tauto.
  - rewrite IH, elem_of_cons. unfold set_insert. case_bool_decide as Hy.
    + split; [tauto|]. intros [?|[->|?]]; auto.
    + rewrite elem_of_app, list_elem_of_singleton. tauto.
Qed.

Lemma set_insert_fold_NoDup (xs acc : list string) :
  NoDup acc -> NoDup (fold_left set_insert xs acc).
Proof.
  revert acc. induction xs as [|y xs IH]; intros acc Hnd; simpl; [done|].
  apply IH. unfold set_insert. case_bool_decide as Hy; [done|].
  apply NoDup_app. split_and!; [done| |apply NoDup_singleton].
  intros x Hx ->%list_elem_of_singleton. done.
Qed.

Lemma array_from_set_elem xs x : x ∈ array_from_set xs <-> x ∈ xs.
Proof.
  unfold array_from_set. rewrite set_insert_fold_elem, elem_of_nil. tauto.
Qed.

Lemma array_from_set_NoDup xs : NoDup (array_from_set xs).
Proof. apply set_insert_fold_NoDup, NoDup_nil_2. Qed.

Lemma cleaned_not_blank vs s : s ∈ cleaned vs -> is_blank s = false.
Proof.
  unfold cleaned. rewrite list_elem_of_In, filter_In.
  intros [_ H]. by apply negb_true_iff.
Qed.

Lemma cleaned_app vs ws : cleaned (vs ++ ws) = cleaned vs ++ cleaned ws.
Proof. unfold cleaned. by rewrite List.filter_app, fmap_app, List.filter_app. Qed.

Lemma lookup_hint_collectHint hints nodeType fieldKey label rawValues newNote nt fk :
  lookup_hint (collectHint hints nodeType fieldKey label rawValues newNote) nt fk =
  if decide (cleaned rawValues <> [] /\ nt = nodeType /\ fk = fieldKey) then
    Some (collected_hint (lookup_hint hints nodeType fieldKey) label rawValues newNote)
  else lookup_hint hints nt fk.
Proof.
  unfold collectHint. destruct (cleaned rawValues) as [|c cs] eqn:Hc.
  - rewrite decide_False; [done|]. by intros [? _].
  - rewrite <- Hc. unfold lookup_hint at 1.
    destruct (decide (nt = nodeType)) as [->|Hnt].
    + rewrite lookup_insert_eq. simpl.
      destruct (decide (fk = fieldKey)) as [->|Hfk].
      * rewrite lookup_insert_eq, decide_True; [done|].
        split_and!; [|done..]. by rewrite Hc.
      * rewrite lookup_insert_ne by done.
        rewrite decide_False by (intros (_ & _ & ?); done).
        unfold lookup_hint. destruct (hints !! nodeType); [done|].
        simpl. apply lookup_empty.
    + rewrite lookup_insert_ne by done.
      rewrite decide_False by (intros (_ & ? & _); done). done.
Qed.

Lemma hints_clean_empty : hints_clean ∅.
Proof. intros nt fk hint. unfold lookup_hint. by rewrite lookup_empty. Qed.

Lemma hints_clean_collectHint hints nodeType fieldKey label rawValues newNote :
  hints_clean hints ->
  hints_clean (collectHint hints nodeType fieldKey label rawValues newNote).
Proof.
  intros Hclean nt fk hint. rewrite lookup_hint_collectHint.
  case_decide as Hcase; [|by apply Hclean].
  intros [= <-]. simpl. split; [apply array_from_set_NoDup|].
  intros v [Hv|Hv]%array_from_set_elem%elem_of_app.
  - destruct (lookup_hint hints nodeType fieldKey) as [existing|] eqn:He;
      simpl in Hv; [|by apply elem_of_nil in Hv].
    by apply (Hclean _ _ _ He).
  - by eapply cleaned_not_blank.
Qed.

Lemma hints_clean_fold {A} (f : ExpectedFieldHintsByNode -> A -> ExpectedFieldHintsByNode)
    (xs : list A) hints :
  (forall h x, hints_clean h -> hints_clean (f h x)) ->
  hints_clean hints -> hints_clean (fold_left f xs hints).
Proof.
  intros Hf. revert hints. induction xs as [|x xs IH]; intros hints Hh; simpl; auto.
Qed.

Lemma hints_clean_collectMessage hints message :
  hints_clean hints -> hints_clean (collectMessage hints message).
Proof.
  intros H. unfold collectMessage.
  repeat case_bool_decide; repeat apply hints_clean_collectHint; done.
Qed.

Lemma hints_clean_collectTestCase hints testCase :
  hints_clean hints -> hints_clean (collectTestCase hints testCase).
Proof.
  intros H. unfold collectTestCase.
  repeat match goal with
         | |- hints_clean (if ?b then _ else _) => destruct b
         | |- hints_clean (collectHint _ _ _ _ _ _) => apply hints_clean_collectHint
         | |- hints_clean (fold_left _ _ _) => apply hints_clean_fold
         | |- forall _ _, hints_clean _ -> hints_clean _ => intros ? ? ?
         | |- hints_clean (collectMessage _ _) => apply hints_clean_collectMessage
         end; done.
Qed.

Lemma buildExpectedFieldHints_clean scenario :
  hints_clean (buildExpectedFieldHints scenario).
Proof.
  destruct scenario as [[scenario|? ? ?]|]; simpl; try apply hints_clean_empty.
  apply hints_clean_fold; [|apply hints_clean_empty].
  intros. by apply hints_clean_collectTestCase.
Qed.

(** C6. Every hint of [buildExpectedFieldHints] lists its values without
    duplicates, and none of them is empty or only whitespace, however many
    test cases contribute to the same node type and field. A note that a
    hint already carries survives later contributions; the first one
    supplied is the one recorded. *)
Theorem buildExpectedFieldHints_values_clean (scenario : option ScenarioDefinition) :
  (forall nodeType byField fieldKey hint,
     buildExpectedFieldHints scenario !! nodeType = Some byField ->
     byField !! fieldKey = Some hint ->
     NoDup (values hint)
     /\ forall v, v ∈ values hint ->
          v <> "" /\ JsString.all_whitespace v = false)
  /\ (forall hints nodeType fieldKey label rawValues newNote,
        hints_clean hints ->
        let hints' := collectHint hints nodeType fieldKey label rawValues newNote in
        hints_clean hints'
        /\ (forall n, lookup_hint hints nodeType fieldKey ≫= note = Some n ->
              lookup_hint hints' nodeType fieldKey ≫= note = Some n)
        /\ (lookup_hint hints nodeType fieldKey ≫= note = None ->
            cleaned rawValues <> [] ->
            lookup_hint hints' nodeType fieldKey ≫= note = newNote)).
Proof.
  split.
  - intros nt byField fk hint Hnt Hfk.
    destruct (buildExpectedFieldHints_clean scenario nt fk hint) as [Hnd Hnb].
    { unfold lookup_hint. by rewrite Hnt. }
    split; [done|]. intros v Hv. apply Hnb in Hv.
    assert (JsString.all_whitespace v = false) as Hw.
    { destruct (JsString.all_whitespace v) eqn:Hw; [|done].
      apply is_blank_iff in Hw. congruence. }
    split; [|done]. by intros ->.
  - intros hints nt fk label rawValues newNote Hclean. cbv zeta. split_and!.
    + by apply hints_clean_collectHint.
    + intros n Hn. rewrite lookup_hint_collectHint.
      case_decide; [|done]. simpl. by rewrite Hn.
    + intros Hn Hc. rewrite lookup_hint_collectHint.
      rewrite decide_True by done. simpl. by rewrite Hn.
Qed.

(** *** Where each expected outcome goes *)

Lemma fold_apply_call_app calls1 calls2 hints :
  fold_left apply_call (calls1 ++ calls2) hints
  = fold_left apply_call calls2 (fold_left apply_call calls1 hints).
Proof. apply fold_left_app. Qed.

Lemma fold_calls_fmap {A} (mk : A -> HintCall) (xs : list A) hints :
  fold_left (fun h x => apply_call h (mk x)) xs hints
  = fold_left apply_call (mk <$> xs) hints.
Proof. revert hints. induction xs as [|x xs IH]; intros hints; simpl; auto. Qed.

Lemma fold_calls_bind {A} (f : ExpectedFieldHintsByNode -> A -> ExpectedFieldHintsByNode)
    (calls : A -> list HintCall) (xs : list A) hints :
  (forall h x, f h x = fold_left apply_call (calls x) h) ->
  fold_left f xs hints = fold_left apply_call (xs ≫= calls) hints.
Proof.
  intros Hf. revert hints. induction xs as [|x xs IH]; intros hints; simpl; [done|].
  by rewrite fold_apply_call_app, <- Hf, IH.
Qed.

Lemma collectMessage_calls hints message :
  collectMessage hints message = fold_left apply_call (message_calls message) hints.
Proof.
  unfold collectMessage, message_calls. by repeat case_bool_decide.
Qed.

Lemma collectTestCase_calls hints testCase :
  collectTestCase hints testCase = fold_left apply_call (testCase_calls testCase) hints.
Proof.
  unfold collectTestCase, testCase_calls. cbv zeta.
  rewrite !fold_apply_call_app.
  rewrite (fold_calls_bind collectMessage message_calls)
    by (intros; apply collectMessage_calls).
  repeat match goal with
         | |- context [has_length ?x] => destruct (has_length x)
         end; rewrite <- ?fold_calls_fmap; reflexivity.
Qed.

Lemma buildExpectedFieldHints_calls scenario :
  buildExpectedFieldHints (Some (SingleWorkflow scenario))
  = fold_left apply_call (testCases scenario ≫= testCase_calls) ∅.
Proof.
  simpl. apply fold_calls_bind. intros. apply collectTestCase_calls.
Qed.

Lemma hint_values_apply_call hints call nt fk v :
  v ∈ hint_values (apply_call hints call) nt fk <->
  v ∈ hint_values hints nt fk
  \/ (call_nodeType call = nt /\ call_fieldKey call = fk /\ v ∈ cleaned (call_values call)).
Proof.
  unfold hint_values, apply_call. rewrite lookup_hint_collectHint.
  case_decide as Hcase.
  - destruct Hcase as (Hne & -> & ->). simpl.
    rewrite array_from_set_elem, elem_of_app. tauto.
  - split; [tauto|]. intros [?|(<- & <- & Hv)]; [done|].
    exfalso. apply Hcase. split_and!; [|done..].
    intros Hnil. rewrite Hnil in Hv. by apply elem_of_nil in Hv.
Qed.

Lemma hint_values_fold calls hints nt fk v :
  v ∈ hint_values (fold_left apply_call calls hints) nt fk <->
  v ∈ hint_values hints nt fk
  \/ exists call, call ∈ calls /\ call_nodeType call = nt /\ call_fieldKey call = fk
                  /\ v ∈ cleaned (call_values call).
Proof.
  revert hints. induction calls as [|c calls IH]; intros hints; simpl.
  - split; [tauto|]. intros [?|(c & Hc & _)]; [done|]. by apply elem_of_nil in Hc.
  - rewrite IH, hint_values_apply_call. split.
    + intros [[?|(? & ? & ?)]|(c' & ? & ?)]; [tauto| |].
      * right. exists c. split; [by left|done].
      * right. exists c'. split; [by right|done].
    + intros [?|(c' & [->|?]%elem_of_cons & ?)]; [tauto|tauto|].
      right. by exists c'.
Qed.

Lemma hints_inhabited_fold calls hints :
  hints_inhabited hints -> hints_inhabited (fold_left apply_call calls hints).
Proof.
  revert hints. induction calls as [|c calls IH]; intros hints Hh; simpl; [done|].
  apply IH. intros nt fk hint. unfold apply_call. rewrite lookup_hint_collectHint.
  case_decide as Hcase; [|by apply Hh].
  destruct Hcase as (Hne & _ & _). intros [= <-]. simpl. intros Hnil.
  destruct (cleaned (call_values c)) as [|s rest] eqn:Hc; [done|].
  assert (s ∈ array_from_set
            (from_option values []
               (lookup_hint hints (call_nodeType c) (call_fieldKey c)) ++ s :: rest)) as Hs.
  { apply array_from_set_elem, elem_of_app. right. by left. }
  rewrite Hnil in Hs. by apply elem_of_nil in Hs.
Qed.

Lemma elem_of_if_list {A} (b : bool) (l : list A) x :
  x ∈ (if b then l else []) <-> b = true /\ x ∈ l.
Proof.
  destruct b; [tauto|]. split; [by intros ?%elem_of_nil|intros [? _]; done].
Qed.

Lemma has_length_true {A} (xs : option (list A)) :
  has_length xs = true <-> exists l, xs = Some l /\ l <> [].
Proof.
  destruct xs as [[|x l]|]; simpl; split; try done.
  - by intros (l & [= <-] & ?).
  - intros _. by eexists.
  - by intros (l & ? & _).
Qed.

Lemma cleaned_elem_nonempty vs v : v ∈ cleaned vs -> vs <> [].
Proof. intros Hv ->. by apply elem_of_nil in Hv. Qed.

(** The calls a test case makes are the contributions of the routing
    table. *)
Lemma testCase_calls_routed testCase nt fk v :
  (exists call, call ∈ testCase_calls testCase
                /\ call_nodeType call = nt /\ call_fieldKey call = fk
                /\ v ∈ cleaned (call_values call))
  <-> exists rawValues, routed (expect testCase) nt fk rawValues /\ v ∈ cleaned rawValues.
Proof.
  split.
  - intros (c & Hc & <- & <- & Hv). unfold testCase_calls in Hc. cbv zeta in Hc.
    rewrite !elem_of_app, !elem_of_if_list, !has_length_true in Hc.
    destruct Hc as [Hc|[Hc|[Hc|[Hc|[Hc|[Hc|[Hc|[Hc|Hc]]]]]]]].
    + apply list_elem_of_bind in Hc as (m & Hc & Hm).
      destruct (messages (expect testCase)) as [all|] eqn:Hall;
        [|by apply elem_of_nil in Hm].
      unfold message_calls in Hc. rewrite elem_of_app, !elem_of_if_list in Hc.
      rewrite !bool_decide_eq_true in Hc.
      destruct Hc as [[Hch Hc]|[Hch Hc]].
      * apply list_elem_of_singleton in Hc as ->. eexists. split; [|done].
        by eapply routed_sms_body.
      * apply elem_of_cons in Hc as [->|Hc].
        -- eexists. split; [|done]. by eapply routed_email_body.
        -- apply list_elem_of_singleton in Hc as ->. eexists. split; [|done].
           by eapply routed_email_subject.
    + destruct Hc as [(l & Hl & _) Hc]. rewrite Hl in Hc.
      apply list_elem_of_singleton in Hc as ->. eexists. split; [|done].
      by apply routed_tagsAdded.
    + destruct Hc as [(l & Hl & _) Hc]. rewrite Hl in Hc.
      apply list_elem_of_singleton in Hc as ->. eexists. split; [|done].
      by apply routed_tagsRemoved.
    + destruct Hc as [(l & Hl & _) Hc]. rewrite Hl in Hc.
      apply elem_of_cons in Hc as [->|Hc].
      * eexists. split; [|done]. by apply routed_fieldsEqual_key.
      * apply list_elem_of_singleton in Hc as ->. eexists. split; [|done].
        by apply routed_fieldsEqual_value.
    + destruct Hc as [(l & Hl & _) Hc]. rewrite Hl in Hc.
      apply list_elem_of_fmap in Hc as (x & -> & Hx). eexists. split; [|done].
      by eapply routed_tasksCreated.
    + destruct Hc as [(l & Hl & _) Hc]. rewrite Hl in Hc.
      apply list_elem_of_fmap in Hc as (x & -> & Hx). eexists. split; [|done].
      by eapply routed_systemTasksCreated.
    + destruct Hc as [(l & Hl & _) Hc]. rewrite Hl in Hc.
      apply list_elem_of_fmap in Hc as (x & -> & Hx). eexists. split; [|done].
      by eapply routed_notifications.
    + destruct Hc as [(l & Hl & _) Hc]. rewrite Hl in Hc.
      apply list_elem_of_fmap in Hc as (x & -> & Hx). eexists. split; [|done].
      by eapply routed_systemNotifications.
    + destruct Hc as [(l & Hl & _) Hc]. rewrite Hl in Hc.
      apply list_elem_of_fmap in Hc as (x & -> & Hx). eexists. split; [|done].
      by eapply routed_webhooksFired.
  - intros (vs & Hr & Hv). unfold testCase_calls. cbv zeta.
    setoid_rewrite elem_of_app. 
    destruct Hr as [all m Hall Hm Hch|all m Hall Hm Hch|all m Hall Hm Hch
                   |l Hl|l Hl|l Hl|l Hl|l x Hl Hx|l x Hl Hx|l x Hl Hx|l x Hl Hx|l x Hl Hx].
    + eexists (mkHintCall _ _ _ _ _). split; [|done]. left.
      apply list_elem_of_bind. exists m. rewrite Hall. split; [|done].
      unfold message_calls. rewrite bool_decide_eq_true_2 by done.
      apply elem_of_app. left. by left.
    + eexists (mkHintCall _ _ _ _ _). split; [|done]. left.
      apply list_elem_of_bind. exists m. rewrite Hall. split; [|done].
      unfold message_calls. rewrite (bool_decide_eq_true_2 (_ = "email")) by done.
      apply elem_of_app. right. by left.
    + eexists (mkHintCall _ _ _ _ _). split; [|done]. left.
      apply list_elem_of_bind. exists m. rewrite Hall. split; [|done].
      unfold message_calls. rewrite (bool_decide_eq_true_2 (_ = "email")) by done.
      apply elem_of_app. right. right. by left.
    + eexists (mkHintCall _ _ _ _ _). split; [|done]. right.
      repeat setoid_rewrite elem_of_app. left.
      apply elem_of_if_list. rewrite Hl. split; [|by left].
      apply has_length_true. eexists. split; [done|]. by eapply cleaned_elem_nonempty.
    + eexists (mkHintCall _ _ _ _ _). split; [|done]. right.
      repeat setoid_rewrite elem_of_app. right. left.
      apply elem_of_if_list. rewrite Hl. split; [|by left].
      apply has_length_true. eexists. split; [done|]. by eapply cleaned_elem_nonempty.
    + eexists (mkHintCall _ _ _ _ _). split; [|done]. right.
      repeat setoid_rewrite elem_of_app. right. right. left.
      apply elem_of_if_list. rewrite Hl. split; [|by left].
      apply has_length_true. eexists. split; [done|].
      apply cleaned_elem_nonempty in Hv. by intros ->.
    + eexists (mkHintCall _ _ _ _ _). split; [|done]. right.
      repeat setoid_rewrite elem_of_app. right. right. left.
      apply elem_of_if_list. rewrite Hl. split; [|right; by left].
      apply has_length_true. eexists. split; [done|].
      apply cleaned_elem_nonempty in Hv. by intros ->.
    + eexists (mkHintCall _ _ _ _ _). split; [|done]. right.
      repeat setoid_rewrite elem_of_app. do 3 right. left.
      apply elem_of_if_list. rewrite Hl. split.
      * apply has_length_true. eexists. split; [done|]. intros ->.
        by apply elem_of_nil in Hx.
      * apply list_elem_of_fmap. by exists x.
    + eexists (mkHintCall _ _ _ _ _). split; [|done]. right.
      repeat setoid_rewrite elem_of_app. do 4 right. left.
      apply elem_of_if_list. rewrite Hl. split.
      * apply has_length_true. eexists. split; [done|]. intros ->.
        by apply elem_of_nil in Hx.
      * apply list_elem_of_fmap. by exists x.
    + eexists (mkHintCall _ _ _ _ _). split; [|done]. right.
      repeat setoid_rewrite elem_of_app. do 5 right. left.
      apply elem_of_if_list. rewrite Hl. split.
      * apply has_length_true. eexists. split; [done|]. intros ->.
        by apply elem_of_nil in Hx.
      * apply list_elem_of_fmap. by exists x.
    + eexists (mkHintCall _ _ _ _ _). split; [|done]. right.
      repeat setoid_rewrite elem_of_app. do 6 right. left.
      apply elem_of_if_list. rewrite Hl. split.
      * apply has_length_true. eexists. split; [done|]. intros ->.
        by apply elem_of_nil in Hx.
      * apply list_elem_of_fmap. by exists x.
    + eexists (mkHintCall _ _ _ _ _). split; [|done]. right.
      repeat setoid_rewrite elem_of_app. do 7 right.
      apply elem_of_if_list. rewrite Hl. split.
      * apply has_length_true. eexists. split; [done|]. intros ->.
        by apply elem_of_nil in Hx.
      * apply list_elem_of_fmap. by exists x.
Qed.

(** C3. For a single-workflow scenario, the values of the hint for a field
    of a node type are exactly the (cleaned) values that the routing table
    sends there from the test cases' expected outcomes, and a hint exists
    exactly when there is such a value; for a bundle and for a missing
    scenario the hint map is empty. *)
Theorem buildExpectedFieldHints_routing (scenario : Scenario)
    (nodeType : NodeType) (fieldKey : string) :
  let hints := buildExpectedFieldHints (Some (SingleWorkflow scenario)) in
  (forall v, v ∈ hint_values hints nodeType fieldKey <->
     exists testCase rawValues,
       testCase ∈ testCases scenario
       /\ routed (expect testCase) nodeType fieldKey rawValues
       /\ v ∈ cleaned rawValues)
  /\ (is_Some (lookup_hint hints nodeType fieldKey) <->
      exists v, v ∈ hint_values hints nodeType fieldKey)
  /\ (forall bundleId bundleTitle workflows,
        buildExpectedFieldHints (Some (Bundle bundleId bundleTitle workflows)) = ∅)
  /\ buildExpectedFieldHints None = ∅.
Proof.
  cbv zeta. rewrite buildExpectedFieldHints_calls. split_and!; try done.
  - intros v. rewrite hint_values_fold. unfold hint_values at 1, lookup_hint at 1.
    rewrite lookup_empty. simpl. rewrite elem_of_nil. split.
    + intros [[]|(c & (tc & Hc & Htc)%list_elem_of_bind & Hnt & Hfk & Hv)].
      destruct (proj1 (testCase_calls_routed tc nodeType fieldKey v)) as (vs & ? & ?);
        [by exists c|]. by exists tc, vs.
    + intros (tc & vs & Htc & Hr & Hv). right.
      destruct (proj2 (testCase_calls_routed tc nodeType fieldKey v)) as (c & ? & ?);
        [by exists vs|]. exists c. split; [|done].
      apply list_elem_of_bind. by exists tc.
  - split.
    + intros [hint Hhint]. unfold hint_values. rewrite Hhint. simpl.
      assert (values hint <> []) as Hne.
      { eapply hints_inhabited_fold; [|done].
        intros nt fk h. unfold lookup_hint. by rewrite lookup_empty. }
      destruct (values hint) as [|v vs]; [done|]. exists v. by left.
    + intros [v Hv]. unfold hint_values in Hv.
      destruct (lookup_hint _ _ _); [done|]. by apply elem_of_nil in Hv.
Qed.

(** ** The outcome comparator *)

Section OutcomeComparatorFacts.

Import OutcomeComparator.

Lemma matches_kind assertion record :
  matches assertion record = true -> assertion_kind assertion = record_kind record.
Proof. destruct assertion, record; simpl; congruence. Qed.

Lemma check_assertion_found trace assertion :
  is_found (check_assertion trace assertion) = true <->
  exists record, record ∈ records trace /\ matches assertion record = true.
Proof.
  destruct trace as [|rs]; simpl.
  - split; [done|]. intros (r & Hr & _). by apply elem_of_nil in Hr.
  - destruct (existsb (matches assertion) rs) eqn:He; simpl.
    + apply existsb_exists in He as (r & Hr & Hm). split; [|done].
      intros _. exists r. split; [by apply list_elem_of_In|done].
    + split; [done|]. intros (r & Hr & Hm).
      assert (existsb (matches assertion) rs = true) as Ht; [|congruence].
      apply existsb_exists. exists r. split; [by apply list_elem_of_In|done].
Qed.

Lemma compare_passed_iff trace expectedOutcomes :
  passed (compare trace expectedOutcomes) = true <->
  forall assertion, assertion ∈ expectedOutcomes ->
    exists record, record ∈ records trace /\ matches assertion record = true.
Proof.
  unfold compare; simpl. rewrite forallb_forall. split.
  - intros H a Ha. apply check_assertion_found.
    apply (H {| assertion := a; assertion_status := check_assertion trace a |}).
    apply list_elem_of_In, list_elem_of_fmap. by exists a.
  - intros H res (a & -> & Ha)%list_elem_of_In%list_elem_of_fmap. simpl.
    by apply check_assertion_found, H.
Qed.

(** C7. The comparison passes iff every expected assertion matches at
    least one record of the trace, a record of the assertion's kind;
    records that match no assertion never make a passing comparison
    fail. *)
Theorem compare_passes_iff (trace : EffectTrace) (expectedOutcomes : list Assertion) :
  (passed (compare trace expectedOutcomes) = true <->
     forall assertion, assertion ∈ expectedOutcomes ->
       exists record, record ∈ records trace
                      /\ matches assertion record = true
                      /\ record_kind record = assertion_kind assertion)
  /\ (forall before extra after,
        trace = Effects (before ++ after) ->
        passed (compare trace expectedOutcomes) = true ->
        passed (compare (Effects (before ++ extra ++ after)) expectedOutcomes) = true).
Proof.
  split.
  - rewrite compare_passed_iff. split.
    + intros H a Ha. destruct (H a Ha) as (r & Hr & Hm). exists r.
      split_and!; [done..|]. symmetry. by apply matches_kind.
    + intros H a Ha. destruct (H a Ha) as (r & Hr & Hm & _). by exists r.
  - intros before extra after ->. rewrite !compare_passed_iff. simpl.
    intros H a Ha. destruct (H a Ha) as (r & Hr & Hm). exists r. split; [|done].
    rewrite !elem_of_app in *. tauto.
Qed.

End OutcomeComparatorFacts.

(** ** The builders over the store *)

Section StoreFacts.

Import Store.

Section Calculus.

Context {A B : Type}.

Lemma wp_ret (a : A) h (Q : A -> heap -> Prop) : Q a h -> wp (ret a) h Q.
Proof. done. Qed.

Lemma wp_bind (m : M A) (k : A -> M B) h (Q : B -> heap -> Prop) :
  wp m h (fun a h' => wp (k a) h' Q) -> wp (bind m k) h Q.
Proof. unfold wp, bind. by destruct (m h) as [[a|e] h']. Qed.

Lemma wp_mono (m : M A) h (Q Q' : A -> heap -> Prop) :
  wp m h Q -> (forall a h', Q a h' -> Q' a h') -> wp m h Q'.
Proof. unfold wp. destruct (m h) as [[a|e] h']; [auto|done]. Qed.

Lemma wp_returns (m : M A) h (Q : A -> heap -> Prop) :
  wp m h Q -> exists a h', m h = (Return a, h') /\ Q a h'.
Proof. unfold wp. destruct (m h) as [[a|e] h']; [eauto|done]. Qed.

End Calculus.

Lemma wp_read_heap h (Q : heap -> heap -> Prop) : Q h h -> wp read_heap h Q.
Proof. done. Qed.

Lemma wp_alloc o h (Q : val -> heap -> Prop) :
  (forall l h', h !! l = None -> h ⊆ h' -> h' !! l = Some o -> Q (VRef l) h') ->
  wp (alloc o) h Q.
Proof.
  intros HQ. unfold wp, alloc. simpl.
  assert (h !! fresh (dom h) = None) as Hfresh
    by apply not_elem_of_dom, is_fresh.
  apply HQ; [done|by apply insert_subseteq|by rewrite lookup_insert_eq].
Qed.

Lemma wp_get_object h l props key (Q : val -> heap -> Prop) :
  h !! l = Some (Obj props) -> Q (prop props key) h -> wp (get (VRef l) key) h Q.
Proof. intros Hl HQ. unfold wp, get. by rewrite Hl. Qed.

(** A read that only has to succeed. *)
Lemma wp_get_any h v key (Q : val -> heap -> Prop) :
  (exists l o, v = VRef l /\ h !! l = Some o) ->
  (forall x, Q x h) -> wp (get v key) h Q.
Proof.
  intros (l & o & -> & Hl) HQ. unfold wp, get. rewrite Hl. by destruct o.
Qed.

Lemma wp_get_optional_nullish h v key (Q : val -> heap -> Prop) :
  is_nullish v = true -> Q VUndefined h -> wp (get_optional v key) h Q.
Proof. intros Hn HQ. unfold get_optional. by rewrite Hn. Qed.

Lemma wp_get_optional_object h l props key (Q : val -> heap -> Prop) :
  h !! l = Some (Obj props) -> Q (prop props key) h ->
  wp (get_optional (VRef l) key) h Q.
Proof. intros. unfold get_optional. simpl. by eapply wp_get_object. Qed.

Lemma wp_has_prop h l props key (Q : bool -> heap -> Prop) :
  h !! l = Some (Obj props) -> Q (bool_decide (is_Some (props !! key))) h ->
  wp (has_prop key (VRef l)) h Q.
Proof. intros Hl HQ. unfold wp, has_prop. by rewrite Hl. Qed.

Lemma wp_items_of h l items (Q : list val -> heap -> Prop) :
  h !! l = Some (Arr items) -> Q items h -> wp (items_of (VRef l)) h Q.
Proof. intros Hl HQ. unfold wp, items_of. by rewrite Hl. Qed.

Lemma wp_own_props_object h l props (Q : gmap string val -> heap -> Prop) :
  h !! l = Some (Obj props) -> Q props h -> wp (own_props (VRef l)) h Q.
Proof. intros Hl HQ. unfold wp, own_props. by rewrite Hl. Qed.

Lemma wp_set_prop h l props key x (Q : unit -> heap -> Prop) :
  h !! l = Some (Obj props) ->
  Q tt (<[l := Obj (<[key := x]> props)]> h) ->
  wp (set_prop (VRef l) key x) h Q.
Proof. intros Hl HQ. unfold wp, set_prop. by rewrite Hl. Qed.

(** Loops, with an invariant [I] on the store. *)
Lemma wp_mapM {A B} (I : heap -> Prop) (R : B -> Prop) (f : A -> M B) xs h
    (Q : list B -> heap -> Prop) :
  I h ->
  (forall x h, x ∈ xs -> I h -> wp (f x) h (fun y h' => I h' /\ R y)) ->
  (forall ys h', I h' -> Forall R ys -> length ys = length xs -> Q ys h') ->
  wp (mapM f xs) h Q.
Proof.
  revert h Q. induction xs as [|x xs IH]; intros h Q HI Hf HQ; simpl.
  - apply wp_ret. by apply HQ.
  - apply wp_bind. eapply wp_mono; [apply Hf; [by left|done]|].
    intros y h' [HI' HR]. apply wp_bind. apply IH; [done| |].
    + intros x' h'' Hx'. apply Hf. by right.
    + intros ys h'' HI'' HRs Hlen. apply wp_ret. apply HQ; [done| |].
      * by constructor.
      * simpl. by rewrite Hlen.
Qed.

Lemma wp_forEach {A} (I : heap -> Prop) (f : A -> M unit) xs h
    (Q : unit -> heap -> Prop) :
  I h ->
  (forall x h, x ∈ xs -> I h -> wp (f x) h (fun _ h' => I h')) ->
  (forall h', I h' -> Q tt h') ->
  wp (forEach f xs) h Q.
Proof.
  revert h. induction xs as [|x xs IH]; intros h HI Hf HQ; simpl.
  - apply wp_ret. by apply HQ.
  - apply wp_bind. eapply wp_mono; [apply Hf; [by left|done]|].
    intros [] h' HI'. apply IH; [done| |done].
    intros x' h'' Hx'. apply Hf. by right.
Qed.

Lemma wp_findM (p : val -> M bool) xs h (Q : val -> heap -> Prop) :
  (forall x, x ∈ xs -> wp (p x) h (fun _ h' => h' = h)) ->
  (forall r, r = VUndefined \/ r ∈ xs -> Q r h) ->
  wp (findM p xs) h Q.
Proof.
  induction xs as [|x xs IH]; intros Hp HQ; simpl.
  - apply wp_ret. apply HQ. by left.
  - apply wp_bind. eapply wp_mono; [apply Hp; by left|].
    intros found h' ->. destruct found.
    + apply wp_ret. apply HQ. right. by left.
    + apply IH.
      * intros x' Hx'. apply Hp. by right.
      * intros r [->|Hr]; apply HQ; [by left|]. right. by right.
Qed.

(** *** Well-formedness only grows with the store *)

Lemma array_at_mono h h' (P P' : val -> Prop) v :
  h ⊆ h' -> (forall x, P x -> P' x) -> array_at h P v -> array_at h' P' v.
Proof.
  intros Hsub HP (l & items & -> & Hl & Hall).
  exists l, items. split_and!; [done|by eapply lookup_weaken|].
  eapply Forall_impl; eauto.
Qed.

Lemma object_at_mono h h' (P P' : gmap string val -> Prop) v :
  h ⊆ h' -> (forall props, P props -> P' props) -> object_at h P v -> object_at h' P' v.
Proof.
  intros Hsub HP (l & props & -> & Hl & Hprops).
  exists l, props. split_and!; [done|by eapply lookup_weaken|by apply HP].
Qed.

Lemma optional_mono (P P' : val -> Prop) v :
  (forall x, P x -> P' x) -> optional P v -> optional P' v.
Proof. intros HP [?|?]; [by left|right; by apply HP]. Qed.

Lemma any_array_mono h h' v : h ⊆ h' -> any_array h v -> any_array h' v.
Proof. intros Hsub. by apply array_at_mono. Qed.

Lemma carrier_at_mono h h' key v : h ⊆ h' -> carrier_at h key v -> carrier_at h' key v.
Proof.
  intros Hsub. apply object_at_mono; [done|]. intros props. by apply any_array_mono.
Qed.

Lemma requirement_at_mono h h' v : h ⊆ h' -> requirement_at h v -> requirement_at h' v.
Proof.
  intros Hsub. apply object_at_mono; [done|].
  intros props (H1 & H2 & H3).
  split_and!; intros Ht; eapply any_array_mono; eauto.
Qed.

Lemma allowedNodes_at_mono h h' v : h ⊆ h' -> allowedNodes_at h v -> allowedNodes_at h' v.
Proof.
  intros Hsub. apply object_at_mono; [done|].
  intros props (H1 & H2 & H3). split_and!; by eapply any_array_mono.
Qed.

Lemma expect_at_mono h h' v : h ⊆ h' -> expect_at h v -> expect_at h' v.
Proof.
  intros Hsub. apply object_at_mono; [done|].
  intros props (H1 & H2 & H3 & H4 & H5 & H6 & H7 & H8 & H9).
  split_and!;
    (eapply optional_mono; [|eassumption]); intros x;
    first [ by apply any_array_mono
          | apply array_at_mono; [done|]; intros y; by apply carrier_at_mono
          | apply array_at_mono; [done|]; intros y; by apply object_at_mono ].
Qed.

Lemma testCase_at_mono h h' v : h ⊆ h' -> testCase_at h v -> testCase_at h' v.
Proof.
  intros Hsub. apply object_at_mono; [done|]. intros props. by apply expect_at_mono.
Qed.

Lemma single_at_mono h h' v : h ⊆ h' -> single_at h v -> single_at h' v.
Proof.
  intros Hsub. apply object_at_mono; [done|].
  intros props (H1 & H2 & H3 & H4 & H5). split_and!.
  - done.
  - eapply optional_mono; [|eassumption]. intros x. by apply any_array_mono.
  - by eapply allowedNodes_at_mono.
  - eapply array_at_mono; [done| |eassumption]. intros x. by apply requirement_at_mono.
  - eapply array_at_mono; [done| |eassumption]. intros x. by apply testCase_at_mono.
Qed.

Lemma strict_eq_str_is v s : strict_eq_str v s = true -> v = VStr s.
Proof.
  destruct v; simpl; try discriminate. by intros ->%bool_decide_eq_true.
Qed.

(** *** What each builder needs and leaves *)

Section Specs.

Variable to_string : heap -> val -> string.
Variable getNodeDisplayName : val -> string.
Variable getGhlWhere : val -> val.

Lemma string_of_spec v h (Q : string -> heap -> Prop) :
  (forall s, Q s h) -> wp (string_of to_string v) h Q.
Proof. intros HQ. unfold string_of. apply wp_bind, wp_read_heap, wp_ret, HQ. Qed.

Lemma join_spec v sep h (Q : string -> heap -> Prop) :
  any_array h v -> (forall s, Q s h) -> wp (join to_string v sep) h Q.
Proof.
  intros (l & items & -> & Hl & _) HQ. unfold join.
  apply wp_bind. eapply wp_items_of; [done|].
  apply wp_bind, wp_read_heap, wp_ret, HQ.
Qed.

Lemma names_of_spec v h (Q : list val -> heap -> Prop) :
  any_array h v -> (forall names, Q names h) -> wp (names_of getNodeDisplayName v) h Q.
Proof.
  intros (l & items & -> & Hl & _) HQ. unfold names_of.
  apply wp_bind. eapply wp_items_of; [done|]. apply wp_ret, HQ.
Qed.

Lemma join_names_spec v sep h (Q : string -> heap -> Prop) :
  any_array h v -> (forall s, Q s h) ->
  wp (join_names to_string getNodeDisplayName v sep) h Q.
Proof.
  intros Hv HQ. unfold join_names.
  apply wp_bind, names_of_spec; [done|]. intros names.
  apply wp_bind, wp_read_heap, wp_ret, HQ.
Qed.

(** [formatRequirementSummary] reads the requirement and leaves the store
    as it is. *)
Lemma formatRequirementSummary_spec v h (Q : string -> heap -> Prop) :
  requirement_at h v -> (forall s, Q s h) ->
  wp (formatRequirementSummary to_string getNodeDisplayName v) h Q.
Proof.
  intros (l & props & -> & Hl & Hfields & Hsequence & HnodeTypes) HQ.
  unfold formatRequirementSummary.
  apply wp_bind. eapply wp_get_object; [done|].
  repeat match goal with
         | |- wp (if strict_eq_str ?t ?k then _ else _) _ _ =>
             let E := fresh "E" in
             destruct (strict_eq_str t k) eqn:E;
             [apply strict_eq_str_is in E|clear E]
         end;
    repeat first
      [ apply wp_ret, HQ
      | eapply wp_get_object; [exact Hl|]
      | apply string_of_spec; intros ?
      | apply join_spec; [by auto|intros ?]
      | apply join_names_spec; [by auto|intros ?]
      | apply wp_bind ].
Qed.

Lemma allowedSteps_of_spec l props h (Q : val -> heap -> Prop) :
  h !! l = Some (Obj props) ->
  allowedNodes_at h (prop props "allowedNodes") ->
  (forall la h', h !! la = None -> h ⊆ h' -> is_Some (h' !! la) -> Q (VRef la) h') ->
  wp (allowedSteps_of getNodeDisplayName (VRef l)) h Q.
Proof.
  intros Hl (ln & nodes & Hn & Hln & Htriggers & Hactions & Hlogic) HQ.
  unfold allowedSteps_of.
  repeat first
    [ eapply wp_get_object; [first [exact Hl|exact Hln]|]
    | progress rewrite Hn
    | apply names_of_spec; [assumption|intros ?]
    | apply wp_bind ].
  apply wp_alloc. intros la h' Hla Hsub Hla'. apply HQ; [done..|by eexists].
Qed.

Lemma requirement_summaries_of_spec l props h (Q : val -> heap -> Prop) :
  h !! l = Some (Obj props) ->
  array_at h (requirement_at h) (prop props "requirements") ->
  (forall la h', h !! la = None -> h ⊆ h' -> is_Some (h' !! la) -> Q (VRef la) h') ->
  wp (requirement_summaries_of to_string getNodeDisplayName (VRef l)) h Q.
Proof.
  intros Hl (lr & reqs & Hr & Hlr & Hreqs) HQ.
  unfold requirement_summaries_of.
  apply wp_bind. eapply wp_get_object; [done|]. rewrite Hr.
  apply wp_bind. eapply wp_items_of; [done|].
  apply wp_bind.
  apply (wp_mapM (fun h' => h' = h) (fun _ => True)); [done| |].
  - intros x h' Hx ->. apply formatRequirementSummary_spec; [|done].
    rewrite Forall_forall in Hreqs. by apply Hreqs.
  - intros summaries h' -> _ _.
    apply wp_alloc. intros la h' Hla Hsub Hla'. apply HQ; [done..|by eexists].
Qed.

Lemma fresh_below (h0 h : heap) l : h0 ⊆ h -> h !! l = None -> h0 !! l = None.
Proof.
  intros Hsub Hl. destruct (h0 !! l) as [o|] eqn:Ho; [|done].
  eapply lookup_weaken in Ho; [|done]. congruence.
Qed.

(** Allocating the result: the last step of each builder. *)
Lemma wp_alloc_result h0 h o :
  h0 ⊆ h -> wp (alloc o) h (fun r h' => h0 ⊆ h' /\ fresh_in h0 h' r).
Proof.
  intros Hsub. apply wp_alloc. intros l h' Hl Hsub' Hl'. split; [by etrans|].
  exists l. split_and!; [done|by eapply fresh_below|by eexists].
Qed.

(** The summary of one single-workflow scenario object, up to the point
    where the result is put together. *)
Lemma single_summary_spec h0 h l props (Q : val -> heap -> Prop)
    (finish : val -> val -> M val) :
  h0 ⊆ h ->
  h !! l = Some (Obj props) ->
  allowedNodes_at h (prop props "allowedNodes") ->
  array_at h (requirement_at h) (prop props "requirements") ->
  (forall allowedSteps requirements h',
     h ⊆ h' -> wp (finish allowedSteps requirements) h' Q) ->
  wp (bind (allowedSteps_of getNodeDisplayName (VRef l)) (fun allowedSteps =>
      bind (requirement_summaries_of to_string getNodeDisplayName (VRef l))
        (fun requirements => finish allowedSteps requirements))) h Q.
Proof.
  intros Hsub0 Hl Hnodes Hreqs Hfinish.
  apply wp_bind, (allowedSteps_of_spec l props); [done..|].
  intros la h1 Hla Hsub1 Hla1.
  apply wp_bind, (requirement_summaries_of_spec l props).
  - by eapply lookup_weaken.
  - eapply array_at_mono; [done| |done]. intros x. by apply requirement_at_mono.
  - intros lr h2 Hlr Hsub2 Hlr2. apply Hfinish. by etrans.
Qed.

Lemma buildScenarioSummary_single h0 l props :
  h0 !! l = Some (Obj props) ->
  props !! "workflows" = None ->
  allowedNodes_at h0 (prop props "allowedNodes") ->
  array_at h0 (requirement_at h0) (prop props "requirements") ->
  wp (buildScenarioSummary to_string getNodeDisplayName (VRef l)) h0
    (fun r h' => h0 ⊆ h' /\ fresh_in h0 h' r).
Proof.
  intros Hl Hw Hnodes Hreqs. unfold buildScenarioSummary. simpl.
  apply wp_bind. eapply wp_has_prop; [done|]. rewrite Hw.
  rewrite bool_decide_eq_false_2 by (by intros [? ?]).
  do 3 (apply wp_bind; eapply wp_get_object; [done|]).
  apply (single_summary_spec h0 h0 l props); [done..|].
  intros allowedSteps requirements h' Hsub. by apply wp_alloc_result.
Qed.

(** One entry of [scenario.workflows.map(..)]. *)
Lemma workflow_summary_spec h0 h workflow :
  h0 ⊆ h ->
  object_at h (fun props => single_at h (prop props "scenario")) workflow ->
  wp (let* workflowId := get workflow "workflowId" in
      let* inner := get workflow "scenario" in
      let* title := get inner "title" in
      let* inner := get workflow "scenario" in
      let* objectives := get inner "objectives" in
      let* inner := get workflow "scenario" in
      let* allowedSteps := allowedSteps_of getNodeDisplayName inner in
      let* inner := get workflow "scenario" in
      let* requirements :=
        requirement_summaries_of to_string getNodeDisplayName inner in
      alloc (object_of
        [ ("workflowId", workflowId); ("title", title);
          ("objectives", objectives); ("allowedSteps", allowedSteps);
          ("requirements", requirements) ])) h
    (fun _ h' => h0 ⊆ h' /\ True).
Proof.
  intros Hsub (lw & wprops & -> & Hlw & ls & sprops & Hs & Hls & _ & _ & Hnodes & Hreqs & _).
  apply wp_bind. eapply wp_get_object; [done|].
  apply wp_bind. eapply wp_get_object; [done|]. rewrite Hs.
  apply wp_bind. eapply wp_get_object; [done|].
  apply wp_bind. eapply wp_get_object; [done|]. rewrite Hs.
  apply wp_bind. eapply wp_get_object; [done|].
  apply wp_bind. eapply wp_get_object; [done|]. rewrite Hs.
  apply wp_bind, (allowedSteps_of_spec ls sprops); [done..|].
  intros la h1 Hla Hsub1 Hla1.
  apply wp_bind. eapply wp_get_object; [by eapply lookup_weaken|]. rewrite Hs.
  apply wp_bind, (requirement_summaries_of_spec ls sprops).
  - by eapply lookup_weaken.
  - eapply array_at_mono; [done| |done]. intros x. by apply requirement_at_mono.
  - intros lr h2 Hlr Hsub2 Hlr2.
    apply wp_alloc. intros lo h3 Hlo Hsub3 Hlo3. split; [|done].
    etrans; [exact Hsub|]. etrans; [exact Hsub1|]. by etrans.
Qed.

Lemma buildScenarioSummary_bundle h0 v :
  bundle_at h0 v ->
  wp (buildScenarioSummary to_string getNodeDisplayName v) h0
    (fun r h' => h0 ⊆ h' /\ fresh_in h0 h' r).
Proof.
  intros (l & props & -> & Hl & Hw & lw & workflows & Hws & Hlw & Hall).
  unfold buildScenarioSummary. simpl.
  apply wp_bind. eapply wp_has_prop; [done|].
  rewrite bool_decide_eq_true_2 by done.
  do 3 (apply wp_bind; eapply wp_get_object; [done|]). rewrite Hws.
  apply wp_bind. eapply wp_items_of; [done|].
  apply wp_bind.
  apply (wp_mapM (fun h => h0 ⊆ h) (fun _ => True)); [done| |].
  - intros workflow h Hin Hsub. apply workflow_summary_spec; [done|].
    rewrite Forall_forall in Hall. specialize (Hall workflow Hin).
    eapply object_at_mono; [done| |exact Hall].
    intros wprops. by apply single_at_mono.
  - intros entries h Hsub _ _.
    apply wp_bind, wp_alloc. intros la h1 Hla Hsub1 Hla1.
    apply wp_alloc_result. by etrans.
Qed.

Lemma card_spec h title text (Q : val -> heap -> Prop) :
  (forall lc h', h ⊆ h' -> Q (VRef lc) h') -> wp (card title text) h Q.
Proof.
  intros HQ. unfold card. apply wp_alloc. intros lc h' _ Hsub _. by apply HQ.
Qed.

(** The three cards and the array that holds them. *)
Lemma cards_spec h0 h title1 text1 title2 text2 title3 text3 :
  h0 ⊆ h ->
  wp (let* goal := card title1 text1 in
      let* steps := card title2 text2 in
      let* where_ := card title3 text3 in
      alloc (Arr [goal; steps; where_])) h
    (fun r h' => h0 ⊆ h' /\ fresh_in h0 h' r).
Proof.
  intros Hsub.
  apply wp_bind, card_spec. intros l1 h1 Hsub1.
  apply wp_bind, card_spec. intros l2 h2 Hsub2.
  apply wp_bind, card_spec. intros l3 h3 Hsub3.
  apply wp_alloc_result. etrans; [exact Hsub|]. etrans; [exact Hsub1|]. by etrans.
Qed.

Lemma buildMicroLessonCards_bundle h0 v :
  bundle_at h0 v ->
  wp (buildMicroLessonCards to_string getNodeDisplayName getGhlWhere v) h0
    (fun r h' => h0 ⊆ h' /\ fresh_in h0 h' r).
Proof.
  intros (l & props & -> & Hl & Hw & lw & workflows & Hws & Hlw & Hall).
  unfold buildMicroLessonCards. simpl.
  apply wp_bind. eapply wp_has_prop; [done|].
  rewrite bool_decide_eq_true_2 by done.
  apply wp_bind. eapply wp_get_object; [done|]. rewrite Hws.
  apply wp_bind. eapply wp_items_of; [done|].
  apply wp_bind.
  apply (wp_mapM (fun h => h = h0) (fun _ => True)); [done| |].
  - intros workflow h Hin ->.
    rewrite Forall_forall in Hall.
    destruct (Hall workflow Hin) as (lx & wprops & -> & Hlx & ls & sprops & Hs & Hls & _).
    apply wp_bind. eapply wp_get_object; [done|]. rewrite Hs.
    eapply wp_get_object; [done|]. done.
  - intros titles h -> _ _.
    apply wp_bind, wp_read_heap. by apply cards_spec.
Qed.

Lemma buildMicroLessonCards_single h0 v :
  single_at h0 v ->
  wp (buildMicroLessonCards to_string getNodeDisplayName getGhlWhere v) h0
    (fun r h' => h0 ⊆ h' /\ fresh_in h0 h' r).
Proof.
  intros (l & props & -> & Hl & Hw & Hobjectives
          & (ln & nodes & Hn & Hln & Htriggers & Hactions & Hlogic)
          & (lr & reqs & Hr & Hlr & Hreqs) & _).
  destruct Htriggers as (lt & triggers & Ht & Hlt & _).
  destruct Hactions as (la & actions & Ha & Hla & _).
  destruct Hlogic as (lg & logic & Hg & Hlg & _).
  rewrite Forall_forall in Hreqs.
  unfold buildMicroLessonCards. simpl.
  apply wp_bind. eapply wp_has_prop; [done|]. rewrite Hw.
  rewrite bool_decide_eq_false_2 by (by intros [? ?]).
  (* objective *)
  apply wp_bind. eapply wp_get_object; [done|].
  apply wp_bind.
  assert (wp (if is_nullish (prop props "objectives") then ret VUndefined
              else get_index (prop props "objectives") 0) h0
            (fun _ h' => h' = h0)) as Hfirst.
  { destruct Hobjectives as [Hnull|(lo & objectives & Ho & Hlo & _)].
    - by rewrite Hnull.
    - rewrite Ho. simpl. unfold get_index. eapply wp_get_any; [|done]. eauto. }
  eapply wp_mono; [exact Hfirst|]. intros first h ->.
  (* requirements *)
  apply wp_bind. eapply wp_get_object; [done|]. rewrite Hr.
  apply wp_bind. eapply wp_items_of; [done|].
  apply wp_bind.
  apply (wp_mapM (fun h => h = h0) (fun _ => True)); [done| |].
  { intros x h Hx ->. apply formatRequirementSummary_spec; [|done].
    apply elem_of_take in Hx as (i & Hi & _).
    apply Hreqs. by eapply list_elem_of_lookup_2. }
  intros summaries h -> _ _.
  (* allowed steps *)
  apply wp_bind. eapply wp_get_object; [done|]. rewrite Hn.
  apply wp_bind. eapply wp_get_object; [done|]. rewrite Ht.
  apply wp_bind. eapply wp_items_of; [done|].
  apply wp_bind. eapply wp_get_object; [done|]. rewrite Hn.
  apply wp_bind. eapply wp_get_object; [done|]. rewrite Ha.
  apply wp_bind. eapply wp_items_of; [done|].
  apply wp_bind. eapply wp_get_object; [done|]. rewrite Hn.
  apply wp_bind. eapply wp_get_object; [done|]. rewrite Hg.
  apply wp_bind. eapply wp_items_of; [done|].
  (* trigger requirement *)
  apply wp_bind. eapply wp_get_object; [done|]. rewrite Hr.
  apply wp_bind. eapply wp_items_of; [done|].
  apply wp_bind. apply wp_findM.
  { intros x Hx. destruct (Hreqs x Hx) as (lx & xprops & -> & Hlx & _).
    apply wp_bind. eapply wp_get_object; [done|]. by apply wp_ret. }
  intros triggerRequirement Hfound.
  apply wp_bind.
  assert (wp (if truthy triggerRequirement then has_prop "value" triggerRequirement
              else ret false) h0
            (fun hasValue h' =>
               h' = h0 /\ (hasValue = true ->
                           exists lx o, triggerRequirement = VRef lx /\ h0 !! lx = Some o)))
    as HhasValue.
  { destruct Hfound as [->|Hin]; [done|].
    destruct (Hreqs _ Hin) as (lx & xprops & -> & Hlx & _). simpl.
    eapply wp_has_prop; [done|]. split; [done|]. eauto. }
  eapply wp_mono; [exact HhasValue|]. intros hasValue h [-> Hvalue].
  apply wp_bind.
  assert (wp (if hasValue then get triggerRequirement "value"
              else
                let* allowedNodes := get (VRef l) "allowedNodes" in
                let* triggers := get allowedNodes "triggers" in
                get_index triggers 0) h0 (fun _ h' => h' = h0)) as HtriggerType.
  { destruct hasValue.
    - eapply wp_get_any; [by apply Hvalue|done].
    - apply wp_bind. eapply wp_get_object; [done|]. rewrite Hn.
      apply wp_bind. eapply wp_get_object; [done|]. rewrite Ht.
      unfold get_index. eapply wp_get_any; [|done]. eauto. }
  eapply wp_mono; [exact HtriggerType|]. intros triggerType h ->.
  by apply cards_spec.
Qed.

(** *** The hints under construction *)

Lemma hint_ok_keeps lh h h' v : keeps_but lh h h' -> hint_ok h lh v -> hint_ok h' lh v.
Proof.
  intros Hkeep (lx & px & la & items & -> & Hlx & Hx & Hvalues & Hla & Ha).
  exists lx, px, la, items. split_and!; auto.
Qed.

Lemma byField_ok_keeps lh h h' v :
  keeps_but lh h h' -> byField_ok h lh v -> byField_ok h' lh v.
Proof.
  intros Hkeep (li & mi & -> & Hli & Hi & Hentries).
  exists li, mi. split_and!; auto.
  intros fk v' Hv'. eapply hint_ok_keeps; eauto.
Qed.

Lemma existing_hint_spec h lh byField fieldKey (Q : val -> heap -> Prop) :
  (byField = VUndefined \/ byField_ok h lh byField) ->
  (forall existing, existing = VUndefined \/ hint_ok h lh existing -> Q existing h) ->
  wp (get_optional byField fieldKey) h Q.
Proof.
  intros [->|(li & mi & -> & Hli & Hi & Hentries)] HQ.
  - apply wp_get_optional_nullish; [done|]. apply HQ. by left.
  - eapply wp_get_optional_object; [done|]. apply HQ. unfold prop.
    destruct (mi !! fieldKey) as [v'|] eqn:Hv'; [right; eauto|by left].
Qed.

Lemma existing_values_spec h lh existing (Q : val -> heap -> Prop) :
  (existing = VUndefined \/ hint_ok h lh existing) ->
  (forall existingValues, optional (any_array h) existingValues -> Q existingValues h) ->
  wp (get_optional existing "values") h Q.
Proof.
  intros [->|(lx & px & la & items & -> & Hlx & Hx & Hvalues & Hla & Ha)] HQ.
  - apply wp_get_optional_nullish; [done|]. apply HQ. by left.
  - eapply wp_get_optional_object; [done|]. apply HQ. right.
    unfold prop. rewrite Hvalues. exists la, items. split_and!; [done..|].
    by apply Forall_forall.
Qed.

Lemma spread_values_spec h existingValues (Q : list val -> heap -> Prop) :
  optional (any_array h) existingValues ->
  (forall items, Q items h) ->
  wp (if is_nullish existingValues then ret [] else items_of existingValues) h Q.
Proof.
  intros [Hnull|(la & items & -> & Hla & _)] HQ.
  - rewrite Hnull. apply wp_ret, HQ.
  - simpl. eapply wp_items_of; [done|]. apply HQ.
Qed.

Lemma existing_note_spec h lh existing (Q : val -> heap -> Prop) :
  (existing = VUndefined \/ hint_ok h lh existing) ->
  (forall note, Q note h) ->
  wp (get_optional existing "note") h Q.
Proof.
  intros [->|(lx & px & la & items & -> & Hlx & Hx & _)] HQ.
  - apply wp_get_optional_nullish; [done|]. apply HQ.
  - eapply wp_get_optional_object; [done|]. apply HQ.
Qed.

Lemma spread_spec h lh byField (Q : gmap string val -> heap -> Prop) :
  (byField = VUndefined \/ byField_ok h lh byField) ->
  (forall spread,
     (forall fk v', spread !! fk = Some v' -> hint_ok h lh v') -> Q spread h) ->
  wp (own_props byField) h Q.
Proof.
  intros [->|(li & mi & -> & Hli & Hi & Hentries)] HQ.
  - apply HQ. intros fk v'. by rewrite lookup_empty.
  - eapply wp_own_props_object; [done|]. by apply HQ.
Qed.

Lemma collectHint_spec h0 lh h nodeType fieldKey label values note :
  building h0 lh h ->
  any_array h values ->
  wp (collectHint to_string (VRef lh) nodeType fieldKey label values note) h
    (fun _ h' => building h0 lh h').
Proof.
  intros (Hsub & Hlh0 & m & Hm & Hentries) (la & items & -> & Hla & _).
  unfold collectHint.
  apply wp_bind. eapply wp_items_of; [done|].
  apply wp_bind, wp_read_heap.
  destruct (List.filter _ _) as [|c cs] eqn:Hcleaned.
  { apply wp_ret. split_and!; [done..|]. by exists m. }
  rewrite <- Hcleaned. clear Hcleaned c cs.
  assert (prop m nodeType = VUndefined \/ byField_ok h lh (prop m nodeType)) as HbyField.
  { unfold prop. destruct (m !! nodeType) as [v|] eqn:Hv; [right; eauto|by left]. }
  apply wp_bind. eapply wp_get_object; [done|].
  apply wp_bind, (existing_hint_spec h lh); [done|]. intros existing Hexisting.
  apply wp_bind, (existing_values_spec h lh); [done|].
  intros existingValues0 HexistingValues.
  apply wp_bind, spread_values_spec; [done|]. intros existingValues.
  apply wp_bind. eapply wp_get_object; [done|].
  apply wp_bind, (spread_spec h lh); [done|]. intros spread Hspread.
  apply wp_bind, wp_alloc. intros lv h1 Hlv Hsub1 Hlv1.
  apply wp_bind, (existing_note_spec h1 lh existing).
  { destruct Hexisting as [->|Hok]; [by left|right].
    eapply hint_ok_keeps; [|done]. intros l o _ Hl. by eapply lookup_weaken. }
  intros existingNote.
  apply wp_bind, wp_alloc. intros lx h2 Hlx Hsub2 Hlx2.
  apply wp_bind, wp_alloc. intros li h3 Hli Hsub3 Hli3.
  assert (h ⊆ h3) as Hsub03 by (etrans; [exact Hsub1|]; by etrans).
  assert (h3 !! lh = Some (Obj m)) as Hm3 by (by eapply lookup_weaken).
  assert (lv <> lh) as Hlvh by (intros ->; congruence).
  assert (lx <> lh) as Hlxh.
  { intros ->. eapply lookup_weaken in Hm; [|exact Hsub1]. congruence. }
  assert (li <> lh) as Hlih.
  { intros ->. eapply lookup_weaken in Hm; [|etrans; [exact Hsub1|exact Hsub2]].
    congruence. }
  eapply wp_set_prop; [done|].
  set (h4 := <[lh := Obj (<[nodeType := VRef li]> m)]> h3).
  assert (keeps_but lh h h4) as Hkeep.
  { intros l o Hne Hl. unfold h4. rewrite lookup_insert_ne by done.
    by eapply lookup_weaken. }
  split_and!.
  - apply insert_subseteq_r; [done|]. by etrans.
  - done.
  - exists (<[nodeType := VRef li]> m). split; [apply lookup_insert_eq|].
    intros nt v. destruct (decide (nt = nodeType)) as [->|Hnt].
    + rewrite lookup_insert_eq. intros [= <-].
      exists li, (<[fieldKey := VRef lx]> spread). split_and!; [done..| |].
      { unfold h4. by rewrite lookup_insert_ne. }
      intros fk v'. destruct (decide (fk = fieldKey)) as [->|Hfk].
      * rewrite lookup_insert_eq. intros [= <-].
        eexists lx, _, lv, _. split_and!; [done..| | |done|].
        -- unfold h4. rewrite lookup_insert_ne by done.
           eapply lookup_weaken; [exact Hlx2|done].
        -- reflexivity.
        -- unfold h4. rewrite lookup_insert_ne by done.
           eapply lookup_weaken; [exact Hlv1|]. by etrans.
      * rewrite lookup_insert_ne by done. intros Hv'.
        eapply hint_ok_keeps; [exact Hkeep|]. by eapply Hspread.
    + rewrite lookup_insert_ne by done. intros Hv.
      eapply byField_ok_keeps; [exact Hkeep|]. by eapply Hentries.
Qed.

Lemma when_has_length_spec h (P : val -> Prop) xs body (Q : unit -> heap -> Prop) :
  optional (array_at h P) xs ->
  Q tt h ->
  (array_at h P xs -> wp body h Q) ->
  wp (when_has_length xs body) h Q.
Proof.
  intros [Hnull|Harr] HQ Hbody; unfold when_has_length, has_length.
  - apply wp_bind, wp_bind, wp_get_optional_nullish; [done|]. by apply wp_ret.
  - pose proof Harr as (l & items & -> & Hl & Hall).
    apply wp_bind, wp_bind. unfold get_optional. simpl.
    eapply wp_get_any; [by eauto|]. intros x. apply wp_ret.
    destruct (truthy x); [by apply Hbody|done].
Qed.

Lemma pluck_spec h xs key (Q : val -> heap -> Prop) :
  array_at h (object_at h (fun _ => True)) xs ->
  (forall la h', h ⊆ h' -> any_array h' (VRef la) -> Q (VRef la) h') ->
  wp (pluck xs key) h Q.
Proof.
  intros (l & items & -> & Hl & Hall) HQ. unfold pluck.
  apply wp_bind. eapply wp_items_of; [done|].
  apply wp_bind.
  apply (wp_mapM (fun h' => h' = h) (fun _ => True)); [done| |].
  - intros x h' Hx ->. rewrite Forall_forall in Hall.
    destruct (Hall x Hx) as (lx & xprops & -> & Hlx & _).
    eapply wp_get_object; [done|]. done.
  - intros plucked h' -> _ _. apply wp_alloc. intros la h' Hla Hsub Hla'.
    apply HQ; [done|]. exists la, plucked. split_and!; [done..|].
    by apply Forall_forall.
Qed.

Lemma collectContains_spec h0 lh h nodeType fieldKey label key assertions :
  building h0 lh h ->
  array_at h0 (carrier_at h0 key) assertions ->
  wp (collectContains to_string (VRef lh) nodeType fieldKey label key assertions) h
    (fun _ h' => building h0 lh h').
Proof.
  intros Hb (l & items & -> & Hl & Hall). unfold collectContains.
  apply wp_bind. eapply wp_items_of; [eapply lookup_weaken; [done|apply Hb]|].
  apply (wp_forEach (building h0 lh)); [done| |done].
  intros x h' Hx Hb'. rewrite Forall_forall in Hall.
  destruct (Hall x Hx) as (lx & xprops & -> & Hlx & Hcontains).
  apply wp_bind. eapply wp_get_object; [eapply lookup_weaken; [done|apply Hb']|].
  apply collectHint_spec; [done|]. eapply any_array_mono; [apply Hb'|done].
Qed.

Lemma collectMessage_spec h0 lh h message :
  building h0 lh h ->
  carrier_at h0 "contains" message ->
  wp (collectMessage to_string (VRef lh) message) h (fun _ h' => building h0 lh h').
Proof.
  intros Hb (l & props & -> & Hl & Hcontains). unfold collectMessage.
  assert (forall h', building h0 lh h' -> h' !! l = Some (Obj props)) as Hl'.
  { intros h' Hb'. eapply lookup_weaken; [done|apply Hb']. }
  assert (forall h', building h0 lh h' -> any_array h' (prop props "contains")) as Hc'.
  { intros h' Hb'. eapply any_array_mono; [apply Hb'|done]. }
  apply wp_bind. eapply wp_get_object; [by apply Hl'|].
  apply wp_bind.
  eapply (wp_mono _ _ (fun _ h' => building h0 lh h')).
  { destruct (strict_eq_str _ "sms"); [|by apply wp_ret].
    apply wp_bind. eapply wp_get_object; [by apply Hl'|].
    apply collectHint_spec; auto. }
  intros [] h1 Hb1.
  apply wp_bind. eapply wp_get_object; [by apply Hl'|].
  destruct (strict_eq_str _ "email"); [|by apply wp_ret].
  apply wp_bind. eapply wp_get_object; [by apply Hl'|].
  apply wp_bind.
  eapply wp_mono; [apply collectHint_spec; [exact Hb1|by apply Hc']|].
  intros [] h2 Hb2.
  apply wp_bind. eapply wp_get_object; [by apply Hl'|].
  apply collectHint_spec; auto.
Qed.

Lemma guarded_spec h0 lh h (P : val -> Prop) xs body :
  building h0 lh h ->
  optional (array_at h0 P) xs ->
  (array_at h0 P xs -> wp body h (fun _ h' => building h0 lh h')) ->
  wp (when_has_length xs body) h (fun _ h' => building h0 lh h').
Proof.
  intros Hb Hopt Hbody.
  apply (when_has_length_spec h (fun _ => True)).
  - destruct Hopt as [?|Harr]; [by left|right].
    eapply array_at_mono; [apply Hb| |exact Harr]. done.
  - done.
  - intros (l & items & -> & _). apply Hbody.
    by destruct Hopt as [?|Harr].
Qed.

Lemma collectTestCase_spec h0 lh h testCase :
  building h0 lh h ->
  testCase_at h0 testCase ->
  wp (collectTestCase to_string (VRef lh) testCase) h (fun _ h' => building h0 lh h').
Proof.
  intros Hb (lt & tprops & -> & Hlt & le & eprops & He & Hle
             & Hmessages & HtagsAdded & HtagsRemoved & HfieldsEqual & HtasksCreated
             & HsystemTasksCreated & Hnotifications & HsystemNotifications
             & HwebhooksFired).
  assert (forall h', building h0 lh h' -> h' !! le = Some (Obj eprops)) as Hle'.
  { intros h' Hb'. eapply lookup_weaken; [done|apply Hb']. }
  unfold collectTestCase.
  apply wp_bind. eapply wp_get_object; [eapply lookup_weaken; [done|apply Hb]|].
  rewrite He.
  (* messages *)
  apply wp_bind. eapply wp_get_object; [by apply Hle'|].
  apply wp_bind. eapply (wp_mono _ _ (fun _ h' => building h0 lh h')).
  { destruct Hmessages as [Hnull|(lm & messages & Hm & Hlm & Hall)].
    - rewrite Hnull. by apply wp_ret.
    - rewrite Hm. simpl. apply wp_bind.
      eapply wp_items_of; [eapply lookup_weaken; [done|apply Hb]|].
      apply (wp_forEach (building h0 lh)); [done| |done].
      intros message h' Hin Hb'. apply collectMessage_spec; [done|].
      rewrite Forall_forall in Hall. by apply Hall. }
  intros [] h1 Hb1.
  (* tagsAdded *)
  apply wp_bind. eapply wp_get_object; [by apply Hle'|].
  apply wp_bind. eapply wp_mono.
  { eapply guarded_spec; [done|exact HtagsAdded|]. intros Harr.
    apply wp_bind. eapply wp_get_object; [by apply Hle'|].
    apply collectHint_spec; [done|]. eapply any_array_mono; [apply Hb1|done]. }
  intros [] h2 Hb2.
  (* tagsRemoved *)
  apply wp_bind. eapply wp_get_object; [by apply Hle'|].
  apply wp_bind. eapply wp_mono.
  { eapply guarded_spec; [done|exact HtagsRemoved|]. intros Harr.
    apply wp_bind. eapply wp_get_object; [by apply Hle'|].
    apply collectHint_spec; [done|]. eapply any_array_mono; [apply Hb2|done]. }
  intros [] h3 Hb3.
  (* fieldsEqual *)
  apply wp_bind. eapply wp_get_object; [by apply Hle'|].
  apply wp_bind. eapply wp_mono.
  { eapply guarded_spec; [done|exact HfieldsEqual|]. intros Harr.
    assert (forall h', building h0 lh h' ->
              array_at h' (object_at h' (fun _ => True)) (prop eprops "fieldsEqual"))
      as Harr'.
    { intros h' Hb'. eapply array_at_mono; [apply Hb'| |exact Harr].
      intros x. apply object_at_mono; [apply Hb'|done]. }
    apply wp_bind. eapply wp_get_object; [by apply Hle'|].
    apply wp_bind, pluck_spec; [by apply Harr'|]. intros lk h4 Hsub4 Hkeys.
    assert (building h0 lh h4) as Hb4.
    { destruct Hb3 as (Hsub3 & Hlh & m & Hm & Hentries). split_and!; [by etrans|done|].
      exists m. split; [by eapply lookup_weaken|].
      intros nt v Hv. eapply byField_ok_keeps; [|by eapply Hentries].
      intros l o _ Hl. by eapply lookup_weaken. }
    apply wp_bind. eapply wp_mono; [by apply collectHint_spec|].
    intros [] h5 Hb5.
    apply wp_bind. eapply wp_get_object; [by apply Hle'|].
    apply wp_bind, pluck_spec; [by apply Harr'|]. intros lv h6 Hsub6 Hvalues.
    assert (building h0 lh h6) as Hb6.
    { destruct Hb5 as (Hsub5 & Hlh & m & Hm & Hentries). split_and!; [by etrans|done|].
      exists m. split; [by eapply lookup_weaken|].
      intros nt v Hv. eapply byField_ok_keeps; [|by eapply Hentries].
      intros l o _ Hl. by eapply lookup_weaken. }
    by apply collectHint_spec. }
  intros [] h4 Hb4.
  (* tasksCreated *)
  apply wp_bind. eapply wp_get_object; [by apply Hle'|].
  apply wp_bind. eapply wp_mono.
  { eapply guarded_spec; [done|exact HtasksCreated|]. intros Harr.
    apply wp_bind. eapply wp_get_object; [by apply Hle'|].
    by apply collectContains_spec. }
  intros [] h5 Hb5.
  (* systemTasksCreated *)
  apply wp_bind. eapply wp_get_object; [by apply Hle'|].
  apply wp_bind. eapply wp_mono.
  { eapply guarded_spec; [done|exact HsystemTasksCreated|]. intros Harr.
    apply wp_bind. eapply wp_get_object; [by apply Hle'|].
    by apply collectContains_spec. }
  intros [] h6 Hb6.
  (* notifications *)
  apply wp_bind. eapply wp_get_object; [by apply Hle'|].
  apply wp_bind. eapply wp_mono.
  { eapply guarded_spec; [done|exact Hnotifications|]. intros Harr.
    apply wp_bind. eapply wp_get_object; [by apply Hle'|].
    by apply collectContains_spec. }
  intros [] h7 Hb7.
  (* systemNotifications *)
  apply wp_bind. eapply wp_get_object; [by apply Hle'|].
  apply wp_bind. eapply wp_mono.
  { eapply guarded_spec; [done|exact HsystemNotifications|]. intros Harr.
    apply wp_bind. eapply wp_get_object; [by apply Hle'|].
    by apply collectContains_spec. }
  intros [] h8 Hb8.
  (* webhooksFired *)
  apply wp_bind. eapply wp_get_object; [by apply Hle'|].
  eapply guarded_spec; [done|exact HwebhooksFired|]. intros Harr.
  apply wp_bind. eapply wp_get_object; [by apply Hle'|].
  by apply collectContains_spec.
Qed.

Lemma wp_alloc_empty h0 h :
  h0 ⊆ h -> wp (alloc (Obj ∅)) h (fun r h' => h0 ⊆ h' /\ fresh_in h0 h' r).
Proof. apply wp_alloc_result. Qed.

Lemma buildExpectedFieldHints_bundle h0 v :
  bundle_at h0 v ->
  wp (buildExpectedFieldHints to_string v) h0
    (fun r h' => h0 ⊆ h' /\ fresh_in h0 h' r).
Proof.
  intros (l & props & -> & Hl & Hw & _).
  unfold buildExpectedFieldHints. simpl.
  apply wp_bind. eapply wp_has_prop; [done|].
  rewrite bool_decide_eq_true_2 by done. by apply wp_alloc_result.
Qed.

Lemma buildExpectedFieldHints_single h0 v :
  single_at h0 v ->
  wp (buildExpectedFieldHints to_string v) h0
    (fun r h' => h0 ⊆ h' /\ fresh_in h0 h' r).
Proof.
  intros (l & props & -> & Hl & Hw & _ & _ & _ & (lc & testCases & Hc & Hlc & Hall)).
  unfold buildExpectedFieldHints. simpl.
  apply wp_bind. eapply wp_has_prop; [done|]. rewrite Hw.
  rewrite bool_decide_eq_false_2 by (by intros [? ?]).
  apply wp_bind, wp_alloc. intros lh h1 Hlh Hsub1 Hlh1.
  assert (building h0 lh h1) as Hb1.
  { split_and!; [done..|]. exists ∅. split; [done|].
    intros nt v. by rewrite lookup_empty. }
  apply wp_bind. eapply wp_get_object; [by eapply lookup_weaken|]. rewrite Hc.
  apply wp_bind. eapply wp_items_of; [by eapply lookup_weaken|].
  apply wp_bind.
  apply (wp_forEach (building h0 lh)); [done| |].
  - intros testCase h Hin Hb. apply collectTestCase_spec; [done|].
    rewrite Forall_forall in Hall. by apply Hall.
  - intros h2 (Hsub2 & _ & m & Hm & _). apply wp_ret. split; [done|].
    exists lh. split_and!; [done..|by eexists].
Qed.

End Specs.

(** *** Nothing that was there is written to *)

Section Preserves.

Variable to_string : heap -> val -> string.
Variable getNodeDisplayName : val -> string.
Variable getGhlWhere : val -> val.
Variable h0 : heap.

Lemma preserves_ret {A} (a : A) : preserves h0 (ret a).
Proof. by intros h Hsub. Qed.

Lemma preserves_bind {A B} (m : M A) (k : A -> M B) :
  preserves h0 m -> (forall a, preserves h0 (k a)) -> preserves h0 (bind m k).
Proof.
  intros Hm Hk h Hsub. specialize (Hm h Hsub). unfold bind.
  destruct (m h) as [[a|e] h']; simpl in *; [by apply Hk|done].
Qed.

(** What is allocated is not an object of [h0]. *)
Lemma preserves_bind_alloc {B} o (k : val -> M B) :
  (forall l, h0 !! l = None -> preserves h0 (k (VRef l))) ->
  preserves h0 (bind (alloc o) k).
Proof.
  intros Hk h Hsub. unfold bind, alloc.
  assert (h !! fresh (dom h) = None) as Hfresh by apply not_elem_of_dom, is_fresh.
  apply Hk; [by eapply fresh_below|].
  etrans; [exact Hsub|]. by apply insert_subseteq.
Qed.

Lemma preserves_alloc o : preserves h0 (alloc o).
Proof.
  intros h Hsub. unfold alloc. simpl. etrans; [exact Hsub|].
  apply insert_subseteq, not_elem_of_dom, is_fresh.
Qed.

Lemma preserves_read_heap : preserves h0 read_heap.
Proof. by intros h Hsub. Qed.

Lemma preserves_get v key : preserves h0 (get v key).
Proof.
  intros h Hsub. unfold get.
  destruct v as [| | | | |l]; try done. by destruct (h !! l) as [[]|].
Qed.

Lemma preserves_get_optional v key : preserves h0 (get_optional v key).
Proof.
  unfold get_optional. destruct (is_nullish v);
    [apply preserves_ret|apply preserves_get].
Qed.

Lemma preserves_has_prop key v : preserves h0 (has_prop key v).
Proof.
  intros h Hsub. unfold has_prop.
  destruct v as [| | | | |l]; try done. by destruct (h !! l) as [[]|].
Qed.

Lemma preserves_items_of v : preserves h0 (items_of v).
Proof.
  intros h Hsub. unfold items_of.
  destruct v as [| | | | |l]; try done. by destruct (h !! l) as [[]|].
Qed.

Lemma preserves_own_props v : preserves h0 (own_props v).
Proof.
  intros h Hsub. unfold own_props.
  destruct v as [| | | | |l]; try done. by destruct (h !! l) as [[]|].
Qed.

(** The one assignment: harmless when its target is not an object of
    [h0]. *)
Lemma preserves_set_prop l key x :
  h0 !! l = None -> preserves h0 (set_prop (VRef l) key x).
Proof.
  intros Hl h Hsub. unfold set_prop.
  destruct (h !! l) as [[props|items]|]; simpl; try done.
  by apply insert_subseteq_r.
Qed.

Lemma preserves_mapM {A B} (f : A -> M B) xs :
  (forall x, preserves h0 (f x)) -> preserves h0 (mapM f xs).
Proof.
  intros Hf. induction xs as [|x xs IH]; simpl; [apply preserves_ret|].
  apply preserves_bind; [done|]. intros y.
  apply preserves_bind; [done|]. intros ys. apply preserves_ret.
Qed.

Lemma preserves_forEach {A} (f : A -> M unit) xs :
  (forall x, preserves h0 (f x)) -> preserves h0 (forEach f xs).
Proof.
  intros Hf. induction xs as [|x xs IH]; simpl; [apply preserves_ret|].
  by apply preserves_bind.
Qed.

Lemma preserves_findM (p : val -> M bool) xs :
  (forall x, preserves h0 (p x)) -> preserves h0 (findM p xs).
Proof.
  intros Hp. induction xs as [|x xs IH]; simpl; [apply preserves_ret|].
  apply preserves_bind; [done|]. intros []; [apply preserves_ret|done].
Qed.

(** Takes a computation apart into the steps above; what is left is
    looked up among the hypotheses. *)
Ltac preserves_step :=
  cbv beta;
  lazymatch goal with
  | |- preserves _ (ret _) => apply preserves_ret
  | |- preserves _ read_heap => apply preserves_read_heap
  | |- preserves _ (get _ _) => apply preserves_get
  | |- preserves _ (get_index _ _) => apply preserves_get
  | |- preserves _ (get_optional _ _) => apply preserves_get_optional
  | |- preserves _ (has_prop _ _) => apply preserves_has_prop
  | |- preserves _ (items_of _) => apply preserves_items_of
  | |- preserves _ (own_props _) => apply preserves_own_props
  | |- preserves _ (alloc _) => apply preserves_alloc
  | |- preserves _ (set_prop (VRef _) _ _) => apply preserves_set_prop; assumption
  | |- preserves _ (bind (alloc _) _) => apply preserves_bind_alloc; intros ? ?
  | |- preserves _ (bind _ _) => apply preserves_bind; [|intros ?]
  | |- preserves _ (mapM _ _) => apply preserves_mapM; intros ?
  | |- preserves _ (forEach _ _) => apply preserves_forEach; intros ?
  | |- preserves _ (findM _ _) => apply preserves_findM; intros ?
  | |- preserves _ (if ?b then _ else _) => destruct b
  | |- preserves _ (match ?x with _ => _ end) => destruct x
  | |- preserves _ _ => solve [eauto]
  end.

Ltac preserves_steps := repeat preserves_step.

Lemma preserves_join v sep : preserves h0 (join to_string v sep).
Proof. unfold join. preserves_steps. Qed.

Lemma preserves_join_names v sep :
  preserves h0 (join_names to_string getNodeDisplayName v sep).
Proof. unfold join_names, names_of. preserves_steps. Qed.

Lemma preserves_formatRequirementSummary requirement :
  preserves h0 (formatRequirementSummary to_string getNodeDisplayName requirement).
Proof.
  pose proof preserves_join. pose proof preserves_join_names.
  unfold formatRequirementSummary, string_of. preserves_steps.
Qed.

Lemma preserves_allowedSteps_of scenario :
  preserves h0 (allowedSteps_of getNodeDisplayName scenario).
Proof. unfold allowedSteps_of, names_of. preserves_steps. Qed.

Lemma preserves_requirement_summaries_of scenario :
  preserves h0 (requirement_summaries_of to_string getNodeDisplayName scenario).
Proof.
  pose proof preserves_formatRequirementSummary.
  unfold requirement_summaries_of. preserves_steps.
Qed.

Lemma preserves_buildScenarioSummary scenario :
  preserves h0 (buildScenarioSummary to_string getNodeDisplayName scenario).
Proof.
  pose proof preserves_allowedSteps_of. pose proof preserves_requirement_summaries_of.
  unfold buildScenarioSummary. preserves_steps.
Qed.

Lemma preserves_collectHint lh nodeType fieldKey label values note :
  h0 !! lh = None ->
  preserves h0 (collectHint to_string (VRef lh) nodeType fieldKey label values note).
Proof. intros Hlh. unfold collectHint. preserves_steps. Qed.

Lemma preserves_collectContains lh nodeType fieldKey label key assertions :
  h0 !! lh = None ->
  preserves h0
    (collectContains to_string (VRef lh) nodeType fieldKey label key assertions).
Proof.
  intros Hlh. pose proof (preserves_collectHint lh) as Hcollect.
  unfold collectContains. preserves_steps.
Qed.

Lemma preserves_collectMessage lh message :
  h0 !! lh = None -> preserves h0 (collectMessage to_string (VRef lh) message).
Proof.
  intros Hlh. pose proof (preserves_collectHint lh) as Hcollect.
  unfold collectMessage. preserves_steps.
Qed.

Lemma preserves_collectTestCase lh testCase :
  h0 !! lh = None -> preserves h0 (collectTestCase to_string (VRef lh) testCase).
Proof.
  intros Hlh.
  pose proof (preserves_collectHint lh) as Hcollect.
  pose proof (preserves_collectContains lh) as Hcontains.
  pose proof (preserves_collectMessage lh) as Hmessage.
  unfold collectTestCase, when_has_length, has_length, pluck.
  preserves_steps.
Qed.

Lemma preserves_buildExpectedFieldHints scenario :
  preserves h0 (buildExpectedFieldHints to_string scenario).
Proof.
  pose proof preserves_collectTestCase.
  unfold buildExpectedFieldHints. preserves_steps.
Qed.

Lemma preserves_buildMicroLessonCards scenario :
  preserves h0 (buildMicroLessonCards to_string getNodeDisplayName getGhlWhere scenario).
Proof.
  pose proof preserves_formatRequirementSummary.
  unfold buildMicroLessonCards, card. preserves_steps.
Qed.

End Preserves.

Lemma wp_returns_new_object h0 (m : M val) :
  wp m h0 (fun r h' => h0 ⊆ h' /\ fresh_in h0 h' r) -> returns_new_object h0 m.
Proof.
  intros (result & h' & Hrun & Hsub & Hfresh)%wp_returns.
  exists result, h'. split_and!; [done| |done].
  intros l o Hl. by eapply lookup_weaken.
Qed.

(** C4. [buildScenarioSummary], [buildExpectedFieldHints] and
    [buildMicroLessonCards] do not write to their scenario. Whatever the
    argument, and whether the call returns or throws, every object the store
    had before the call (the scenario, its requirements, test cases and
    allowedNodes among them) is the same after it. Called on a scenario of
    the store, each of them returns, and returns an object the store did
    not have. *)
Theorem builders_do_not_mutate
    (to_string : heap -> val -> string)
    (getNodeDisplayName : val -> string) (getGhlWhere : val -> val)
    (h0 : heap) (scenario : val) :
  let summary := buildScenarioSummary to_string getNodeDisplayName scenario in
  let hints := buildExpectedFieldHints to_string scenario in
  let cards := buildMicroLessonCards to_string getNodeDisplayName getGhlWhere scenario in
  (forall l o, h0 !! l = Some o ->
     (summary h0).2 !! l = Some o
     /\ (hints h0).2 !! l = Some o
     /\ (cards h0).2 !! l = Some o)
  /\ (scenario_at h0 scenario ->
      returns_new_object h0 summary
      /\ returns_new_object h0 hints
      /\ returns_new_object h0 cards).
Proof.
  cbv zeta. split.
  - intros l o Hl. split_and!; (eapply lookup_weaken; [exact Hl|]).
    + by apply preserves_buildScenarioSummary.
    + by apply preserves_buildExpectedFieldHints.
    + by apply preserves_buildMicroLessonCards.
  - intros [Hsingle|Hbundle]; split_and!; apply wp_returns_new_object.
    + destruct Hsingle as (l & props & -> & Hl & Hw & _ & Hnodes & Hreqs & _).
      by eapply buildScenarioSummary_single.
    + by apply buildExpectedFieldHints_single.
    + by apply buildMicroLessonCards_single.
    + by apply buildScenarioSummary_bundle.
    + by apply buildExpectedFieldHints_bundle.
    + by apply buildMicroLessonCards_bundle.
Qed.

(** Without a scenario: [buildScenarioSummary] returns [null] and the
    other two a new, empty object; the store is only extended. *)
Lemma builders_without_scenario to_string getNodeDisplayName getGhlWhere h0 :
  buildScenarioSummary to_string getNodeDisplayName VNull h0 = (Return VNull, h0)
  /\ returns_new_object h0 (buildExpectedFieldHints to_string VNull)
  /\ returns_new_object h0
       (buildMicroLessonCards to_string getNodeDisplayName getGhlWhere VNull).
Proof.
  split_and!; [done|..]; apply wp_returns_new_object; by apply wp_alloc_result.
Qed.

Lemma sample_scenario_at : scenario_at sample_heap sample_scenario_ref.
Proof.
  left. eexists 17%positive, _. split_and!; [reflexivity|reflexivity|..].
  - reflexivity.
  - right. eexists 16%positive, _. split_and!; [reflexivity..|]. by repeat constructor.
  - eexists 4%positive, _. split_and!; [reflexivity..| | |];
      eexists _, _; (split_and!; [reflexivity..|]); by repeat constructor.
  - eexists 8%positive, _. split_and!; [reflexivity..|].
    repeat constructor.
    + eexists 5%positive, _. split_and!; [reflexivity..| | |]; discriminate.
    + eexists 7%positive, _. split_and!; [reflexivity..| | |]; try discriminate.
      intros _. eexists 6%positive, _. split_and!; [reflexivity..|].
      by repeat constructor.
  - eexists 15%positive, _. split_and!; [reflexivity..|].
    assert (testCase_at sample_heap (VRef 14%positive)) as Hcase.
    { eexists 14%positive, _. split_and!; [reflexivity..|].
      eexists 13%positive, _. split_and!; [reflexivity..| | | | | | | | |];
        try (by left).
      - right. eexists 11%positive, _. split_and!; [reflexivity..|].
        repeat constructor.
        eexists 10%positive, _. split_and!; [reflexivity..|].
        eexists 9%positive, _. split_and!; [reflexivity..|]. by repeat constructor.
      - right. eexists 12%positive, _. split_and!; [reflexivity..|].
        by repeat constructor. }
    by repeat constructor.
Qed.

Example sample_hints_run :
  exists h',
    buildExpectedFieldHints sample_to_string sample_scenario_ref sample_heap
      = (Return (VRef 18%positive), h')
    /\ h' !! 17%positive = sample_heap !! 17%positive
    /\ h' !! 18%positive
       = Some (object_of [ ("sms.send", VRef 27%positive); ("tag.add", VRef 30%positive) ])
    /\ h' !! 27%positive = Some (object_of [ ("body", VRef 26%positive) ])
    /\ h' !! 26%positive
       = Some (object_of [ ("label", VStr "Expected text to include");
                           ("values", VRef 25%positive);
                           ("note", VStr "Use these words somewhere in the SMS.") ])
    /\ h' !! 25%positive = Some (Arr [VStr "Welcome"]).
Proof. eexists. split; [vm_compute; reflexivity|]. vm_compute. done. Qed.

Lemma builders_do_not_mutate_witness :
  scenario_at sample_heap sample_scenario_ref
  /\ returns_new_object sample_heap
       (buildScenarioSummary sample_to_string sample_names sample_scenario_ref)
  /\ returns_new_object sample_heap
       (buildExpectedFieldHints sample_to_string sample_scenario_ref)
  /\ returns_new_object sample_heap
       (buildMicroLessonCards sample_to_string sample_names sample_where
          sample_scenario_ref).
Proof.
  split; [exact sample_scenario_at|].
  apply (builders_do_not_mutate sample_to_string sample_names sample_where
           sample_heap sample_scenario_ref), sample_scenario_at.
Defined.

End StoreFacts.

(** ** Instances on the sample data *)

(** Settles a closed decidable proposition by evaluating its decision. *)
Ltac decide_by_computation :=
  apply (bool_decide_unpack _); vm_compute; exact I.


Example sample_scenario_hints :
  let hints := buildExpectedFieldHints (Some (SingleWorkflow sample_scenario)) in
  lookup_hint hints "sms.send" "body"
    = Some {| label := "Expected text to include";
              values := ["Welcome"];
              note := Some "Use these words somewhere in the SMS." |}
  /\ lookup_hint hints "email.send" "subject"
    = Some {| label := "Suggested keyword";
              values := ["Welcome"];
              note := Some "Short is ok. Use a key word from the body." |}
  /\ lookup_hint hints "tag.add" "tag"
    = Some {| label := "Expected tag";
              values := ["log:welcome_sent_email"];
              note := None |}
  /\ lookup_hint hints "tag.remove" "tag" = None.
Proof. vm_compute. done. Qed.

Lemma buildExpectedFieldHints_routing_witness :
  "Welcome" ∈ hint_values (buildExpectedFieldHints (Some (SingleWorkflow sample_scenario)))
                "sms.send" "body"
  /\ is_Some (lookup_hint (buildExpectedFieldHints (Some (SingleWorkflow sample_scenario)))
                "sms.send" "body").
Proof.
  destruct (buildExpectedFieldHints_routing sample_scenario "sms.send" "body")
    as (Hvalues & Hexists & _).
  assert ("Welcome" ∈ hint_values
            (buildExpectedFieldHints (Some (SingleWorkflow sample_scenario)))
            "sms.send" "body") as Hin.
  { apply Hvalues. exists has_phone_case, [JStr "Welcome"]. split_and!.
    - by left.
    - apply (routed_sms_body _ [mkExpectedMessage "sms" [JStr "Welcome"]]
               (mkExpectedMessage "sms" [JStr "Welcome"]));
        [reflexivity|by left|reflexivity].
    - decide_by_computation. }
  split; [exact Hin|]. apply Hexists. by exists "Welcome".
Defined.

Lemma buildExpectedFieldHints_values_clean_witness :
  let hints := buildExpectedFieldHints (Some (SingleWorkflow sample_scenario)) in
  let body := {| label := "Expected text to include";
                 values := ["Welcome"];
                 note := Some "Use these words somewhere in the email." |} in
  let subject := {| label := "Suggested keyword";
                    values := ["Welcome"];
                    note := Some "Short is ok. Use a key word from the body." |} in
  let byField := <["subject" := subject]> (<["body" := body]> ∅) in
  hints !! "email.send" = Some byField
  /\ byField !! "body" = Some body
  /\ NoDup (values body)
  /\ (forall v, v ∈ values body -> v <> "" /\ JsString.all_whitespace v = false).
Proof.
  cbv zeta.
  assert (buildExpectedFieldHints (Some (SingleWorkflow sample_scenario)) !! "email.send"
          = Some (<["subject" :=
                      {| label := "Suggested keyword";
                         values := ["Welcome"];
                         note := Some "Short is ok. Use a key word from the body." |}]>
                  (<["body" :=
                      {| label := "Expected text to include";
                         values := ["Welcome"];
                         note := Some "Use these words somewhere in the email." |}]> ∅)))
    as Hnt by (vm_compute; reflexivity).
  split; [exact Hnt|]. split; [reflexivity|].
  destruct (buildExpectedFieldHints_values_clean (Some (SingleWorkflow sample_scenario)))
    as [Hclean _].
  exact (Hclean "email.send" _ "body" _ Hnt eq_refl).
Defined.

Lemma singleTriggerMode_iff_witness :
  singleTriggerMode (Some (SingleWorkflow sample_scenario)) = true.
Proof.
  apply (singleTriggerMode_iff sample_scenario).
  exists [("type", JStr "triggerIs"); ("value", JStr "trigger.contactCreated")].
  split; [by left|reflexivity].
Defined.

Lemma compare_passes_iff_witness :
  let expected := [ OutcomeComparator.ExpectMessage "sms" ["Welcome"] ] in
  let trace :=
    OutcomeComparator.Effects
      [ OutcomeComparator.MessageSent "sms" "Welcome to the team" ] in
  OutcomeComparator.passed (OutcomeComparator.compare trace expected) = true
  /\ OutcomeComparator.passed
       (OutcomeComparator.compare
          (OutcomeComparator.Effects
             [ OutcomeComparator.TagAdded "log:welcome_sent_sms";
               OutcomeComparator.MessageSent "sms" "Welcome to the team" ])
          expected) = true.
Proof.
  cbv zeta. split; [reflexivity|].
  apply (proj2 (compare_passes_iff
                  (OutcomeComparator.Effects
                     [ OutcomeComparator.MessageSent "sms" "Welcome to the team" ])
                  [ OutcomeComparator.ExpectMessage "sms" ["Welcome"] ])
           [] [ OutcomeComparator.TagAdded "log:welcome_sent_sms" ]
           [ OutcomeComparator.MessageSent "sms" "Welcome to the team" ]);
    reflexivity.
Defined.

(** * Further properties *)

(** ** ProgressContext over plain objects: the provider *)

Section PlainProvider.

Import Plain.

(** X1. [updateTeachBack] never throws. It stores the text in a module
    object of the state and leaves the status and the attempts of that
    module, and every other entry, as they were. For a module id under
    which the state reads [undefined] it changes nothing; for a name that
    [modules] inherits from [Object.prototype], such as ["toString"], it
    adds an entry that holds the text alone. *)
Theorem updateTeachBack_effect (moduleId text : string) (current : Modules) :
  exists next,
    updateTeachBack moduleId text current = Return next
    /\ (forall entry, own current !! moduleId = Some (Obj entry) ->
          own next !! moduleId
          = Some (Obj {| entry_status := entry_status entry;
                         entry_attempts := entry_attempts entry;
                         entry_teachBack := Some text;
                         entry_spread := entry_spread entry |}))
    /\ (forall other, other <> moduleId -> own next !! other = own current !! other)
    /\ (get current moduleId = None -> next = current)
    /\ (moduleId ∈ object_prototype_names ->
        own current !! moduleId = None -> proto current = None ->
        own next !! moduleId
        = Some (Obj {| entry_status := None;
                       entry_attempts := None;
                       entry_teachBack := Some text;
                       entry_spread := NoSpread |})).
Proof.
  destruct (updateModule_total moduleId
              (fun existing => Return (Obj (with_teachBack text (spread existing))))
              current) as [next Hnext]; [by eauto|].
  exists next. split_and!; [done|..].
  - intros entry Hown. unfold updateTeachBack in Hnext.
    rewrite (updateModule_present _ _ _ (Obj entry) (Obj (with_teachBack text entry)))
      in Hnext by done.
    injection Hnext as <-. simpl. by rewrite lookup_insert_eq.
  - intros other Hother. by apply (updateModule_frame _ _ _ _ _ Hnext).
  - intros Hget. unfold updateTeachBack in Hnext.
    rewrite updateModule_undefined in Hnext by done. by injection Hnext.
  - intros Hname Hown Hproto. unfold updateTeachBack, updateModule, get in Hnext.
    rewrite Hown, Hproto in Hnext. unfold inherited in Hnext.
    rewrite bool_decide_eq_true_2 in Hnext by done. simpl in Hnext.
    injection Hnext as <-. simpl. by rewrite lookup_insert_eq.
Qed.

(** *** The states of the provider *)

(** No value that the state holds or inherits has the status [locked]. *)
Definition none_locked (current : Modules) : Prop :=
  (forall key value, own current !! key = Some value -> status_of value <> Some locked)
  /\ (forall prototype, proto current = Some prototype -> status prototype <> locked).

Lemma none_locked_get current key value :
  none_locked current -> get current key = Some value -> status_of value <> Some locked.
Proof.
  intros [Hown Hproto]. unfold get.
  destruct (own current !! key) as [held|] eqn:Hheld.
  - intros [= <-]. by apply (Hown key).
  - destruct (proto current) as [prototype|] eqn:Hp.
    + specialize (Hproto prototype eq_refl).
      repeat case_bool_decide; try (intros [= <-]; simpl; congruence).
      unfold inherited. case_bool_decide; [|done]. by intros [= <-].
    + unfold inherited. case_bool_decide; [|done]. by intros [= <-].
Qed.

Lemma updateModule_none_locked moduleId updater current next :
  (forall existing updated,
     status_of existing <> Some locked -> updater existing = Return updated ->
     status_of updated <> Some locked) ->
  none_locked current ->
  updateModule moduleId updater current = Return next ->
  none_locked next.
Proof.
  intros Hupdater Hcurrent. unfold updateModule.
  destruct (get current moduleId) as [existing|] eqn:Hget; [|by intros [= <-]].
  destruct (truthy existing); simpl; [|by intros [= <-]].
  destruct (updater existing) as [updated|error] eqn:Hupdated; simpl; [|done].
  intros [= <-]. split; simpl; [|done].
  intros key value. destruct (decide (key = moduleId)) as [->|Hne].
  - rewrite lookup_insert_eq. intros [= <-].
    apply (Hupdater existing); [|done]. by apply (none_locked_get current moduleId).
  - rewrite lookup_insert_ne by done. apply Hcurrent.
Qed.

Lemma mergeProgress_none_locked manifest saved loaded :
  mergeProgress manifest saved = Return loaded -> none_locked loaded.
Proof.
  destruct (mergeProgress_returns manifest saved) as (result & -> & Hown & Hproto).
  intros [= <-]. split.
  - intros key value. rewrite Hown.
    destruct (decide (key ∈ moduleOrder manifest /\ key <> "__proto__")); [|done].
    intros [= <-]. simpl. unfold merged_for.
    destruct (saved ≫= _) as [[[[]|] ? ?]|]; simpl; congruence.
  - intros prototype. rewrite Hproto.
    destruct (decide ("__proto__" ∈ moduleOrder manifest)); [|done].
    destruct saved as [saved|]; [|by intros [= <-]].
    destruct (saved_get saved "__proto__") as [[[[]|] ? ?]|]; simpl; [..|done];
      by intros [= <-].
Qed.

Lemma unlockModule_none_locked moduleId current next :
  none_locked current -> unlockModule moduleId current = Return next -> none_locked next.
Proof.
  apply updateModule_none_locked. intros existing updated Hexisting.
  case_bool_decide; by intros [= <-].
Qed.

Lemma spread_status existing : entry_status (spread existing) = status_of existing.
Proof. by destruct existing. Qed.

Lemma markCompleted_none_locked manifest moduleId current next :
  none_locked current -> markCompleted manifest moduleId current = Return next ->
  none_locked next.
Proof.
  intros Hcurrent. unfold markCompleted.
  destruct (updateModule moduleId _ current) as [completed_state|error] eqn:Hcomplete;
    [|done].
  assert (none_locked completed_state) as Hcompleted.
  { revert Hcomplete. apply updateModule_none_locked; [|done].
    by intros existing updated _ [= <-]. }
  cbn [Js.bind].
  destruct (indexOf (moduleOrder manifest) moduleId) as [index|]; [|by intros [= <-]].
  case_bool_decide; [|by intros [= <-]].
  destruct (moduleOrder manifest !! (index + 1)%nat) as [successor_id|];
    [|by intros [= <-]].
  by apply unlockModule_none_locked.
Qed.

Lemma provider_state_none_locked manifest current :
  provider_state manifest current -> none_locked current.
Proof.
  induction 1 as [|saved loaded Hloaded
                  |moduleId current next _ IH Hnext|moduleId current next _ IH Hnext
                  |moduleId text current next _ IH Hnext
                  |moduleId current next _ IH Hnext|moduleId current next _ IH Hnext].
  - by apply (mergeProgress_none_locked manifest None).
  - by apply (mergeProgress_none_locked manifest saved).
  - revert Hnext. apply updateModule_none_locked; [|done].
    intros existing updated Hexisting. destruct (attempts_of existing); [|done].
    intros [= <-]. simpl. by rewrite spread_status.
  - revert Hnext. apply updateModule_none_locked; [|done].
    intros existing updated Hexisting. destruct (attempts_of existing); [|done].
    intros [= <-]. simpl. by rewrite spread_status.
  - revert Hnext. apply updateModule_none_locked; [|done].
    intros existing updated Hexisting [= <-]. simpl. by rewrite spread_status.
  - by apply (markCompleted_none_locked manifest moduleId current).
  - by apply (unlockModule_none_locked moduleId current).
Qed.

(** [unlockModule] on a state without a locked value: the entries stay,
    and a value that [modules] inherits may be added as an entry. *)
Lemma unlockModule_keeps moduleId current :
  none_locked current ->
  exists next,
    unlockModule moduleId current = Return next
    /\ (forall key value, own current !! key = Some value -> own next !! key = Some value)
    /\ (forall key, key <> moduleId -> own next !! key = own current !! key)
    /\ (is_Some (own current !! moduleId) -> own next = own current)
    /\ (get current moduleId = None -> next = current)
    /\ (moduleId ∈ object_prototype_names ->
        own current !! moduleId = None -> proto current = None ->
        own next !! moduleId = Some (Builtin moduleId)).
Proof.
  intros Hcurrent. unfold unlockModule, updateModule.
  destruct (get current moduleId) as [existing|] eqn:Hget.
  2:{ eexists. split_and!; [done..|].
      intros Hname Hown Hproto. unfold get, inherited in Hget.
      by rewrite Hown, Hproto, bool_decide_eq_true_2 in Hget. }
  destruct (truthy existing) eqn:Htruthy; simpl.
  2:{ eexists. split_and!; [done..|].
      intros Hname Hown Hproto. unfold get, inherited in Hget.
      rewrite Hown, Hproto, bool_decide_eq_true_2 in Hget by done.
      injection Hget as <-. done. }
  rewrite bool_decide_eq_true_2 by by apply (none_locked_get current moduleId).
  simpl. eexists. split; [done|]. simpl. split_and!; [| | |done|].
  - intros key value Hown. destruct (decide (key = moduleId)) as [->|Hne].
    + rewrite (get_own _ _ _ Hown) in Hget. injection Hget as <-.
      by rewrite lookup_insert_eq.
    + by rewrite lookup_insert_ne.
  - intros key Hne. by rewrite lookup_insert_ne.
  - intros [value Hown]. rewrite (get_own _ _ _ Hown) in Hget. injection Hget as <-.
    by apply insert_id.
  - intros Hname Hown Hproto. unfold get, inherited in Hget.
    rewrite Hown, Hproto, bool_decide_eq_true_2 in Hget by done.
    injection Hget as <-. by rewrite lookup_insert_eq.
Qed.

(** X4. In every state the provider can reach no value that [modules]
    holds or inherits has the status [locked]. So [unlockModule] always
    returns and leaves every entry of the state as it is: for a module
    that has an entry the entries are the same after it, for an id that
    reads [undefined] the state is the same, and for a name that
    [modules] inherits from [Object.prototype] and does not have, the
    inherited value is added as an entry. [markCompleted] always returns
    and leaves every entry but the one of its module as it is. *)
Theorem unlock_changes_nothing (manifest : list ModuleManifestEntry) (current : Modules) :
  provider_state manifest current ->
  (forall key value, get current key = Some value -> status_of value <> Some locked)
  /\ (forall moduleId, exists next,
        unlockModule moduleId current = Return next
        /\ (forall key value, own current !! key = Some value ->
              own next !! key = Some value)
        /\ (is_Some (own current !! moduleId) -> own next = own current)
        /\ (get current moduleId = None -> next = current)
        /\ (moduleId ∈ object_prototype_names ->
            own current !! moduleId = None -> proto current = None ->
            own next !! moduleId = Some (Builtin moduleId)))
  /\ (forall moduleId, exists next,
        markCompleted manifest moduleId current = Return next
        /\ (forall key, key <> moduleId ->
              forall value, own current !! key = Some value ->
                own next !! key = Some value)).
Proof.
  intros Hcurrent%provider_state_none_locked. split_and!.
  - intros key value. by apply none_locked_get.
  - intros moduleId.
    destruct (unlockModule_keeps moduleId current Hcurrent)
      as (next & Hnext & Hkeep & _ & Hsame & Hundefined & Hinherited).
    by exists next.
  - intros moduleId.
    destruct (markCompleted_steps manifest moduleId current) as [Hsucc Hnone].
    cbv zeta in Hsucc, Hnone.
    destruct (updateModule_total moduleId
                (fun existing => Return (Obj (with_status completed (spread existing))))
                current) as [completed_state Hcomplete]; [by eauto|].
    assert (none_locked completed_state) as Hcompleted.
    { revert Hcomplete. apply updateModule_none_locked; [|done].
      by intros existing updated _ [= <-]. }
    assert (forall key, key <> moduleId ->
              own completed_state !! key = own current !! key) as Hframe.
    { intros key Hkey. by apply (updateModule_frame _ _ _ _ _ Hcomplete). }
    destruct (successor_dec (moduleOrder manifest) moduleId) as [[next_id Hnext]|Hlast].
    + destruct (unlockModule_keeps next_id completed_state Hcompleted)
        as (next & Hunlock & Hkeep & _).
      exists next. rewrite (Hsucc next_id Hnext), Hcomplete. split; [done|].
      intros key Hkey value Hown. apply Hkeep. by rewrite Hframe.
    + exists completed_state. rewrite (Hnone Hlast). split; [done|].
      intros key Hkey value Hown. by rewrite Hframe.
Qed.

Lemma unlock_changes_nothing_witness :
  exists next,
    unlockModule "M02" (buildDefaultProgress sample_manifest) = Return next
    /\ own next = own (buildDefaultProgress sample_manifest).
Proof.
  destruct (proj1 (proj2 (unlock_changes_nothing sample_manifest
                            (buildDefaultProgress sample_manifest)
                            (provider_initial sample_manifest))) "M02")
    as (next & Hnext & _ & Hsame & _).
  exists next. split; [exact Hnext|]. apply Hsame. eexists. vm_compute. reflexivity.
Defined.

(** *** Loading *)

Lemma merged_module_not_locked savedModule : status (merged_module savedModule) <> locked.
Proof. by destruct savedModule as [[[]|] ? ?]. Qed.

Lemma merged_for_not_locked saved id : status (merged_for saved id) <> locked.
Proof.
  unfold merged_for. destruct (saved ≫= _) as [savedModule|]; simpl; [|done].
  apply merged_module_not_locked.
Qed.

(** X26. For a manifest without the module id ["__proto__"],
    [mergeProgress] returns a state under [Object.prototype] whose
    entries are module objects for exactly the module ids of the
    manifest: the default module for a module without saved progress, and
    else the saved status, with [available] for [locked] or for none, the
    saved attempts, or zero attempts for none, and the saved teach-back
    text, or the empty text for none. No module is locked. *)
Theorem mergeProgress_entries (manifest : list ModuleManifestEntry)
    (saved : option SavedState) :
  "__proto__" ∉ moduleOrder manifest ->
  exists result,
    mergeProgress manifest saved = Return result
    /\ proto result = None
    /\ dom (own result) = list_to_set (moduleOrder manifest)
    /\ (forall id, id ∈ moduleOrder manifest ->
          exists module,
            own result !! id = Some (Obj (of_module module))
            /\ status module <> locked
            /\ match saved ≫= (fun saved => saved_get saved id) with
               | None => module = defaultModuleProgress
               | Some savedModule =>
                   status module
                   = match saved_status savedModule with
                     | Some completed => completed
                     | _ => available
                     end
                   /\ attempts module
                      = default {| validate := 0; simulate := 0 |}
                          (saved_attempts savedModule)
                   /\ teachBack module = default "" (saved_teachBack savedModule)
               end).
Proof.
  intros Hproto.
  destruct (mergeProgress_returns manifest saved) as (result & Hresult & Hown & Hp).
  exists result. split_and!; [done| | |].
  - by rewrite Hp, decide_False.
  - apply set_eq. intros k. rewrite elem_of_dom, Hown, elem_of_list_to_set.
    destruct (decide (k ∈ moduleOrder manifest /\ k <> "__proto__")) as [[Hk _]|Hk].
    + split; [done|by eauto].
    + split; [by intros [? ?]|]. intros Hin. exfalso. apply Hk. split; [done|].
      by intros ->.
  - intros id Hid. exists (merged_for saved id).
    rewrite Hown, decide_True by (split; [done|by intros ->]).
    split_and!; [done|apply merged_for_not_locked|].
    unfold merged_for. destruct (saved ≫= _) as [[[[]|] ? ?]|]; done.
Qed.

Lemma mergeProgress_entries_witness :
  exists result,
    mergeProgress sample_manifest None = Return result
    /\ dom (own result) = list_to_set (moduleOrder sample_manifest).
Proof.
  assert ("__proto__" ∉ moduleOrder sample_manifest) as Hproto
    by (apply (bool_decide_unpack _); vm_compute; exact I).
  destruct (mergeProgress_entries sample_manifest None Hproto)
    as (result & Hresult & _ & Hdom & _).
  exists result. split; [exact Hresult|exact Hdom].
Defined.

(** The state holds a module object, not locked, for exactly the module
    ids of the manifest, under [Object.prototype]. *)
Definition manifest_shaped (manifest : list ModuleManifestEntry) (current : Modules)
    : Prop :=
  proto current = None
  /\ forall key,
       match own current !! key with
       | Some value =>
           key ∈ moduleOrder manifest
           /\ exists module, value = Obj (of_module module) /\ status module <> locked
       | None => key ∉ moduleOrder manifest
       end.

Lemma mergeProgress_shaped manifest saved loaded :
  "__proto__" ∉ moduleOrder manifest ->
  mergeProgress manifest saved = Return loaded -> manifest_shaped manifest loaded.
Proof.
  intros Hproto.
  destruct (mergeProgress_returns manifest saved) as (result & -> & Hown & Hp).
  intros [= <-]. split; [by rewrite Hp, decide_False|].
  intros key. rewrite Hown.
  destruct (decide (key ∈ moduleOrder manifest /\ key <> "__proto__")) as [[Hk _]|Hk].
  - split; [done|]. eexists. split; [done|]. apply merged_for_not_locked.
  - intros Hin. apply Hk. split; [done|]. by intros ->.
Qed.

Lemma updateModule_shaped manifest moduleId updater current next :
  (forall module, status module <> locked ->
     exists updated, updater (Obj (of_module module)) = Return (Obj (of_module updated))
                     /\ status updated <> locked) ->
  moduleId ∈ moduleOrder manifest ->
  manifest_shaped manifest current ->
  updateModule moduleId updater current = Return next ->
  manifest_shaped manifest next.
Proof.
  intros Hupdater Hid [Hproto Hown].
  pose proof (Hown moduleId) as Hmodule.
  destruct (own current !! moduleId) as [value|] eqn:Hvalue; [|done].
  destruct Hmodule as (_ & module & -> & Hstatus).
  destruct (Hupdater module Hstatus) as (updated & Hupdated & Hnot).
  rewrite (updateModule_present _ _ _ _ _ Hvalue eq_refl Hupdated).
  intros [= <-]. split; [done|]. simpl. intros key.
  destruct (decide (key = moduleId)) as [->|Hne].
  - rewrite lookup_insert_eq. split; [done|]. by exists updated.
  - rewrite lookup_insert_ne by done. apply Hown.
Qed.

Lemma unlockModule_shaped manifest moduleId current next :
  moduleId ∈ moduleOrder manifest ->
  manifest_shaped manifest current ->
  unlockModule moduleId current = Return next ->
  manifest_shaped manifest next.
Proof.
  apply updateModule_shaped. intros module Hstatus. exists module. split; [|done].
  simpl. rewrite bool_decide_eq_true_2; [done|congruence].
Qed.

Lemma successor_in moduleOrder moduleId next :
  successor moduleOrder moduleId next -> next ∈ moduleOrder.
Proof. intros (index & _ & Hnext). by apply list_elem_of_lookup_2 in Hnext. Qed.

Lemma manifest_state_shaped manifest current :
  "__proto__" ∉ moduleOrder manifest ->
  manifest_state manifest current -> manifest_shaped manifest current.
Proof.
  intros Hproto.
  induction 1 as [|saved loaded Hloaded
                  |moduleId current next _ IH Hid Hnext
                  |moduleId current next _ IH Hid Hnext
                  |moduleId text current next _ IH Hid Hnext
                  |moduleId current next _ IH Hid Hnext
                  |moduleId current next _ IH Hid Hnext].
  - by apply (mergeProgress_shaped manifest None).
  - by apply (mergeProgress_shaped manifest saved).
  - revert Hnext. apply updateModule_shaped; [|done..].
    intros module Hstatus. eexists {| status := status module |}. by split.
  - revert Hnext. apply updateModule_shaped; [|done..].
    intros module Hstatus. eexists {| status := status module |}. by split.
  - revert Hnext. apply updateModule_shaped; [|done..].
    intros module Hstatus. eexists {| status := status module |}. by split.
  - destruct (markCompleted_steps manifest moduleId current) as [Hsucc Hnone].
    cbv zeta in Hsucc, Hnone.
    assert (forall completed_state,
              updateModule moduleId (fun existing =>
                Return (Obj (with_status completed (spread existing)))) current
              = Return completed_state ->
              manifest_shaped manifest completed_state) as Hcompleted.
    { intros completed_state. apply updateModule_shaped; [|done..].
      intros module Hstatus. eexists {| status := completed |}. by split. }
    destruct (successor_dec (moduleOrder manifest) moduleId) as [[next_id Hnext_id]|Hlast].
    + rewrite (Hsucc next_id Hnext_id) in Hnext.
      destruct (updateModule moduleId _ current) as [completed_state|error]; [|done].
      cbn [Js.bind] in Hnext. revert Hnext.
      apply unlockModule_shaped; [by apply (successor_in _ moduleId)|by apply Hcompleted].
    + rewrite (Hnone Hlast) in Hnext. by apply Hcompleted.
  - by apply (unlockModule_shaped manifest moduleId current).
Qed.

Lemma manifest_shaped_typed manifest current :
  manifest_shaped manifest current ->
  current = typed (modules_of current)
  /\ dom (modules_of current) = list_to_set (moduleOrder manifest)
  /\ (forall id module, modules_of current !! id = Some module -> status module <> locked).
Proof.
  intros [Hproto Hown]. destruct current as [held prototype]. simpl in *. subst prototype.
  unfold typed, modules_of. simpl. split_and!.
  - f_equal. apply map_eq. intros key. rewrite lookup_fmap, lookup_omap.
    specialize (Hown key). destruct (held !! key) as [value|]; [|done].
    destruct Hown as (_ & module & -> & _). by destruct module.
  - apply set_eq. intros key. rewrite elem_of_dom, lookup_omap, elem_of_list_to_set.
    specialize (Hown key). destruct (held !! key) as [value|]; simpl.
    + destruct Hown as (Hkey & module & -> & _).
      split; [done|]. intros _. destruct module. by eexists.
    + split; [by intros [? ?]|done].
  - intros id module. rewrite lookup_omap. specialize (Hown id).
    destruct (held !! id) as [value|]; simpl; [|done].
    destruct Hown as (_ & held_module & -> & Hstatus).
    destruct held_module. by intros [= <-].
Qed.

(** Loading what was stored for a state of module objects. *)
Lemma mergeProgress_saved_of manifest (modules : gmap string ModuleProgress) :
  "__proto__" ∉ moduleOrder manifest ->
  dom modules = list_to_set (moduleOrder manifest) ->
  (forall id module, modules !! id = Some module -> status module <> locked) ->
  mergeProgress manifest (Some (saved_of modules)) = Return (typed modules).
Proof.
  intros Hproto Hdom Hstatus.
  destruct (mergeProgress_returns manifest (Some (saved_of modules)))
    as (result & -> & Hown & Hp).
  f_equal. destruct result as [held prototype]. simpl in *.
  rewrite decide_False in Hp by done. subst prototype.
  unfold typed. f_equal. apply map_eq. intros key.
  rewrite Hown, lookup_fmap.
  destruct (modules !! key) as [module|] eqn:Hmodule.
  - assert (key ∈ moduleOrder manifest) as Hkey.
    { rewrite <- (elem_of_list_to_set (C := gset string)), <- Hdom.
      apply elem_of_dom. by eauto. }
    rewrite decide_True by (split; [done|by intros ->]).
    unfold merged_for, saved_get. simpl. rewrite lookup_fmap, Hmodule. simpl.
    do 3 f_equal. specialize (Hstatus key module Hmodule).
    destruct module as [[] ? ?]; done.
  - rewrite decide_False; [done|]. intros [Hkey _].
    rewrite <- (elem_of_list_to_set (C := gset string)), <- Hdom in Hkey.
    apply elem_of_dom in Hkey as [? ?]. congruence.
Qed.

(** X5. A reload restores the progress. For a manifest without the
    module id ["__proto__"], every state that the provider reaches
    through updates for modules of the manifest holds module objects
    alone, and [mergeProgress], given what [JSON.parse] makes of the
    stored state, returns that very state. *)
Theorem reload_restores_progress (manifest : list ModuleManifestEntry)
    (current : Modules) :
  "__proto__" ∉ moduleOrder manifest ->
  manifest_state manifest current ->
  current = typed (modules_of current)
  /\ mergeProgress manifest (Some (saved_of (modules_of current))) = Return current.
Proof.
  intros Hproto Hcurrent.
  destruct (manifest_shaped_typed manifest current) as (Htyped & Hdom & Hstatus).
  { by apply manifest_state_shaped. }
  split; [done|]. rewrite Htyped at 2. by apply mergeProgress_saved_of.
Qed.

Lemma reload_restores_progress_witness :
  exists current,
    markCompleted sample_manifest "M01" (buildDefaultProgress sample_manifest)
    = Return current
    /\ mergeProgress sample_manifest (Some (saved_of (modules_of current)))
       = Return current.
Proof.
  eexists. split; [vm_compute; reflexivity|].
  eapply (proj2 (reload_restores_progress sample_manifest _ _ _)).
  Unshelve.
  - apply (bool_decide_unpack _). vm_compute. exact I.
  - apply (manifest_markCompleted sample_manifest "M01"
             (buildDefaultProgress sample_manifest)).
    + apply manifest_initial.
    + apply (bool_decide_unpack _). vm_compute. exact I.
    + vm_compute. reflexivity.
Defined.

End PlainProvider.

(** ** The two embeddings of ProgressContext *)

Lemma plain_state_get progress moduleId :
  moduleId ∉ object_prototype_names ->
  Plain.get (plain_state progress) moduleId
  = (fun module => Plain.Obj (Plain.of_module (plain_module module)))
      <$> modules progress !! moduleId.
Proof.
  intros Hid. unfold Plain.get, plain_state, Plain.typed. simpl.
  rewrite !lookup_fmap. destruct (modules progress !! moduleId); simpl; [done|].
  unfold Plain.inherited. by rewrite bool_decide_eq_false_2.
Qed.

Lemma updateModule_agrees moduleId (typed_updater : ModuleProgress -> ModuleProgress)
    (updater : Plain.Value -> Completion Plain.Value) (current : ProgressState) :
  moduleId ∉ object_prototype_names ->
  (forall existing, modules current !! moduleId = Some existing ->
     updater (Plain.Obj (Plain.of_module (plain_module existing)))
     = Return (Plain.Obj (Plain.of_module (plain_module (typed_updater existing))))) ->
  Plain.updateModule moduleId updater (plain_state current)
  = Return (plain_state (updateModule moduleId typed_updater current)).
Proof.
  intros Hid Hupdater. unfold Plain.updateModule, updateModule.
  rewrite plain_state_get by done.
  destruct (modules current !! moduleId) as [existing|] eqn:Hexisting; simpl; [|done].
  rewrite (Hupdater existing eq_refl). simpl. f_equal.
  unfold plain_state, Plain.typed. simpl. by rewrite !fmap_insert.
Qed.

Lemma unlockModule_agrees moduleId current :
  moduleId ∉ object_prototype_names ->
  Plain.unlockModule moduleId (plain_state current)
  = Return (plain_state (unlockModule moduleId current)).
Proof.
  intros Hid. apply updateModule_agrees; [done|].
  intros existing _. simpl. destruct (status existing); by repeat case_bool_decide.
Qed.

Lemma merged_module_agrees savedModule :
  Plain.merged_module (plain_saved_module savedModule)
  = plain_module (merged_module savedModule).
Proof. by destruct savedModule as [[[]|] [counters|] [text|]]. Qed.

Lemma saved_get_agrees saved id :
  id ∉ object_prototype_names ->
  (plain_saved <$> saved) ≫= (fun saved => Plain.saved_get saved id)
  = plain_saved_module <$> saved_lookup saved id.
Proof.
  intros Hid. unfold saved_lookup. destruct saved as [[[savedModules|]]|]; simpl; [|done..].
  unfold Plain.saved_get. simpl. rewrite lookup_fmap.
  destruct (savedModules !! id); simpl; [done|]. by rewrite bool_decide_eq_false_2.
Qed.

Lemma mergeProgress_agrees manifest saved :
  ordinary (moduleOrder manifest) ->
  Plain.mergeProgress manifest (plain_saved <$> saved)
  = Return (plain_state (mergeProgress manifest saved)).
Proof.
  intros Hordinary.
  assert ("__proto__" ∉ moduleOrder manifest) as Hproto.
  { intros Hin. apply (Hordinary _ Hin). apply (bool_decide_unpack _). by vm_compute. }
  destruct (mergeProgress_returns manifest (plain_saved <$> saved))
    as (result & -> & Hown & Hp).
  f_equal. destruct result as [held prototype]. simpl in *.
  rewrite decide_False in Hp by done. subst prototype.
  unfold plain_state, Plain.typed. f_equal. apply map_eq. intros key.
  rewrite Hown, !lookup_fmap, mergeProgress_lookup.
  destruct (decide (key ∈ entry_moduleId <$> manifest)) as [Hkey|Hkey].
  - rewrite decide_True by (split; [done|by intros ->]). simpl. do 3 f_equal.
    unfold Plain.merged_for. rewrite saved_get_agrees by by apply Hordinary.
    destruct (saved_lookup saved key) as [savedModule|]; simpl; [|done].
    apply merged_module_agrees.
  - rewrite decide_False; [done|]. by intros [? _].
Qed.

(** X27. On module ids that are no names of [Object.prototype] the
    reading of [progress.modules] as a map of module objects is exact: the
    default and the merged progress and every update of the provider
    return, without throwing, the plain object that the map stands for.
    For the two attempt updates this holds while the counters of the
    module are below 2^53. *)
Theorem typed_embedding_agrees (manifest : list ModuleManifestEntry)
    (saved : option SavedState) (current : ProgressState) (moduleId text : string) :
  ordinary (moduleOrder manifest) ->
  moduleId ∉ object_prototype_names ->
  Plain.buildDefaultProgress manifest = plain_state (buildDefaultProgress manifest)
  /\ Plain.mergeProgress manifest (plain_saved <$> saved)
     = Return (plain_state (mergeProgress manifest saved))
  /\ Plain.updateTeachBack moduleId text (plain_state current)
     = Return (plain_state (updateTeachBack moduleId text current))
  /\ Plain.unlockModule moduleId (plain_state current)
     = Return (plain_state (unlockModule moduleId current))
  /\ Plain.markCompleted manifest moduleId (plain_state current)
     = Return (plain_state (markCompleted manifest moduleId current))
  /\ ((forall existing, modules current !! moduleId = Some existing -> countable existing) ->
      Plain.markValidateAttempt moduleId (plain_state current)
      = Return (plain_state (markValidateAttempt moduleId current))
      /\ Plain.markSimulateAttempt moduleId (plain_state current)
         = Return (plain_state (markSimulateAttempt moduleId current))).
Proof.
  intros Hordinary Hid. split_and!.
  - pose proof (mergeProgress_agrees manifest None Hordinary) as Hdefault.
    by injection Hdefault.
  - by apply mergeProgress_agrees.
  - by apply updateModule_agrees.
  - by apply unlockModule_agrees.
  - unfold Plain.markCompleted, markCompleted.
    rewrite (updateModule_agrees moduleId
               (fun existing => {| status := completed;
                                   attempts := attempts existing;
                                   teachBack := teachBack existing |})) by done.
    cbn [Js.bind].
    destruct (indexOf (moduleOrder manifest) moduleId) as [index|]; [|done].
    case_bool_decide; [|done].
    destruct (moduleOrder manifest !! (index + 1)%nat) as [next|] eqn:Hnext; [|done].
    apply unlockModule_agrees, Hordinary. by apply list_elem_of_lookup_2 in Hnext.
  - intros Hcountable. split.
    + apply updateModule_agrees; [done|]. intros existing Hexisting.
      destruct (Hcountable existing Hexisting) as [Hvalidate _]. simpl.
      rewrite succ_exact by done.
      by replace (N.of_nat (validate (attempts existing)) + 1)%N
        with (N.of_nat (validate (attempts existing) + 1)) by lia.
    + apply updateModule_agrees; [done|]. intros existing Hexisting.
      destruct (Hcountable existing Hexisting) as [_ Hsimulate]. simpl.
      rewrite succ_exact by done.
      by replace (N.of_nat (simulate (attempts existing)) + 1)%N
        with (N.of_nat (simulate (attempts existing) + 1)) by lia.
Qed.

Lemma typed_embedding_agrees_witness :
  Plain.markCompleted sample_manifest "M01" (plain_state sample_progress)
  = Return (plain_state (markCompleted sample_manifest "M01" sample_progress)).
Proof.
  eapply (proj1 (proj2 (proj2 (proj2 (proj2
            (typed_embedding_agrees sample_manifest None sample_progress "M01" "" _ _)))))).
  Unshelve.
  - intros id Hid. apply (bool_decide_unpack _).
    repeat (apply elem_of_cons in Hid as [->|Hid]; [vm_compute; exact I|]).
    by apply elem_of_nil in Hid.
  - apply (bool_decide_unpack _). vm_compute. exact I.
Defined.

(** ** ProgressContext: how updates combine *)









(** ** Sidebar and CourseHome *)




Lemma filter_length_agree {A} (p q : A -> bool) (l : list A) :
  (forall x, x ∈ l -> q x = p x) ->
  length (List.filter q l) = length (List.filter p l).
Proof.
  induction l as [|x l IH]; intros Hpq; [done|]. simpl.
  rewrite (Hpq x) by left.
  assert (length (List.filter q l) = length (List.filter p l)) as Hrest.
  { apply IH. intros y Hy. apply Hpq. by right. }
  destruct (p x); simpl; by rewrite Hrest.
Qed.











(** X9. The status a module card or sidebar link shows is never [locked];
    it is [completed] exactly for the modules the sidebar counts as done,
    so the count equals the number of links badged as done. *)
Theorem displayStatus_completed (manifest : list ModuleManifestEntry)
    (current : ProgressState) :
  (forall module, displayStatus module <> locked)
  /\ (forall id, displayStatus (modules current !! id) = completed
                 <-> module_status current id = Some completed)
  /\ completedCount manifest current
     = length (List.filter (fun entry =>
         bool_decide (displayStatus (modules current !! entry_moduleId entry) = completed))
         manifest).
Proof.
  assert (forall id, displayStatus (modules current !! id) = completed
                     <-> module_status current id = Some completed) as Hiff.
  { intros id. unfold displayStatus, module_status.
    destruct (modules current !! id) as [[[] ? ?]|]; simpl; split; congruence. }
  split_and!; [|done|].
  - intros [[[] ? ?]|]; done.
  - unfold completedCount. apply filter_length_agree.
    intros entry _. apply bool_decide_ext. by rewrite Hiff.
Qed.

(** ** The teach-back word count *)

Lemma split_whitespace_from_cons in_separator s :
  exists piece rest, split_whitespace_from in_separator s = piece :: rest.
Proof.
  revert in_separator. induction s as [|c s IH]; intros b; simpl; [by eauto|].
  destruct (JsString.is_whitespace c).
  - destruct b; [apply IH|by eauto].
  - destruct (IH false) as (piece & rest & ->). by eauto.
Qed.

Lemma count_pieces_split s :
  count_pieces (tail (split_whitespace_from false s)) = word_starts false s
  /\ count_pieces (split_whitespace_from false s) = word_starts true s
  /\ count_pieces (split_whitespace_from true s) = word_starts true s.
Proof.
  induction s as [|c s (IHtail & IHfalse & IHtrue)]; simpl; [done|].
  destruct (JsString.is_whitespace c); simpl.
  - done.
  - destruct (split_whitespace_from_cons false s) as (piece & rest & Hsplit).
    rewrite Hsplit in *. simpl in *. unfold count_pieces in *. simpl.
    by rewrite IHtail.
Qed.

Lemma word_starts_trim_start s :
  word_starts true (JsString.trim_start s) = word_starts true s.
Proof.
  induction s as [|c s IH]; simpl; [done|].
  destruct (JsString.is_whitespace c) eqn:Hc; simpl; [done|]. by rewrite Hc.
Qed.

Lemma word_starts_all_whitespace b s :
  JsString.all_whitespace s = true -> word_starts b s = 0%nat.
Proof.
  revert b. induction s as [|c s IH]; intros b; simpl; [done|].
  intros [Hc Hs]%andb_prop. rewrite Hc. by apply IH.
Qed.

Lemma word_starts_trim_end b s :
  word_starts b (JsString.trim_end s) = word_starts b s.
Proof.
  revert b. induction s as [|c s IH]; intros b; simpl; [done|].
  destruct (JsString.trim_end s) as [|c' t] eqn:Ht.
  - apply trim_end_empty_iff in Ht.
    destruct (JsString.is_whitespace c) eqn:Hc; simpl; rewrite ?Hc.
    + by rewrite word_starts_all_whitespace.
    + by rewrite word_starts_all_whitespace.
  - simpl. destruct (JsString.is_whitespace c); by rewrite <- IH.
Qed.

Lemma wordCount_trimmed text :
  wordCount text = word_starts true (JsString.trim text).
Proof.
  unfold wordCount. case_bool_decide as Hempty.
  - by rewrite Hempty.
  - apply count_pieces_split.
Qed.

(** X10. The teach-back word count is the number of words of the text:
    the number of code units that are not whitespace and stand at the
    start of the text or right after a whitespace code unit. *)
Theorem wordCount_word_starts (text : string) :
  wordCount text = word_starts true text.
Proof.
  rewrite wordCount_trimmed. unfold JsString.trim.
  by rewrite word_starts_trim_end, word_starts_trim_start.
Qed.

Lemma word_starts_le s : (word_starts false s <= word_starts true s)%nat.
Proof. destruct s as [|c s]; simpl; [done|]. destruct (JsString.is_whitespace c); lia. Qed.

Lemma word_starts_app_bounds b s t :
  (word_starts b s <= word_starts b (s +:+ t) <= word_starts b s + word_starts true t)%nat.
Proof.
  revert b. induction s as [|c s IH]; intros b.
  - change ("" +:+ t) with t. simpl.
    pose proof (word_starts_le t). destruct b; lia.
  - change (String c s +:+ t) with (String c (s +:+ t)). simpl.
    destruct (JsString.is_whitespace c).
    + apply IH.
    + specialize (IH false). lia.
Qed.

Lemma word_starts_app_whitespace b s c t :
  JsString.is_whitespace c = true ->
  word_starts b (s +:+ String c t) = (word_starts b s + word_starts true t)%nat.
Proof.
  intros Hc. revert b. induction s as [|c' s IH]; intros b.
  - change ("" +:+ String c t) with (String c t). simpl. by rewrite Hc.
  - change (String c' s +:+ String c t) with (String c' (s +:+ String c t)). simpl.
    destruct (JsString.is_whitespace c'); [apply IH|]. rewrite IH. lia.
Qed.

Lemma word_starts_zero s :
  word_starts true s = 0%nat <-> JsString.all_whitespace s = true.
Proof.
  induction s as [|c s IH]; simpl; [done|].
  destruct (JsString.is_whitespace c); simpl; [done|]. split; [lia|done].
Qed.

Ltac wordCount_as_word_starts :=
  rewrite ?wordCount_trimmed; unfold JsString.trim;
  rewrite ?word_starts_trim_end, ?word_starts_trim_start.

(** X11. Writing on never lowers the word count, and a text added after
    a whitespace code unit adds exactly its own words; the count is zero
    exactly for a text of whitespace only. *)
Theorem wordCount_append (text more : string) :
  (wordCount text <= wordCount (text +:+ more) <= wordCount text + wordCount more)%nat
  /\ (forall c, JsString.is_whitespace c = true ->
        wordCount (text +:+ String c more) = (wordCount text + wordCount more)%nat)
  /\ (wordCount text = 0%nat <-> JsString.all_whitespace text = true).
Proof.
  split; [|split].
  - wordCount_as_word_starts. apply word_starts_app_bounds.
  - intros c Hc. wordCount_as_word_starts. by apply word_starts_app_whitespace.
  - wordCount_as_word_starts. apply word_starts_zero.
Qed.

Lemma markCompleted_lookup_self manifest moduleId current :
  modules (markCompleted manifest moduleId current) !! moduleId
  = (fun existing => {| status := completed;
                        attempts := attempts existing;
                        teachBack := teachBack existing |})
      <$> modules current !! moduleId.
Proof.
  destruct (markCompleted_unfold manifest moduleId current) as [Hsucc Hnone].
  cbv zeta in Hsucc, Hnone.
  destruct (successor_dec (moduleOrder manifest) moduleId) as [[next Hnext]|Hno].
  - rewrite (Hsucc next Hnext), unlockModule_lookup, !updateModule_lookup.
    destruct (decide (moduleId = next)) as [<-|Hne].
    + rewrite decide_True by done. by destruct (modules current !! moduleId).
    + by rewrite decide_True.
  - rewrite (Hnone Hno), updateModule_lookup. by rewrite decide_True.
Qed.

(** X12. Typing a teach-back and submitting it: the module keeps the text
    and its attempts; it becomes completed if the text has at least
    [MIN_TEACH_BACK_WORDS] words and keeps the status it had if not, in
    which case the submit handler leaves the whole state as it is. *)
Theorem teachBack_submit (MIN_TEACH_BACK_WORDS : nat)
    (manifest : list ModuleManifestEntry) (moduleId text : string)
    (current : ProgressState) (existing : ModuleProgress) :
  modules current !! moduleId = Some existing ->
  let written := updateTeachBack moduleId text current in
  let submit := handleTeachBackSubmit MIN_TEACH_BACK_WORDS manifest moduleId written in
  modules (submit written) !! moduleId
  = Some {| status := if bool_decide (MIN_TEACH_BACK_WORDS <= word_starts true text)%nat
                      then completed else status existing;
            attempts := attempts existing;
            teachBack := text |}
  /\ ((word_starts true text < MIN_TEACH_BACK_WORDS)%nat -> submit written = written).
Proof.
  intros Hex written submit.
  assert (modules written !! moduleId
          = Some {| status := status existing; attempts := attempts existing;
                    teachBack := text |}) as Hwritten.
  { unfold written, updateTeachBack. rewrite updateModule_lookup, decide_True by done.
    by rewrite Hex. }
  assert (wordCount (teachBackText written moduleId) = word_starts true text) as Hcount.
  { unfold teachBackText. rewrite Hwritten. simpl. by wordCount_as_word_starts. }
  unfold submit, handleTeachBackSubmit, canSubmitTeachBack. rewrite Hcount.
  split.
  - case_bool_decide; [|done].
    by rewrite markCompleted_lookup_self, Hwritten.
  - intros Hless. rewrite bool_decide_false by lia. done.
Qed.

Lemma teachBack_submit_witness :
  modules
    (handleTeachBackSubmit 3 sample_manifest "M01"
       (updateTeachBack "M01" "tag the lead" sample_progress)
       (updateTeachBack "M01" "tag the lead" sample_progress)) !! "M01"
  = Some {| status := completed; attempts := mkAttempts 2 1; teachBack := "tag the lead" |}.
Proof.
  eapply (proj1 (teachBack_submit 3 sample_manifest "M01" "tag the lead" sample_progress
                   (mkModuleProgress available (mkAttempts 2 1) "notes") _)).
  Unshelve. vm_compute. reflexivity.
Defined.

(** ** The lesson path *)

Lemma activeTabIndex_tabs index tab :
  tabs !! index = Some tab -> activeTabIndex (tab_key tab) = index.
Proof.
  do 5 (destruct index as [|index]; [by intros [= <-]|]). done.
Qed.

(** X13. With Auto move on, no button opens a tab more than one step
    ahead of the open one, and the two effects that move on after a pass
    go one step ahead or stay. *)
Theorem guided_flow_one_step (isBundle : bool) (s : ShellState)
    (button : FlowButton) (tab : TabKey) :
  guidedFlow s = true ->
  button_target isBundle s button = Some tab ->
  (activeTabIndex tab <= activeTabIndex (activeTab s) + 1)%nat
  /\ (activeTabIndex (activeTab s)
      <= activeTabIndex (activeTab (advanceAfterValidation s))
      <= activeTabIndex (activeTab s) + 1)%nat
  /\ (activeTabIndex (activeTab s)
      <= activeTabIndex (activeTab (advanceAfterSimulation s))
      <= activeTabIndex (activeTab s) + 1)%nat.
Proof.
  intros Hguided Htarget. split; [|split].
  - destruct button as [index| |]; simpl in Htarget.
    + destruct (tabs !! index) as [found|] eqn:Hfound; [|done].
      unfold isFutureLocked in Htarget. rewrite Hguided in Htarget. simpl in Htarget.
      case_bool_decide as Hlocked; [done|].
      injection Htarget as <-. rewrite (activeTabIndex_tabs index found Hfound). lia.
    + destruct (activeTab s); simpl in *;
        repeat match type of Htarget with
               | (if ?b then _ else _) = _ => destruct b
               end;
        try done; injection Htarget as <-; vm_compute; lia.
    + destruct (activeTab s); simpl in *; try done;
        injection Htarget as <-; vm_compute; lia.
  - unfold advanceAfterValidation.
    destruct (guidedFlow s && bool_decide (activeTab s = Validate) && validationPassed s)
      eqn:Hfire; [|lia].
    apply andb_prop in Hfire as [[_ Htab%bool_decide_eq_true]%andb_prop _].
    rewrite Htab. vm_compute. lia.
  - unfold advanceAfterSimulation.
    destruct (guidedFlow s && bool_decide (activeTab s = Simulate) && simulationPassed s)
      eqn:Hfire; [|lia].
    apply andb_prop in Hfire as [[_ Htab%bool_decide_eq_true]%andb_prop _].
    rewrite Htab. vm_compute. lia.
Qed.

Lemma guided_flow_one_step_witness :
  (activeTabIndex Build <= activeTabIndex (activeTab initialShellState) + 1)%nat.
Proof.
  apply (guided_flow_one_step false initialShellState (StepButton 1) Build);
    reflexivity.
Defined.

(** X14. The Back and Next buttons follow the order of [tabs]: Back opens
    the tab before the open one, Next, when it opens a tab, the tab after
    it. The step button of that next tab opens it whatever the checks say,
    also where Next is disabled. *)
Theorem flow_buttons_follow_tabs (isBundle : bool) (s : ShellState) :
  let index := activeTabIndex (activeTab s) in
  tab_key <$> tabs !! index = Some (activeTab s)
  /\ button_target isBundle s BackButton = prevTab (activeTab s)
  /\ (forall tab, button_target isBundle s NextButton = Some tab ->
        tab_key <$> tabs !! (index + 1)%nat = Some tab)
  /\ button_target isBundle s (StepButton (index + 1))
     = tab_key <$> tabs !! (index + 1)%nat.
Proof.
  cbv zeta. split_and!.
  - by destruct (activeTab s).
  - simpl. by destruct (activeTab s).
  - intros tab. simpl.
    destruct (activeTab s); simpl;
      repeat match goal with
             | |- (if ?b then _ else _) = _ -> _ => destruct b
             end;
      try done; by intros [= <-].
  - simpl. unfold isFutureLocked.
    rewrite (bool_decide_false (_ < _)%nat) by lia.
    rewrite andb_false_r. by destruct (tabs !! _).
Qed.

(** X15. [handleFixNode] always opens the Build tab and never leaves a
    field focused without a node: a missing or empty node id clears both,
    any other node id is focused together with the given field. The
    flow switches and passes are not touched. *)
Theorem handleFixNode_focus (nodeId fieldKey : option string) (s : ShellState) :
  let s' := handleFixNode nodeId fieldKey s in
  activeTab s' = Build
  /\ (is_Some (focusFieldKey s') -> is_Some (focusNodeId s'))
  /\ focusNodeId s' <> Some ""
  /\ (forall id, nodeId = Some id -> id <> "" ->
        focusNodeId s' = Some id /\ focusFieldKey s' = fieldKey)
  /\ (nodeId = None \/ nodeId = Some "" ->
        focusNodeId s' = None /\ focusFieldKey s' = None)
  /\ (guidedFlow s', buildReady s', validationPassed s', simulationPassed s')
     = (guidedFlow s, buildReady s, validationPassed s, simulationPassed s).
Proof.
  cbv zeta. unfold handleFixNode.
  destruct nodeId as [[|c id]|]; simpl; split_and!; try done;
    try (by intros [? ?]); try (by intros ? [= <-]).
  by intros [|].
Qed.

(** ** The workflows of a bundle *)

Lemma find_first_match {A} (p : A -> bool) (xs : list A) x :
  x ∈ xs -> p x = true ->
  exists before found after,
    xs = before ++ found :: after /\ List.find p xs = Some found /\ p found = true
    /\ forall y, y ∈ before -> p y = false.
Proof.
  induction xs as [|y xs IH]; intros Hin Hp; [by apply elem_of_nil in Hin|].
  simpl. destruct (p y) eqn:Hy.
  - exists [], y, xs. split_and!; try done. intros ? []%elem_of_nil.
  - apply elem_of_cons in Hin as [->|Hin]; [congruence|].
    destruct (IH Hin Hp) as (before & found & after & -> & Hfind & Hfound & Hbefore).
    exists (y :: before), found, after. split_and!; try done.
    intros z [->|Hz]%elem_of_cons; [done|by apply Hbefore].
Qed.

(** X16. [MultiWorkflowBuilder] starts on the first workflow of the
    bundle. Choosing the option of a workflow makes the first workflow
    with that id the active one, which is the chosen workflow itself when
    no id is used twice, and the builder is then given the node types and
    the hints of the scenario of the active workflow. *)
Theorem activeWorkflow_chosen (workflows : list Workflow) (chosen : Workflow) :
  chosen ∈ workflows ->
  activeWorkflow workflows (initialActiveWorkflowId workflows) = head workflows
  /\ exists before active after,
       workflows = before ++ active :: after
       /\ activeWorkflow workflows (workflowId chosen) = Some active
       /\ workflowId active = workflowId chosen
       /\ (forall earlier, earlier ∈ before -> workflowId earlier <> workflowId chosen)
       /\ (NoDup (workflowId <$> workflows) -> active = chosen)
       /\ allowedTypes workflows (workflowId chosen)
          = getAllowedNodeTypes (Some (SingleWorkflow (workflow_scenario active)))
       /\ activeWorkflowHints workflows (workflowId chosen)
          = buildExpectedFieldHints (Some (SingleWorkflow (workflow_scenario active))).
Proof.
  intros Hin. split.
  - unfold activeWorkflow, initialActiveWorkflowId.
    destruct workflows as [|first rest]; simpl; [done|].
    by rewrite bool_decide_true.
  - destruct (find_first_match
                (fun workflow => bool_decide (workflowId workflow = workflowId chosen))
                workflows chosen Hin)
      as (before & active & after & Hsplit & Hfind & Hid%bool_decide_eq_true & Hbefore).
    { by apply bool_decide_eq_true. }
    exists before, active, after. split_and!; try done.
    + intros earlier Hearlier. by apply (bool_decide_eq_false _), Hbefore.
    + intros Hnd. subst workflows.
      apply elem_of_app in Hin as [Hin|Hin].
      * apply Hbefore in Hin. by apply (bool_decide_eq_false _) in Hin.
      * apply elem_of_cons in Hin as [->|Hin]; [done|].
        rewrite fmap_app, fmap_cons in Hnd.
        apply NoDup_app in Hnd as (_ & _ & Hnd).
        apply NoDup_cons in Hnd as [Hfresh _].
        exfalso. apply Hfresh. rewrite Hid. apply list_elem_of_fmap. eauto.
    + unfold allowedTypes. unfold activeWorkflow in Hfind. unfold activeWorkflow.
      by rewrite Hfind.
    + unfold activeWorkflowHints. unfold activeWorkflow in Hfind. unfold activeWorkflow.
      by rewrite Hfind.
Qed.

Lemma activeWorkflow_chosen_witness :
  activeWorkflow sample_workflows (initialActiveWorkflowId sample_workflows)
  = head sample_workflows.
Proof.
  apply (activeWorkflow_chosen sample_workflows
           (mkWorkflow "follow-up" scenario_without_trigger_rule)).
  repeat constructor.
Defined.

(** ** The hints in the order of the test cases *)

Lemma set_insert_fold_fresh (xs acc : list string) :
  NoDup (acc ++ xs) -> fold_left set_insert xs acc = acc ++ xs.
Proof.
  revert acc. induction xs as [|x xs IH]; intros acc Hnd; simpl.
  - by rewrite app_nil_r.
  - assert (x ∉ acc) as Hx.
    { apply NoDup_app in Hnd as (_ & Hdisjoint & _).
      intros Hin. apply (Hdisjoint x Hin). by left. }
    unfold set_insert at 2. rewrite bool_decide_false by done.
    rewrite IH; rewrite <- app_assoc; done.
Qed.

Lemma array_from_set_id xs : NoDup xs -> array_from_set xs = xs.
Proof. intros Hnd. unfold array_from_set. by rewrite set_insert_fold_fresh. Qed.

Lemma hint_values_apply_call_order hints call nodeType fieldKey :
  NoDup (hint_values hints nodeType fieldKey) ->
  hint_values (apply_call hints call) nodeType fieldKey
  = fold_left set_insert (contributions [call] nodeType fieldKey)
      (hint_values hints nodeType fieldKey).
Proof.
  intros Hnd. unfold contributions. csimpl. rewrite app_nil_r.
  unfold apply_call, hint_values at 1. rewrite lookup_hint_collectHint.
  case_decide as Hcall.
  - destruct Hcall as (Hvalues & -> & ->).
    rewrite bool_decide_true by done. simpl.
    unfold array_from_set. rewrite fold_left_app.
    fold (array_from_set
            (from_option values []
               (lookup_hint hints (call_nodeType call) (call_fieldKey call)))).
    by rewrite array_from_set_id.
  - case_bool_decide as Hfield; [|done].
    destruct Hfield as [<- <-].
    destruct (cleaned (call_values call)) as [|v vs]; [done|].
    exfalso. by apply Hcall.
Qed.

Lemma hint_values_fold_order calls hints nodeType fieldKey :
  NoDup (hint_values hints nodeType fieldKey) ->
  hint_values (fold_left apply_call calls hints) nodeType fieldKey
  = fold_left set_insert (contributions calls nodeType fieldKey)
      (hint_values hints nodeType fieldKey).
Proof.
  revert hints. induction calls as [|call calls IH]; intros hints Hnd; [done|].
  simpl. rewrite IH.
  - rewrite hint_values_apply_call_order by done.
    unfold contributions. csimpl. by rewrite app_nil_r, fold_left_app.
  - rewrite hint_values_apply_call_order by done.
    by apply set_insert_fold_NoDup.
Qed.

(** X17. The values of a hint are the cleaned values that the test cases
    bring to its field, in the order in which the test cases bring them,
    each value at the place of its first occurrence. *)
Theorem buildExpectedFieldHints_order (scenario : Scenario)
    (nodeType : NodeType) (fieldKey : string) :
  hint_values (buildExpectedFieldHints (Some (SingleWorkflow scenario))) nodeType fieldKey
  = array_from_set
      (contributions (testCases scenario ≫= testCase_calls) nodeType fieldKey).
Proof.
  rewrite buildExpectedFieldHints_calls.
  rewrite hint_values_fold_order; [done|]. apply NoDup_nil_2.
Qed.

Lemma message_calls_captioned message call :
  call ∈ message_calls message ->
  hint_caption (call_nodeType call) (call_fieldKey call)
  = Some (call_label call, call_note call).
Proof.
  unfold message_calls. rewrite elem_of_app, !elem_of_if_list.
  intros [[_ Hcall]|[_ Hcall]].
  - apply list_elem_of_singleton in Hcall as ->. reflexivity.
  - apply elem_of_cons in Hcall as [->|Hcall]; [reflexivity|].
    apply list_elem_of_singleton in Hcall as ->. reflexivity.
Qed.

Lemma testCase_calls_captioned testCase call :
  call ∈ testCase_calls testCase ->
  hint_caption (call_nodeType call) (call_fieldKey call)
  = Some (call_label call, call_note call).
Proof.
  unfold testCase_calls. cbv zeta.
  rewrite !elem_of_app, !elem_of_if_list.
  intros Hcall.
  repeat match goal with
         | H : _ \/ _ |- _ => destruct H as [H|H]
         | H : _ /\ _ |- _ => destruct H as [_ H]
         end.
  - apply list_elem_of_bind in Hcall as (message & Hcall & _).
    by eapply message_calls_captioned.
  - apply list_elem_of_singleton in Hcall as ->. reflexivity.
  - apply list_elem_of_singleton in Hcall as ->. reflexivity.
  - apply elem_of_cons in Hcall as [->|Hcall]; [reflexivity|].
    apply list_elem_of_singleton in Hcall as ->. reflexivity.
  - apply list_elem_of_fmap in Hcall as (x & -> & _). reflexivity.
  - apply list_elem_of_fmap in Hcall as (x & -> & _). reflexivity.
  - apply list_elem_of_fmap in Hcall as (x & -> & _). reflexivity.
  - apply list_elem_of_fmap in Hcall as (x & -> & _). reflexivity.
  - apply list_elem_of_fmap in Hcall as (x & -> & _). reflexivity.
Qed.

Lemma hints_captioned_apply_call hints call :
  hint_caption (call_nodeType call) (call_fieldKey call)
  = Some (call_label call, call_note call) ->
  hints_captioned hints -> hints_captioned (apply_call hints call).
Proof.
  intros Hcall Hhints nodeType fieldKey hint.
  unfold apply_call. rewrite lookup_hint_collectHint.
  case_decide as Hfield; [|apply Hhints].
  destruct Hfield as (_ & -> & ->). intros [= <-]. simpl.
  rewrite Hcall. do 2 f_equal.
  destruct (lookup_hint hints (call_nodeType call) (call_fieldKey call))
    as [existing|] eqn:Hexisting; simpl; [|done].
  apply Hhints in Hexisting. rewrite Hcall in Hexisting.
  injection Hexisting as _ <-. by destruct (call_note call).
Qed.

Lemma hints_captioned_fold calls hints :
  (forall call, call ∈ calls ->
     hint_caption (call_nodeType call) (call_fieldKey call)
     = Some (call_label call, call_note call)) ->
  hints_captioned hints -> hints_captioned (fold_left apply_call calls hints).
Proof.
  revert hints. induction calls as [|call calls IH]; intros hints Hcalls Hhints; [done|].
  simpl. apply IH.
  - intros c Hc. apply Hcalls. by right.
  - apply hints_captioned_apply_call; [|done]. apply Hcalls. by left.
Qed.

(** X18. The label and the note of a hint depend on its node type and
    field alone: whatever the scenario, a hint that
    [buildExpectedFieldHints] returns is one of the ten captioned fields
    and carries the label and the note of that field. *)
Theorem buildExpectedFieldHints_captions (scenario : option ScenarioDefinition)
    (nodeType : NodeType) (fieldKey : string) (hint : ExpectedFieldHint) :
  lookup_hint (buildExpectedFieldHints scenario) nodeType fieldKey = Some hint ->
  hint_caption nodeType fieldKey = Some (label hint, note hint).
Proof.
  revert nodeType fieldKey hint. change (hints_captioned (buildExpectedFieldHints scenario)).
  destruct scenario as [[scenario|? ? ?]|]; [|done..].
  rewrite buildExpectedFieldHints_calls. apply hints_captioned_fold; [|done].
  intros call (testCase & Hcall & _)%list_elem_of_bind.
  by eapply testCase_calls_captioned.
Qed.

Lemma buildExpectedFieldHints_captions_witness :
  let hint := {| label := "Expected text to include";
                 values := ["Welcome"];
                 note := Some "Use these words somewhere in the SMS." |} in
  lookup_hint (buildExpectedFieldHints (Some (SingleWorkflow sample_scenario)))
    "sms.send" "body" = Some hint
  /\ hint_caption "sms.send" "body" = Some (label hint, note hint).
Proof.
  cbv zeta.
  assert (lookup_hint (buildExpectedFieldHints (Some (SingleWorkflow sample_scenario)))
            "sms.send" "body"
          = Some {| label := "Expected text to include";
                    values := ["Welcome"];
                    note := Some "Use these words somewhere in the SMS." |}) as Hhint
    by (vm_compute; reflexivity).
  split; [exact Hhint|].
  exact (buildExpectedFieldHints_captions _ _ _ _ Hhint).
Defined.

(** ** When a requirement cannot be summarised *)




(** ** A test case that comes again *)

Lemma set_insert_fold_known (xs acc : list string) :
  (forall x, x ∈ xs -> x ∈ acc) -> fold_left set_insert xs acc = acc.
Proof.
  induction xs as [|x xs IH]; intros Hknown; simpl; [done|].
  unfold set_insert at 2. rewrite bool_decide_true by (apply Hknown; by left).
  apply IH. intros y Hy. apply Hknown. by right.
Qed.

Lemma apply_call_known hints call :
  hints_captioned hints ->
  hints_clean hints ->
  hint_caption (call_nodeType call) (call_fieldKey call)
  = Some (call_label call, call_note call) ->
  (forall v, v ∈ cleaned (call_values call) ->
     v ∈ hint_values hints (call_nodeType call) (call_fieldKey call)) ->
  apply_call hints call = hints.
Proof.
  intros Hcaptioned Hclean Hcall Hknown. unfold apply_call, collectHint.
  destruct (cleaned (call_values call)) as [|v vs] eqn:Hcleaned; [done|].
  assert (v ∈ hint_values hints (call_nodeType call) (call_fieldKey call)) as Hv
    by (apply Hknown; by left).
  unfold hint_values in Hv, Hknown.
  destruct (lookup_hint hints (call_nodeType call) (call_fieldKey call))
    as [existing|] eqn:Hexisting; [|by apply elem_of_nil in Hv].
  simpl in *.
  pose proof (Hcaptioned _ _ _ Hexisting) as Hcaption. rewrite Hcall in Hcaption.
  injection Hcaption as Hlabel Hnote.
  destruct (Hclean _ _ _ Hexisting) as [Hnodup _].
  unfold lookup_hint in Hexisting.
  destruct (hints !! call_nodeType call) as [byField|] eqn:HbyField; [|done].
  simpl in Hexisting. simpl.
  assert ({| label := call_label call;
             values := array_from_set (values existing ++ v :: vs);
             note := match note existing with
                     | Some n => Some n
                     | None => call_note call
                     end |} = existing) as ->.
  { destruct existing as [l vals n]. simpl in *. subst l n. f_equal.
    - unfold array_from_set. rewrite fold_left_app.
      fold (array_from_set vals). rewrite array_from_set_id by done.
      by apply set_insert_fold_known.
    - by destruct (call_note call). }
  rewrite (insert_id byField) by done. by apply insert_id.
Qed.

Lemma fold_apply_call_known calls hints :
  hints_captioned hints ->
  hints_clean hints ->
  (forall call, call ∈ calls ->
     hint_caption (call_nodeType call) (call_fieldKey call)
     = Some (call_label call, call_note call)
     /\ forall v, v ∈ cleaned (call_values call) ->
          v ∈ hint_values hints (call_nodeType call) (call_fieldKey call)) ->
  fold_left apply_call calls hints = hints.
Proof.
  intros Hcaptioned Hclean.
  induction calls as [|call calls IH]; intros Hcalls; [done|]. simpl.
  destruct (Hcalls call) as [Hcall Hknown]; [by left|].
  rewrite apply_call_known by done.
  apply IH. intros c Hc. apply Hcalls. by right.
Qed.

Lemma hints_clean_calls calls : hints_clean (fold_left apply_call calls ∅).
Proof.
  apply hints_clean_fold; [|apply hints_clean_empty].
  intros h call. apply hints_clean_collectHint.
Qed.

(** X20. A test case that comes again changes nothing: the hints of a
    scenario stay the same when a later repetition of one of its test
    cases is left out. *)
Theorem buildExpectedFieldHints_repeat (scenario reduced : Scenario)
    (before after : list TestCase) (testCase : TestCase) :
  testCases scenario = before ++ testCase :: after ->
  testCases reduced = before ++ after ->
  testCase ∈ before ->
  buildExpectedFieldHints (Some (SingleWorkflow scenario))
  = buildExpectedFieldHints (Some (SingleWorkflow reduced)).
Proof.
  intros Hscenario Hreduced Hin.
  rewrite !buildExpectedFieldHints_calls, Hscenario, Hreduced.
  rewrite !bind_app, bind_cons, !fold_apply_call_app. f_equal.
  apply fold_apply_call_known.
  - apply hints_captioned_fold; [|done].
    intros call (earlier & Hcall & _)%list_elem_of_bind.
    by eapply testCase_calls_captioned.
  - apply hints_clean_calls.
  - intros call Hcall. split; [by eapply testCase_calls_captioned|].
    intros v Hv. apply hint_values_fold. right.
    exists call. split_and!; try done.
    apply list_elem_of_bind. by exists testCase.
Qed.

Lemma buildExpectedFieldHints_repeat_witness :
  buildExpectedFieldHints (Some (SingleWorkflow sample_scenario))
  = buildExpectedFieldHints
      (Some (SingleWorkflow
         {| moduleId := moduleId sample_scenario;
            title := title sample_scenario;
            objectives := objectives sample_scenario;
            allowedNodes := allowedNodes sample_scenario;
            requirements := requirements sample_scenario;
            testCases := [ has_phone_case; no_phone_case ] |})).
Proof.
  apply (buildExpectedFieldHints_repeat _ _ [has_phone_case; no_phone_case] []
           has_phone_case); [reflexivity|reflexivity|by left].
Defined.

(** ** The fields of the node inspector *)

Lemma isFieldMissing_string s :
  isFieldMissing (JStr s) = JsString.all_whitespace s.
Proof.
  simpl. destruct (JsString.all_whitespace s) eqn:Hs.
  - by apply bool_decide_eq_true, trim_length_zero_iff.
  - apply bool_decide_eq_false. rewrite trim_length_zero_iff. congruence.
Qed.

(** X21. A field is flagged as missing exactly when it is required and
    what the config reads under its key is [undefined], [null] or a
    string of whitespace only. The config reads [undefined] under a key
    that it neither has nor inherits; under a name of [Object.prototype]
    that it does not have it reads the inherited value, which is not
    missing. A number or a boolean is never missing. For a key that is no
    name of [Object.prototype], [field_missing] is this flag. *)
Theorem field_missing_iff (config : NodeConfig) (field : ConfigField) :
  (missing config field = true <->
   field_required field = true
   /\ match config !! field_key field with
      | None => field_key field ∉ object_prototype_names
      | Some JUndefined | Some JNull => True
      | Some (JStr s) => JsString.all_whitespace s = true
      | Some _ => False
      end)
  /\ (field_key field ∉ object_prototype_names ->
      field_missing config field = missing config field).
Proof.
  split.
  - unfold missing. rewrite andb_true_iff.
    destruct (config !! field_key field) as [[| |flag|num|str|items|props]|];
      cbn -[isFieldMissing object_prototype_names];
      rewrite ?isFieldMissing_string; simpl; try (split; intros [? ?]; done).
    case_bool_decide; split; intros [? ?]; done.
  - intros Hkey. unfold field_missing, missing, field_value.
    destruct (config !! field_key field); [done|].
    by rewrite bool_decide_eq_false_2.
Qed.

Lemma field_value_changeField Number config field target other :
  field_key other <> field_key field ->
  field_value (changeField Number config field target) other = field_value config other.
Proof.
  intros Hother. unfold field_value, changeField. by rewrite lookup_insert_ne.
Qed.

(** X22. After a change the control shows what was entered and no other
    field is touched: a text input shows the text, a checkbox its state
    and is never missing, a number input the number, or nothing after it
    is cleared, which stores [null] and leaves a required field missing. *)
Theorem changeField_shows_entered (Number : string -> Z) (config : NodeConfig)
    (field : ConfigField) (target : ChangeTarget) :
  let config' := changeField Number config field target in
  let entered := target_value target in
  (forall other, field_key other <> field_key field ->
     renderField config' other = renderField config other
     /\ field_missing config' other = field_missing config other)
  /\ match renderField config' field with
     | TextView shown =>
         shown = entered
         /\ field_missing config' field
            = field_required field && JsString.all_whitespace entered
     | CheckboxView checked =>
         checked = target_checked target /\ field_missing config' field = false
     | NumberView shown =>
         (entered = "" /\ shown = JStr ""
          /\ field_missing config' field = field_required field)
         \/ (entered <> "" /\ shown = JNum (Number entered)
             /\ field_missing config' field = false)
     | SelectView shown =>
         (entered <> "" -> shown = entered)
         /\ field_missing config' field
            = field_required field && JsString.all_whitespace entered
     end.
Proof.
  cbv zeta. split.
  - intros other Hother. unfold renderField, field_missing.
    by rewrite field_value_changeField.
  - unfold renderField, field_missing, field_value, changeField.
    rewrite lookup_insert_eq.
    repeat case_bool_decide; cbn -[isFieldMissing].
    + split; [|by rewrite isFieldMissing_string].
      intros Hentered. unfold logical_or. simpl.
      rewrite !bool_decide_false by done. simpl.
      by rewrite bool_decide_false.
    + left. split_and!; try done. by rewrite andb_true_r.
    + right. split_and!; try done. by rewrite andb_false_r.
    + split; [done|]. by rewrite andb_false_r.
    + split; [done|]. by rewrite isFieldMissing_string.
Qed.



(** ** The shape of what the builders return *)

Section ShapeFacts.

Import Store.

Lemma post_of_wp {A} (m : M A) h (Q : A -> heap -> Prop) : wp m h Q -> post m h Q.
Proof. unfold wp, post. by destruct (m h) as [[a|e] h']. Qed.

Lemma post_skip {A B} (m : M A) (k : A -> M B) h (Q : B -> heap -> Prop) :
  (forall a h', post (k a) h' Q) -> post (bind m k) h Q.
Proof.
  intros Hk. unfold post, bind. destruct (m h) as [[a|e] h'] eqn:Hm; [|done].
  apply Hk.
Qed.

Lemma wp_post {A} (m : M A) h (Q1 Q2 : A -> heap -> Prop) :
  wp m h Q1 -> post m h Q2 -> wp m h (fun a h' => Q1 a h' /\ Q2 a h').
Proof. unfold wp, post. by destruct (m h) as [[a|e] h']. Qed.

Lemma card_at_mono h h' title text v :
  h ⊆ h' -> card_at h title text v -> card_at h' title text v.
Proof.
  intros Hsub (l & -> & Hl). exists l. split; [done|]. by eapply lookup_weaken.
Qed.

Lemma wp_card h title text (Q : val -> heap -> Prop) :
  (forall v h', h ⊆ h' -> card_at h' title text v -> Q v h') ->
  wp (card title text) h Q.
Proof.
  intros HQ. unfold card. apply wp_alloc. intros l h' _ Hsub Hl.
  apply HQ; [done|]. by exists l.
Qed.

Lemma three_cards_spec h goal steps where_ :
  wp (let* card1 := card "Goal" goal in
      let* card2 := card "Key steps" steps in
      let* card3 := card "Where in HighLevel" where_ in
      alloc (Arr [card1; card2; card3])) h
    (fun r h' => three_cards_at h' goal steps where_ r).
Proof.
  apply wp_bind, wp_card. intros card1 h1 _ Hcard1.
  apply wp_bind, wp_card. intros card2 h2 Hsub2 Hcard2.
  apply wp_bind, wp_card. intros card3 h3 Hsub3 Hcard3.
  apply wp_alloc. intros l h4 _ Hsub4 Hl.
  exists l, card1, card2, card3. split_and!; [done..| | |].
  - eapply card_at_mono; [|exact Hcard1]. etrans; [exact Hsub2|]. by etrans.
  - eapply card_at_mono; [|exact Hcard2]. by etrans.
  - by eapply card_at_mono.
Qed.

Lemma nullish_not_nullish a b : is_nullish b = false -> is_nullish (nullish a b) = false.
Proof. intros Hb. unfold nullish. by destruct (is_nullish a) eqn:Ha. Qed.

Ltac skip_to_cards :=
  repeat lazymatch goal with
         | |- post (bind (card _ _) _) _ _ => fail
         | |- post (bind _ _) _ _ => apply post_skip; intros ? ?; cbv zeta
         | |- post (if ?b then _ else _) _ _ => destruct b
         end.

(** X24. Given a scenario, [buildMicroLessonCards] returns an array of
    exactly three cards, titled Goal, Key steps and Where in HighLevel;
    no text is [null] or [undefined], and the text of Key steps is a
    string that is not empty. Without a scenario it returns a new, empty
    array. *)
Theorem buildMicroLessonCards_three_cards (to_string : heap -> val -> string)
    (getNodeDisplayName : val -> string) (getGhlWhere : val -> val)
    (h0 : heap) (scenario : val) :
  (truthy scenario = false ->
   exists l, buildMicroLessonCards to_string getNodeDisplayName getGhlWhere scenario h0
             = (Return (VRef l), <[l := Arr []]> h0)
             /\ h0 !! l = None)
  /\ (scenario_at h0 scenario ->
      wp (buildMicroLessonCards to_string getNodeDisplayName getGhlWhere scenario) h0
        (fun r h' =>
           exists goal steps where_,
             three_cards_at h' goal (VStr steps) where_ r
             /\ is_nullish goal = false /\ steps <> ""
             /\ is_nullish where_ = false)).
Proof.
  split.
  - intros Hfalsy. unfold buildMicroLessonCards. rewrite Hfalsy. simpl.
    eexists. split; [reflexivity|]. apply not_elem_of_dom, is_fresh.
  - intros Hscenario.
    eapply wp_mono; [apply wp_post|intros result final [_ Hshape]; exact Hshape].
    + destruct Hscenario as [Hsingle|Hbundle].
      * by apply (buildMicroLessonCards_single to_string getNodeDisplayName getGhlWhere).
      * by apply (buildMicroLessonCards_bundle to_string getNodeDisplayName getGhlWhere).
    + assert (truthy scenario = true) as Htruthy.
      { by destruct Hscenario as [(l & ? & -> & _)|(l & ? & -> & _)]. }
      unfold buildMicroLessonCards. rewrite Htruthy. simpl. skip_to_cards.
      * eapply post_of_wp, wp_mono; [apply three_cards_spec|].
        intros result final Hcards. cbv beta in *.
        eexists _, _, _. split; [exact Hcards|]. by split_and!.
      * eapply post_of_wp, wp_mono; [apply three_cards_spec|].
        intros result final Hcards. cbv beta in *.
        eexists _, _, _. split; [exact Hcards|]. split_and!.
        -- by apply nullish_not_nullish.
        -- repeat case_bool_decide; simpl; done.
        -- by apply nullish_not_nullish.
Qed.

Lemma buildMicroLessonCards_three_cards_witness :
  wp (buildMicroLessonCards sample_to_string sample_names sample_where
        sample_scenario_ref) sample_heap
    (fun r h' =>
       exists goal steps where_,
         three_cards_at h' goal (VStr steps) where_ r
         /\ is_nullish goal = false /\ steps <> ""
         /\ is_nullish where_ = false).
Proof.
  apply (buildMicroLessonCards_three_cards sample_to_string sample_names sample_where
           sample_heap sample_scenario_ref).
  apply sample_scenario_at.
Defined.

(** X25. The summary of a single-workflow scenario takes over the
    scenario's [moduleId], [title] and [objectives] as they are, so it
    shares the [objectives] array with the scenario, while its
    [allowedSteps] and [requirements] are arrays that the store did not
    have before the call. *)
Theorem buildScenarioSummary_shares_objectives (to_string : heap -> val -> string)
    (getNodeDisplayName : val -> string) (h0 : heap) (l : loc)
    (props : gmap string val) :
  h0 !! l = Some (Obj props) ->
  single_at h0 (VRef l) ->
  wp (buildScenarioSummary to_string getNodeDisplayName (VRef l)) h0
    (fun r h' =>
       exists summary allowedSteps requirements,
         r = VRef summary
         /\ h' !! summary
            = Some (object_of [ ("moduleId", prop props "moduleId");
                                ("title", prop props "title");
                                ("objectives", prop props "objectives");
                                ("allowedSteps", allowedSteps);
                                ("requirements", requirements) ])
         /\ fresh_in h0 h' allowedSteps
         /\ fresh_in h0 h' requirements
         /\ allowedSteps <> requirements
         /\ h' !! l = Some (Obj props)).
Proof.
  intros Hl (l' & props' & [= <-] & Hl' & Hw & _ & Hnodes & Hreqs & _).
  assert (props' = props) as -> by congruence.
  unfold buildScenarioSummary. simpl.
  apply wp_bind. eapply wp_has_prop; [done|]. rewrite Hw.
  rewrite bool_decide_eq_false_2 by (by intros [? ?]).
  do 3 (apply wp_bind; eapply wp_get_object; [done|]).
  apply wp_bind, (allowedSteps_of_spec getNodeDisplayName l props); [done..|].
  intros la h1 Hla Hsub1 Hla1.
  apply wp_bind, (requirement_summaries_of_spec to_string getNodeDisplayName l props).
  { by eapply lookup_weaken. }
  { eapply array_at_mono; [done| |done]. intros x. by apply requirement_at_mono. }
  intros lr h2 Hlr Hsub2 Hlr2.
  apply wp_alloc. intros ls h3 Hls Hsub3 Hls3.
  exists ls, (VRef la), (VRef lr). split_and!; [done|done| | | |].
  - exists la. split_and!; [done..|].
    destruct Hla1 as [o Ho]. exists o. eapply lookup_weaken; [|exact Hsub3].
    by eapply lookup_weaken.
  - exists lr. split_and!; [done|by eapply fresh_below|].
    destruct Hlr2 as [o Ho]. exists o. by eapply lookup_weaken.
  - intros [= ->]. destruct Hla1 as [o Ho]. congruence.
  - eapply lookup_weaken; [|exact Hsub3]. eapply lookup_weaken; [|exact Hsub2].
    by eapply lookup_weaken.
Qed.

Lemma sample_single_at : single_at sample_heap sample_scenario_ref.
Proof.
  destruct sample_scenario_at as [Hsingle|(l & props & [= <-] & Hl & [w Hw] & _)];
    [done|].
  exfalso. vm_compute in Hl. injection Hl as <-. vm_compute in Hw. discriminate.
Qed.

Lemma buildScenarioSummary_shares_objectives_witness :
  wp (buildScenarioSummary sample_to_string sample_names sample_scenario_ref) sample_heap
    (fun r h' =>
       exists summary allowedSteps requirements,
         r = VRef summary
         /\ h' !! summary
            = Some (object_of [ ("moduleId", VStr "M06");
                                ("title", VStr "If They Have a Phone");
                                ("objectives", VRef 16%positive);
                                ("allowedSteps", allowedSteps);
                                ("requirements", requirements) ])
         /\ fresh_in sample_heap h' allowedSteps
         /\ fresh_in sample_heap h' requirements
         /\ allowedSteps <> requirements
         /\ h' !! 17%positive = sample_heap !! 17%positive).
Proof.
  apply (buildScenarioSummary_shares_objectives sample_to_string sample_names
           sample_heap 17%positive _ eq_refl sample_single_at).
Defined.

End ShapeFacts.
